(** * MathLibTS: Vector2, Vector3 and MathHelper

    A shallow embedding of [src/libs/vector2.ts], [src/libs/vector3.ts] and
    [src/libs/mathHelper.ts].

    - A JavaScript [number] is an IEEE-754 binary64 value: Rocq's primitive
      [float], with the operators of [PrimFloat].
    - A [Float32Array] element is a binary64 value that went through
      [fround] (round to nearest binary32, ties to even) when it was stored.
    - A vector instance is an object identity ([loc]) in a store that maps it
      to its private [_values] buffer; methods are computations in a state and
      error monad over that store, so that aliasing between operands and
      destination is visible. *)

From Stdlib Require Import ZArith Reals Lra Floats Lia.
From Stdlib Require Uint63.
From stdpp Require Import base option list gmap.

Set Warnings "-inexact-float".

(** ** JavaScript numbers *)

Module JS.

Definition number := float.

(** Binary32 parameters: 24 bits of precision, infinities at exponent 128. *)
Definition prec32 : Z := 24.
Definition emax32 : Z := 128.

(** [Math.fround]: what a store into a [Float32Array] does to a number. *)
Definition fround (v : number) : number :=
  match Prim2SF v with
  | S754_finite s m e => SF2Prim (binary_round prec32 emax32 s m e)
  | _ => v
  end.

(** [Math.abs], [Math.sqrt]. *)
Definition Math_abs (v : number) : number := abs v.
Definition Math_sqrt (v : number) : number := sqrt v.

(** [Math.max] of two numbers: NaN if either is NaN, and [+0] is larger
    than [-0]. *)
Definition max2 (v w : number) : number :=
  if is_nan v || is_nan w then nan
  else if (v <? w)%float then w
  else if (w <? v)%float then v
  else if get_sign v then w else v.

(** [Math.max(v1, ..., vn)]; the maximum of no argument is [-Infinity]. *)
Definition Math_max (vs : list number) : number :=
  foldl max2 neg_infinity vs.

(** Truthiness of a number: [0], [-0] and [NaN] are falsy. *)
Definition truthy (v : number) : bool :=
  negb (is_nan v || is_zero v).

(** [v || 0] on numbers. *)
Definition or0 (v : number) : number := if truthy v then v else 0%float.

(** The values the constructors are called with: nothing, a number, or a
    [number[]]. *)
Inductive value :=
| Undefined
| Num (n : number)
| Arr (vs : list number).

(** [Number(v)].  [Number(undefined)] is NaN.  An array is first turned
    into a string by joining its elements with commas: the empty string
    reads as [0], the text of one number reads back as that number (with
    [-0] printed as ["0"]), and a text with a comma in it is no numeric
    literal, hence NaN. *)
Definition Number (v : value) : number :=
  match v with
  | Undefined => nan
  | Num n => n
  | Arr [] => 0%float
  | Arr [n] => if is_zero n then 0%float else n
  | Arr (_ :: _ :: _) => nan
  end.

Definition of_opt (p : option number) : value :=
  match p with Some n => Num n | None => Undefined end.

(** [Number.isFinite]: neither NaN nor an infinity. *)
Definition isFinite (v : number) : bool := negb (is_nan v || is_infinity v).

(** A number that a [Float32Array] can hold as it is. *)
Definition is_f32 (v : number) : Prop := fround v = v.

(** [values[i]] as a number: a missing element is [undefined], which a
    typed-array store or an arithmetic operator reads as NaN. *)
Definition index (vs : list number) (i : nat) : number :=
  default nan (vs !! i).

End JS.

Import JS.
Bind Scope float_scope with number.

(** ** The object store *)

(** Object identities. *)
Definition loc := positive.
Bind Scope positive_scope with loc.

(** The store: each live vector instance with its [_values] buffer. *)
Abbreviation store := (gmap loc (list number)).

(** Computations that read and write the store, and fail on a reference
    that is no object (a [TypeError] in the source language). *)
Definition M (A : Type) : Type := store → option (A * store).

#[global] Instance M_ret : MRet M := λ A (a : A) h, Some (a, h).
#[global] Instance M_bind : MBind M := λ A B (f : A → M B) (c : M A) h,
  match c h with
  | Some (a, h') => f a h'
  | None => None
  end.

(** [new Float32Array(n)] held by a new object: [n] zeros. *)
Definition alloc (n : nat) : M loc := λ h,
  let o := fresh (dom h) in Some (o, <[o := replicate n 0%float]> h).

(** [o._values[i]], read as a number. *)
Definition getv (o : loc) (i : nat) : M number := λ h,
  match h !! o with
  | Some buf => Some (index buf i, h)
  | None => None
  end.

(** [o._values[i] = v]: the value is rounded to binary32; a typed array
    ignores a store outside its length. *)
Definition setv (o : loc) (i : nat) (v : number) : M unit := λ h,
  match h !! o with
  | Some buf => Some (tt, <[o := <[i := fround v]> buf]> h)
  | None => None
  end.

(** The optional [dest] parameter: [None] when the caller omits it. *)
Definition or_else (dest : option loc) (dflt : M loc) : M loc :=
  match dest with
  | Some d => mret d
  | None => dflt
  end.

(** ** [mathHelper.ts] *)

Module MathHelper.

Definition EPSILON : number := 0.00001%float.

Definition clamp (min max value : number) : number :=
  let value := if (max <? value)%float then max else value in
  let value := if (value <? min)%float then min else value in
  value.

Definition lerp (min max amount : number) : number :=
  (min + (max - min) * amount)%float.

Definition distance (value1 value2 : number) : number :=
  Math_abs (value1 - value2)%float.

(** [equals(a, b, tolerance = MathHelper.EPSILON)]. *)
Definition equals (a b : number) (tolerance : option number) : bool :=
  let tolerance := default EPSILON tolerance in
  (Math_abs (a - b) <=? tolerance * Math_max [1; Math_abs a; Math_abs b])%float.

End MathHelper.

(** ** [vector3.ts] *)

Module Vector3.

(** Getters [x], [y], [z], [xyz]. *)
Definition get_x (this : loc) : M number := getv this 0.
Definition get_y (this : loc) : M number := getv this 1.
Definition get_z (this : loc) : M number := getv this 2.
Definition get_xyz (this : loc) : M (list number) :=
  v0 ← getv this 0; v1 ← getv this 1; v2 ← getv this 2;
  mret [v0; v1; v2].

(** Setters [x], [y], [z], [xyz]. *)
Definition set_x (this : loc) (value : number) : M unit := setv this 0 value.
Definition set_y (this : loc) (value : number) : M unit := setv this 1 value.
Definition set_z (this : loc) (value : number) : M unit := setv this 2 value.
Definition set_xyz (this : loc) (values : list number) : M unit :=
  setv this 0 (index values 0);;
  setv this 1 (index values 1);;
  setv this 2 (index values 2).

(** [constructor(p1?: number[] | number, p2?: number, p3?: number)]. *)
Definition new (p1 : value) (p2 p3 : option number) : M loc :=
  this ← alloc 3;
  match p1 with
  | Arr vs =>
      if (3 <? length vs)%nat then set_xyz this vs
      else set_xyz this [or0 (Number p1); or0 (Number (of_opt p2));
                         or0 (Number (of_opt p3))]
  | _ => set_xyz this [or0 (Number p1); or0 (Number (of_opt p2));
                       or0 (Number (of_opt p3))]
  end;;
  mret this.

(** The named constants. *)
Definition zero : M loc := new (Arr [0; 0; 0]%float) None None.
Definition one : M loc := new (Arr [1; 1; 1]%float) None None.
Definition up : M loc := new (Arr [0; 1; 0]%float) None None.
Definition down : M loc := new (Arr [0; -1; 0]%float) None None.
Definition right : M loc := new (Arr [1; 0; 0]%float) None None.
Definition left : M loc := new (Arr [0; 1; 0]%float) None None.
Definition forward : M loc := new (Arr [0; 0; 1]%float) None None.
Definition backward : M loc := new (Arr [0; 0; -1]%float) None None.

Definition cross (vector vector2 : loc) (dest : option loc) : M loc :=
  dest ← or_else dest (new Undefined None None);
  x ← get_x vector; y ← get_y vector; z ← get_z vector;
  x2 ← get_x vector2; y2 ← get_y vector2; z2 ← get_z vector2;
  set_x dest (y * z2 - z * y2)%float;;
  set_y dest (z * x2 - x * z2)%float;;
  set_z dest (x * y2 - y * x2)%float;;
  mret dest.

Definition dot (vector vector2 : loc) : M number :=
  x ← get_x vector; y ← get_y vector; z ← get_z vector;
  x2 ← get_x vector2; y2 ← get_y vector2; z2 ← get_z vector2;
  mret (x * x2 + y * y2 + z * z2)%float.

Definition squaredDistance (vector vector2 : loc) : M number :=
  x2 ← get_x vector2; x1 ← get_x vector; let x := (x2 - x1)%float in
  y2 ← get_y vector2; y1 ← get_y vector; let y := (y2 - y1)%float in
  z2 ← get_z vector2; z1 ← get_z vector; let z := (z2 - z1)%float in
  mret (x * x + y * y + z * z)%float.

Definition distance (vector vector2 : loc) : M number :=
  d ← squaredDistance vector vector2; mret (Math_sqrt d).

Definition direction (vector vector2 : loc) (dest : option loc) : M loc :=
  dest ← or_else dest (new Undefined None None);
  x1 ← get_x vector; x2 ← get_x vector2; let x := (x1 - x2)%float in
  y1 ← get_y vector; y2 ← get_y vector2; let y := (y1 - y2)%float in
  z1 ← get_z vector; z2 ← get_z vector2; let z := (z1 - z2)%float in
  let length := Math_sqrt (x * x + y * y + z * z)%float in
  if (length =? 0)%float then
    set_x dest 0%float;; set_y dest 0%float;; set_z dest 0%float;;
    mret dest
  else
    let length := (1 / length)%float in
    set_x dest (x * length)%float;;
    set_y dest (y * length)%float;;
    set_z dest (z * length)%float;;
    mret dest.

Definition lerp (a b : loc) (t : number) (dest : option loc) : M loc :=
  dest ← or_else dest (new Undefined None None);
  ax ← get_x a; bx ← get_x b; ax' ← get_x a;
  set_x dest (ax + t * (bx - ax'))%float;;
  ay ← get_y a; by' ← get_y b; ay' ← get_y a;
  set_y dest (ay + t * (by' - ay'))%float;;
  az ← get_z a; bz ← get_z b; az' ← get_z a;
  set_z dest (az + t * (bz - az'))%float;;
  mret dest.

Definition sum (vector vector2 : loc) (dest : option loc) : M loc :=
  dest ← or_else dest (new Undefined None None);
  x ← get_x vector; x2 ← get_x vector2; set_x dest (x + x2)%float;;
  y ← get_y vector; y2 ← get_y vector2; set_y dest (y + y2)%float;;
  z ← get_z vector; z2 ← get_z vector2; set_z dest (z + z2)%float;;
  mret dest.

Definition difference (vector vector2 : loc) (dest : option loc) : M loc :=
  dest ← or_else dest (new Undefined None None);
  x ← get_x vector; x2 ← get_x vector2; set_x dest (x - x2)%float;;
  y ← get_y vector; y2 ← get_y vector2; set_y dest (y - y2)%float;;
  z ← get_z vector; z2 ← get_z vector2; set_z dest (z - z2)%float;;
  mret dest.

Definition product (vector vector2 : loc) (dest : option loc) : M loc :=
  dest ← or_else dest (new Undefined None None);
  x ← get_x vector; x2 ← get_x vector2; set_x dest (x * x2)%float;;
  y ← get_y vector; y2 ← get_y vector2; set_y dest (y * y2)%float;;
  z ← get_z vector; z2 ← get_z vector2; set_z dest (z * z2)%float;;
  mret dest.

Definition quotient (vector vector2 : loc) (dest : option loc) : M loc :=
  dest ← or_else dest (new Undefined None None);
  x ← get_x vector; x2 ← get_x vector2; set_x dest (x / x2)%float;;
  y ← get_y vector; y2 ← get_y vector2; set_y dest (y / y2)%float;;
  z ← get_z vector; z2 ← get_z vector2; set_z dest (z / z2)%float;;
  mret dest.

Definition at_ (this : loc) (index : nat) : M number := getv this index.

Definition reset (this : loc) : M unit := set_xyz this [0; 0; 0]%float.

Definition copy (this : loc) (dest : option loc) : M loc :=
  dest ← or_else dest (new Undefined None None);
  vs ← get_xyz this; set_xyz dest vs;;
  mret dest.

Definition negate (this : loc) (dest : option loc) : M loc :=
  dest ← or_else dest (mret this);
  x ← get_x this; set_x dest (- x)%float;;
  y ← get_y this; set_y dest (- y)%float;;
  z ← get_z this; set_z dest (- z)%float;;
  mret dest.

(** [equals(other, threshold = MathHelper.EPSILON)]. *)
Definition equals (this other : loc) (threshold : option number) : M bool :=
  let threshold := default MathHelper.EPSILON threshold in
  x ← get_x this; x' ← get_x other;
  if (threshold <? Math_abs (x - x'))%float then mret false else
  y ← get_y this; y' ← get_y other;
  if (threshold <? Math_abs (y - y'))%float then mret false else
  z ← get_z this; z' ← get_z other;
  if (threshold <? Math_abs (z - z'))%float then mret false else
  mret true.

Definition squaredLength (this : loc) : M number :=
  x ← get_x this; y ← get_y this; z ← get_z this;
  mret (x * x + y * y + z * z)%float.

Definition length (this : loc) : M number :=
  s ← squaredLength this; mret (Math_sqrt s).

Definition add (this vector : loc) (dest : option loc) : M loc :=
  dest ← or_else dest (mret this);
  x ← get_x this; x2 ← get_x vector; set_x dest (x + x2)%float;;
  y ← get_y this; y2 ← get_y vector; set_y dest (y + y2)%float;;
  z ← get_z this; z2 ← get_z vector; set_z dest (z + z2)%float;;
  mret dest.

Definition subtract (this vector : loc) (dest : option loc) : M loc :=
  dest ← or_else dest (mret this);
  x ← get_x this; x2 ← get_x vector; set_x dest (x - x2)%float;;
  y ← get_y this; y2 ← get_y vector; set_y dest (y - y2)%float;;
  z ← get_z this; z2 ← get_z vector; set_z dest (z - z2)%float;;
  mret dest.

Definition multiply (this vector : loc) (dest : option loc) : M loc :=
  dest ← or_else dest (mret this);
  x ← get_x this; x2 ← get_x vector; set_x dest (x * x2)%float;;
  y ← get_y this; y2 ← get_y vector; set_y dest (y * y2)%float;;
  z ← get_z this; z2 ← get_z vector; set_z dest (z * z2)%float;;
  mret dest.

Definition divide (this vector : loc) (dest : option loc) : M loc :=
  dest ← or_else dest (mret this);
  x ← get_x this; x2 ← get_x vector; set_x dest (x / x2)%float;;
  y ← get_y this; y2 ← get_y vector; set_y dest (y / y2)%float;;
  z ← get_z this; z2 ← get_z vector; set_z dest (z / z2)%float;;
  mret dest.

Definition scale (this : loc) (value : number) (dest : option loc) : M loc :=
  dest ← or_else dest (mret this);
  x ← get_x this; set_x dest (x * value)%float;;
  y ← get_y this; set_y dest (y * value)%float;;
  z ← get_z this; set_z dest (z * value)%float;;
  mret dest.

Definition normalize (this : loc) (dest : option loc) : M loc :=
  dest ← or_else dest (mret this);
  vs ← get_xyz this; set_xyz dest vs;;
  length ← length dest;
  if (length =? 1)%float then mret dest
  else if (length =? 0)%float then reset dest;; mret dest
  else
    let length := (1.0 / length)%float in
    x ← get_x dest; set_x dest (x * length)%float;;
    y ← get_y dest; set_y dest (y * length)%float;;
    z ← get_z dest; set_z dest (z * length)%float;;
    mret dest.

End Vector3.

(** ** [vector2.ts] *)

Module Vector2.

(** Getters [x], [y], [xy]. *)
Definition get_x (this : loc) : M number := getv this 0.
Definition get_y (this : loc) : M number := getv this 1.
Definition get_xy (this : loc) : M (list number) :=
  v0 ← getv this 0; v1 ← getv this 1; mret [v0; v1].

(** Setters [x], [y], [xy]. *)
Definition set_x (this : loc) (value : number) : M unit := setv this 0 value.
Definition set_y (this : loc) (value : number) : M unit := setv this 1 value.
Definition set_xy (this : loc) (values : list number) : M unit :=
  setv this 0 (index values 0);;
  setv this 1 (index values 1).

(** [constructor(values?: number[])]; an array is truthy whatever its
    length. *)
Definition new (values : option (list number)) : M loc :=
  this ← alloc 2;
  match values with
  | Some vs => set_xy this vs
  | None => set_xy this [0; 0]%float
  end;;
  mret this.

Definition zero : M loc := new (Some [0; 0]%float).

Definition cross (vector vector2 : loc) (dest : option loc) : M loc :=
  dest ← or_else dest (Vector3.new Undefined None None);
  x ← get_x vector; y ← get_y vector;
  x2 ← get_x vector2; y2 ← get_y vector2;
  let z := (x * y2 - y * x2)%float in
  Vector3.set_xyz dest [0%float; 0%float; z];;
  mret dest.

Definition dot (vector vector2 : loc) : M number :=
  x ← get_x vector; x2 ← get_x vector2;
  y ← get_y vector; y2 ← get_y vector2;
  mret (x * x2 + y * y2)%float.

Definition squaredDistance (vector vector2 : loc) : M number :=
  x2 ← get_x vector2; x1 ← get_x vector; let x := (x2 - x1)%float in
  y2 ← get_y vector2; y1 ← get_y vector; let y := (y2 - y1)%float in
  mret (x * x + y * y)%float.

Definition distance (vector vector2 : loc) : M number :=
  d ← squaredDistance vector vector2; mret (Math_sqrt d).

Definition reset (this : loc) : M unit :=
  set_x this 0%float;; set_y this 0%float.

Definition direction (vector vector2 : loc) (dest : option loc) : M loc :=
  dest ← or_else dest (new None);
  x1 ← get_x vector; x2 ← get_x vector2; let x := (x1 - x2)%float in
  y1 ← get_y vector; y2 ← get_y vector2; let y := (y1 - y2)%float in
  let length := Math_sqrt (x * x + y * y)%float in
  if (length =? 0)%float then reset dest;; mret dest
  else
    let length := (1.0 / length)%float in
    set_x dest (x * length)%float;;
    set_y dest (y * length)%float;;
    mret dest.

Definition lerp (a b : loc) (t : number) (dest : option loc) : M loc :=
  dest ← or_else dest (new None);
  ax ← get_x a; bx ← get_x b; ax' ← get_x a;
  set_x dest (ax + t * (bx - ax'))%float;;
  ay ← get_y a; by' ← get_y b; ay' ← get_y a;
  set_y dest (ay + t * (by' - ay'))%float;;
  mret dest.

Definition sum (vector vector2 : loc) (dest : option loc) : M loc :=
  dest ← or_else dest (new None);
  x ← get_x vector; x2 ← get_x vector2; set_x dest (x + x2)%float;;
  y ← get_y vector; y2 ← get_y vector2; set_y dest (y + y2)%float;;
  mret dest.

Definition difference (vector vector2 : loc) (dest : option loc) : M loc :=
  dest ← or_else dest (new None);
  x ← get_x vector; x2 ← get_x vector2; set_x dest (x - x2)%float;;
  y ← get_y vector; y2 ← get_y vector2; set_y dest (y - y2)%float;;
  mret dest.

Definition product (vector vector2 : loc) (dest : option loc) : M loc :=
  dest ← or_else dest (new None);
  x ← get_x vector; x2 ← get_x vector2; set_x dest (x * x2)%float;;
  y ← get_y vector; y2 ← get_y vector2; set_y dest (y * y2)%float;;
  mret dest.

Definition quotient (vector vector2 : loc) (dest : option loc) : M loc :=
  dest ← or_else dest (new None);
  x ← get_x vector; x2 ← get_x vector2; set_x dest (x / x2)%float;;
  y ← get_y vector; y2 ← get_y vector2; set_y dest (y / y2)%float;;
  mret dest.

Definition at_ (this : loc) (index : nat) : M number := getv this index.

Definition copy (this : loc) (dest : option loc) : M loc :=
  dest ← or_else dest (new None);
  vs ← get_xy this; set_xy dest vs;;
  mret dest.

Definition negate (this : loc) (dest : option loc) : M loc :=
  dest ← or_else dest (mret this);
  x ← get_x this; set_x dest (- x)%float;;
  y ← get_y this; set_y dest (- y)%float;;
  mret dest.

(** [equals(other, threshold = MathHelper.EPSILON)]. *)
Definition equals (this other : loc) (threshold : option number) : M bool :=
  let threshold := default MathHelper.EPSILON threshold in
  x ← get_x this; x' ← get_x other;
  if (threshold <? Math_abs (x - x'))%float then mret false else
  y ← get_y this; y' ← get_y other;
  if (threshold <? Math_abs (y - y'))%float then mret false else
  mret true.

Definition squaredLength (this : loc) : M number :=
  x ← get_x this; y ← get_y this;
  mret (x * x + y * y)%float.

Definition length (this : loc) : M number :=
  s ← squaredLength this; mret (Math_sqrt s).

Definition add (this vector : loc) (dest : option loc) : M loc :=
  dest ← or_else dest (mret this);
  x ← get_x this; x2 ← get_x vector; set_x dest (x + x2)%float;;
  y ← get_y this; y2 ← get_y vector; set_y dest (y + y2)%float;;
  mret dest.

Definition subtract (this vector : loc) (dest : option loc) : M loc :=
  dest ← or_else dest (mret this);
  x ← get_x this; x2 ← get_x vector; set_x dest (x - x2)%float;;
  y ← get_y this; y2 ← get_y vector; set_y dest (y - y2)%float;;
  mret dest.

Definition multiply (this vector : loc) (dest : option loc) : M loc :=
  dest ← or_else dest (mret this);
  x ← get_x this; x2 ← get_x vector; set_x dest (x * x2)%float;;
  y ← get_y this; y2 ← get_y vector; set_y dest (y * y2)%float;;
  mret dest.

Definition divide (this vector : loc) (dest : option loc) : M loc :=
  dest ← or_else dest (mret this);
  x ← get_x this; x2 ← get_x vector; set_x dest (x / x2)%float;;
  y ← get_y this; y2 ← get_y vector; set_y dest (y / y2)%float;;
  mret dest.

Definition scale (this : loc) (value : number) (dest : option loc) : M loc :=
  dest ← or_else dest (mret this);
  x ← get_x this; set_x dest (x * value)%float;;
  y ← get_y this; set_y dest (y * value)%float;;
  mret dest.

Definition normalize (this : loc) (dest : option loc) : M loc :=
  dest ← or_else dest (mret this);
  vs ← get_xy this; set_xy dest vs;;
  length ← length dest;
  if (length =? 1)%float then mret dest
  else if (length =? 0)%float then reset dest;; mret dest
  else
    let length := (1.0 / length)%float in
    x ← get_x dest; set_x dest (x * length)%float;;
    y ← get_y dest; set_y dest (y * length)%float;;
    mret dest.

End Vector2.

(** ** Vocabulary of the specification *)

(** A component-wise operation on two buffers, each result rounded to
    binary32 as the store into the destination does. *)
Definition pointwise (f : number → number → number)
    (va vb : list number) : list number :=
  zip_with (λ x y, fround (f x y)) va vb.

(** The call [c], run in store [h], allocates: it returns an object that did
    not exist in [h], holding [res], and every object of [h] is as it was. *)
Definition allocates (c : M loc) (h : store) (res : list number) : Prop :=
  ∃ r h', c h = Some (r, h') ∧ h !! r = None ∧ h' !! r = Some res ∧
          ∀ o, o ≠ r → h' !! o = h !! o.

(** The call [c], run in store [h], works in place on [o]: it returns [o]
    itself, now holding [res], and every other object is as it was. *)
Definition writes_into (o : loc) (c : M loc) (h : store)
    (res : list number) : Prop :=
  ∃ h', c h = Some (o, h') ∧ h' !! o = Some res ∧
        ∀ o', o' ≠ o → h' !! o' = h !! o'.

(** What a free binary operation does when the destination is omitted: the
    result is a new object, and the operands [a] and [b] keep their
    buffers. *)
Definition free_default (c : M loc) (h : store) (a b : loc)
    (res : list number) : Prop :=
  ∃ r h', c h = Some (r, h') ∧ h !! r = None ∧ h' !! r = Some res ∧
          h' !! a = h !! a ∧ h' !! b = h !! b.

(** What an instance binary operation does when the destination is omitted:
    the result is the receiver [a] itself, holding the result, and an
    argument [b] that is another object keeps its buffer. *)
Definition instance_default (c : M loc) (h : store) (a b : loc)
    (res : list number) : Prop :=
  ∃ h', c h = Some (a, h') ∧ h' !! a = Some res ∧
        (b ≠ a → h' !! b = h !! b).

(** [shl m k] is the mantissa [m] followed by [k] zero bits. *)
Definition shl (m : positive) (k : nat) : positive := Nat.iter k xO m.

(** ** Sample stores *)

(** Two [Vector3] objects, (1, 2, 3) and (4, 5, 6), and two [Vector2]
    objects, (1, 2) and (3, 4). *)
Definition store0 : store :=
  {[ 1%positive := [1; 2; 3]%float; 2%positive := [4; 5; 6]%float;
     3%positive := [1; 2]%float; 4%positive := [3; 4]%float ]}.

(** ** Sample programs *)

(** [Vector2.cross(new Vector2([1, 0]), new Vector2([0, 1])).xyz] *)
Definition cross2_example : M (list number) :=
  v ← Vector2.new (Some [1; 0]%float); w ← Vector2.new (Some [0; 1]%float);
  r ← Vector2.cross v w None; Vector3.get_xyz r.

(** [Vector3.cross(new Vector3(1, 0, 0), new Vector3(0, 1, 0)).xyz] *)
Definition cross3_example : M (list number) :=
  v ← Vector3.new (Num 1) (Some 0%float) (Some 0%float);
  w ← Vector3.new (Num 0) (Some 1%float) (Some 0%float);
  r ← Vector3.cross v w None; Vector3.get_xyz r.

(** ** Tolerances, as the specification words them *)

(** The larger of two numbers. *)
Definition larger (v w : number) : number :=
  if (v <? w)%float then w else v.

(** [|a - b| <= t * max(1, |a|, |b|)]. *)
Definition tolerance_rule (a b t : number) : bool :=
  (abs (a - b) <=? t * larger (larger 1 (abs a)) (abs b))%float.

(** Two components are close at threshold [t] when [|v - w|] is not above
    [t]. *)
Definition close (t v w : number) : bool :=
  negb (t <? abs (v - w))%float.

(** [new Vector2([v, v]).equals(new Vector2([w, w]))] and
    [new Vector3(v, v, v).equals(new Vector3(w, w, w))], at the default
    threshold. *)
Definition equals2_example (v w : number) : M bool :=
  a ← Vector2.new (Some [v; v]); b ← Vector2.new (Some [w; w]);
  Vector2.equals a b None.

Definition equals3_example (v w : number) : M bool :=
  a ← Vector3.new (Num v) (Some v) (Some v);
  b ← Vector3.new (Num w) (Some w) (Some w);
  Vector3.equals a b None.

(** ** Normalisation, as the specification words it *)

(** The length of a tuple of three (two) numbers. *)
Definition norm3 (x y z : number) : number :=
  Math_sqrt (x * x + y * y + z * z)%float.
Definition norm2 (x y : number) : number :=
  Math_sqrt (x * x + y * y)%float.

(** The normalisation of a tuple: the zero tuple at length zero, and
    otherwise every component scaled by [1 / length]. *)
Definition normalized3 (x y z : number) : list number :=
  let len := norm3 x y z in
  if (len =? 0)%float then [0; 0; 0]%float
  else [x * (1 / len); y * (1 / len); z * (1 / len)]%float.
Definition normalized2 (x y : number) : list number :=
  let len := norm2 x y in
  if (len =? 0)%float then [0; 0]%float
  else [x * (1 / len); y * (1 / len)]%float.

(** [Vector3.direction(new Vector3(3, 0, 0), new Vector3(1, 0, 0)).xyz] and
    its [Vector2] counterpart. *)
Definition direction3_example : M (list number) :=
  a ← Vector3.new (Num 3) (Some 0%float) (Some 0%float);
  b ← Vector3.new (Num 1) (Some 0%float) (Some 0%float);
  r ← Vector3.direction a b None; Vector3.get_xyz r.
Definition direction2_example : M (list number) :=
  a ← Vector2.new (Some [3; 0]%float); b ← Vector2.new (Some [1; 0]%float);
  r ← Vector2.direction a b None; Vector2.get_xy r.

(** What [normalize] leaves in the destination for a vector [(x, y, z)]:
    the vector itself at length one, and its normalisation otherwise. *)
Definition normalize3_result (x y z : number) : list number :=
  if (norm3 x y z =? 1)%float then [x; y; z]
  else fround <$> normalized3 x y z.
Definition normalize2_result (x y : number) : list number :=
  if (norm2 x y =? 1)%float then [x; y]
  else fround <$> normalized2 x y.

(** A length that is 1 within [EPSILON]. *)
Definition unit_length (len : number) : bool :=
  (Math_abs (len - 1) <=? MathHelper.EPSILON)%float.

(** [v.normalize().length()] for [v = new Vector3(p1, p2, p3)] and for
    [v = new Vector2([p1, p2])]. *)
Definition normalize3_length (p1 p2 p3 : number) : M number :=
  v ← Vector3.new (Num p1) (Some p2) (Some p3);
  r ← Vector3.normalize v None; Vector3.length r.
Definition normalize2_length (p1 p2 : number) : M number :=
  v ← Vector2.new (Some [p1; p2]);
  r ← Vector2.normalize v None; Vector2.length r.



(** ** Real values of binary floating-point numbers

    The vocabulary of the error analysis of [normalize]: the real number a
    binary64 value stands for, and the classes of values the analysis goes
    through. *)

(** The mantissa [mx], shifted right by [n] digits from the location [lx]
    and rounded to nearest, ties to even. *)
Definition rounded (mx : Z) (lx : location) (n : Z) : Z :=
  let rec := Nat.iter (Z.to_nat n) shr_1 (shr_record_of_loc mx lx) in
  round_nearest_even (shr_m rec) (loc_of_shr_record rec).

(** What rounding returns for the mantissa [m1] at the exponent [e1] of the
    format: the mantissa [2^prec] is renormalised, and an exponent above the
    format overflows. *)
Definition round_result (prec emax : Z) (s : bool) (m1 e1 : Z) : spec_float :=
  (if m1 =? 0 then S754_zero s
   else
     let '(m2, e2) :=
       if m1 =? 2 ^ prec then (2 ^ (prec - 1), e1 + 1) else (m1, e1) in
     if e2 <=? emax - prec then S754_finite s (Z.to_pos m2) e2
     else S754_infinity s)%Z.

Definition pow2 (e : Z) : R := powerRZ 2 e.

(** The real number a finite [spec_float] stands for; zero for the others. *)
Definition SF2R (x : spec_float) : R :=
  match x with
  | S754_finite s m e => (IZR (cond_Zopp s (Zpos m)) * pow2 e)%R
  | _ => 0%R
  end.

Definition B2R (v : number) : R := SF2R (Prim2SF v).

(** A finite number whose mantissa has all of its 53 digits. *)
Definition normal (v : number) : Prop :=
  ∃ s m e, Prim2SF v = S754_finite s m e ∧ Zpos (digits2_pos m) = 53%Z.

Definition sgn (s : bool) : R := if s then (-1)%R else 1%R.

(** A positive normal number. *)
Definition posnormal (v : number) : Prop :=
  ∃ m e, Prim2SF v = S754_finite false m e ∧ Zpos (digits2_pos m) = 53%Z.

(** The number [a] approximates the real [r >= 0] with relative error
    [eps]: both are zero, or [a] is a positive normal number. *)
Definition approx_pos (a : number) (r eps : R) : Prop :=
  (Prim2SF a = S754_zero false ∧ r = 0%R) ∨
  (posnormal a ∧ (0 < r)%R ∧ (Rabs (B2R a - r) <= eps * r)%R).

(** A zero, or a normal number of magnitude between [2^-149] and [2^128]:
    what a finite element of a [Float32Array] is. *)
Definition small_or_zero (v : number) : Prop :=
  (∃ s, Prim2SF v = S754_zero s) ∨
  (normal v ∧ (pow2 (-149) <= Rabs (B2R v) < pow2 128)%R).

(** A finite number that a [Float32Array] holds as it is. *)
Definition finite_f32 (c : number) : Prop := is_f32 c ∧ isFinite c = true.

(** The vector whose components all compare equal to zero. *)
Definition zero_vector (vs : list number) : bool :=
  forallb (λ c, (c =? 0)%float) vs.

(** [v.normalize().length()] for an object [v] of the store. *)
Definition length_after_normalize3 (v : loc) : M number :=
  r ← Vector3.normalize v None; Vector3.length r.
Definition length_after_normalize2 (v : loc) : M number :=
  r ← Vector2.normalize v None; Vector2.length r.

(** Two numbers that are the same, or two zeros of either sign. *)
Definition same_number (u z : number) : Prop :=
  u = z ∨ ∃ s s', Prim2SF u = S754_zero s ∧ Prim2SF z = S754_zero s'.

(** The difference [b - a] is computed without rounding: it is a finite
    number, of the value of [b] minus the value of [a]. *)
Definition exact_sub (a b : number) : Prop :=
  isFinite (b - a) = true ∧ (B2R (b - a) = B2R b - B2R a)%R.




(** ** More of the library *)

(** [get xy] and [set xy] of [Vector3]. *)
Definition Vector3_get_xy (this : loc) : M (list number) :=
  v0 ← getv this 0; v1 ← getv this 1; mret [v0; v1].
Definition Vector3_set_xy (this : loc) (values : list number) : M unit :=
  setv this 0 (index values 0);;
  setv this 1 (index values 1).

(** The angle constants and converters of [MathHelper]; [Math.PI] is the
    binary64 number nearest to pi. *)
Module MathHelper_angles.

Definition PI : number := 0x1.921fb54442d18p+1%float.
Definition degree : number := (PI / 180)%float.
Definition radians : number := (180 / PI)%float.

Definition toRadian (degrees : number) : number := (degrees * degree)%float.
Definition toDegree (radians' : number) : number := (radians' * radians)%float.

End MathHelper_angles.

(** ** Vocabulary of the further properties *)

(** Every component a buffer of the store holds is a binary32 number. *)
Definition well_formed (h : store) : Prop :=
  ∀ o buf, h !! o = Some buf → Forall is_f32 buf.

(** From [h] to [h']: every object is still there with a buffer of the
    same length, and binary32 components stay binary32 components. *)
Definition keeps (h h' : store) : Prop :=
  (∀ o buf, h !! o = Some buf →
            ∃ buf', h' !! o = Some buf' ∧ length buf' = length buf) ∧
  (well_formed h → well_formed h').

(** A computation that keeps the store in shape whenever it returns. *)
Definition preserves {A} (c : M A) : Prop :=
  ∀ h r h', c h = Some (r, h') → keeps h h'.

(** A computation that changes no object, but [w] when there is one. *)
Definition only {A} (w : option loc) (c : M A) : Prop :=
  ∀ h r h' o, c h = Some (r, h') → w ≠ Some o → h' !! o = h !! o.

(** A computation that returns an object that was not there, and changes
    none that was. *)
Definition allocating (c : M loc) : Prop :=
  ∀ h r h', c h = Some (r, h') →
            h !! r = None ∧ ∀ o, o ≠ r → h' !! o = h !! o.

(** What an operation may do to the store: nothing, write into one
    object, or make a new object. *)
Inductive effect :=
| Reads
| Writes (o : loc)
| Allocates.

(** What the destination parameter makes of an operation: a given
    destination is written; without one the operation does [dflt]. *)
Definition effect_of (dest : option loc) (dflt : effect) : effect :=
  match dest with
  | Some d => Writes d
  | None => dflt
  end.

(** The store [h'] differs from [h] by no more than the effect allows: it
    is the same store; or every object but the written one has its buffer;
    or every object that was there has its buffer. *)
Definition respects (e : effect) (h h' : store) : Prop :=
  match e with
  | Reads => h' = h
  | Writes o => ∀ o', o' ≠ o → h' !! o' = h !! o'
  | Allocates => ∀ o', is_Some (h !! o') → h' !! o' = h !! o'
  end.

(** The operations of the two vector classes, each with its effect: the
    free functions make a new object when no destination is given, the
    instance methods write into their receiver. *)
Inductive operation : ∀ {A}, effect → M A → Prop :=
| op3_new p1 p2 p3 : operation Allocates (Vector3.new p1 p2 p3)
| op3_zero : operation Allocates Vector3.zero
| op3_one : operation Allocates Vector3.one
| op3_up : operation Allocates Vector3.up
| op3_down : operation Allocates Vector3.down
| op3_right : operation Allocates Vector3.right
| op3_left : operation Allocates Vector3.left
| op3_forward : operation Allocates Vector3.forward
| op3_backward : operation Allocates Vector3.backward
| op3_get_x v : operation Reads (Vector3.get_x v)
| op3_get_y v : operation Reads (Vector3.get_y v)
| op3_get_z v : operation Reads (Vector3.get_z v)
| op3_get_xy v : operation Reads (Vector3_get_xy v)
| op3_get_xyz v : operation Reads (Vector3.get_xyz v)
| op3_set_x v c : operation (Writes v) (Vector3.set_x v c)
| op3_set_y v c : operation (Writes v) (Vector3.set_y v c)
| op3_set_z v c : operation (Writes v) (Vector3.set_z v c)
| op3_set_xy v cs : operation (Writes v) (Vector3_set_xy v cs)
| op3_set_xyz v cs : operation (Writes v) (Vector3.set_xyz v cs)
| op3_cross a b d : operation (effect_of d Allocates) (Vector3.cross a b d)
| op3_dot a b : operation Reads (Vector3.dot a b)
| op3_squaredDistance a b : operation Reads (Vector3.squaredDistance a b)
| op3_distance a b : operation Reads (Vector3.distance a b)
| op3_direction a b d : operation (effect_of d Allocates) (Vector3.direction a b d)
| op3_lerp a b t d : operation (effect_of d Allocates) (Vector3.lerp a b t d)
| op3_sum a b d : operation (effect_of d Allocates) (Vector3.sum a b d)
| op3_difference a b d : operation (effect_of d Allocates) (Vector3.difference a b d)
| op3_product a b d : operation (effect_of d Allocates) (Vector3.product a b d)
| op3_quotient a b d : operation (effect_of d Allocates) (Vector3.quotient a b d)
| op3_at v i : operation Reads (Vector3.at_ v i)
| op3_reset v : operation (Writes v) (Vector3.reset v)
| op3_copy v d : operation (effect_of d Allocates) (Vector3.copy v d)
| op3_negate v d : operation (effect_of d (Writes v)) (Vector3.negate v d)
| op3_equals v w t : operation Reads (Vector3.equals v w t)
| op3_squaredLength v : operation Reads (Vector3.squaredLength v)
| op3_length v : operation Reads (Vector3.length v)
| op3_add v w d : operation (effect_of d (Writes v)) (Vector3.add v w d)
| op3_subtract v w d : operation (effect_of d (Writes v)) (Vector3.subtract v w d)
| op3_multiply v w d : operation (effect_of d (Writes v)) (Vector3.multiply v w d)
| op3_divide v w d : operation (effect_of d (Writes v)) (Vector3.divide v w d)
| op3_scale v c d : operation (effect_of d (Writes v)) (Vector3.scale v c d)
| op3_normalize v d : operation (effect_of d (Writes v)) (Vector3.normalize v d)
| op2_new vs : operation Allocates (Vector2.new vs)
| op2_zero : operation Allocates Vector2.zero
| op2_get_x v : operation Reads (Vector2.get_x v)
| op2_get_y v : operation Reads (Vector2.get_y v)
| op2_get_xy v : operation Reads (Vector2.get_xy v)
| op2_set_x v c : operation (Writes v) (Vector2.set_x v c)
| op2_set_y v c : operation (Writes v) (Vector2.set_y v c)
| op2_set_xy v cs : operation (Writes v) (Vector2.set_xy v cs)
| op2_cross a b d : operation (effect_of d Allocates) (Vector2.cross a b d)
| op2_dot a b : operation Reads (Vector2.dot a b)
| op2_squaredDistance a b : operation Reads (Vector2.squaredDistance a b)
| op2_distance a b : operation Reads (Vector2.distance a b)
| op2_direction a b d : operation (effect_of d Allocates) (Vector2.direction a b d)
| op2_lerp a b t d : operation (effect_of d Allocates) (Vector2.lerp a b t d)
| op2_sum a b d : operation (effect_of d Allocates) (Vector2.sum a b d)
| op2_difference a b d : operation (effect_of d Allocates) (Vector2.difference a b d)
| op2_product a b d : operation (effect_of d Allocates) (Vector2.product a b d)
| op2_quotient a b d : operation (effect_of d Allocates) (Vector2.quotient a b d)
| op2_at v i : operation Reads (Vector2.at_ v i)
| op2_reset v : operation (Writes v) (Vector2.reset v)
| op2_copy v d : operation (effect_of d Allocates) (Vector2.copy v d)
| op2_negate v d : operation (effect_of d (Writes v)) (Vector2.negate v d)
| op2_equals v w t : operation Reads (Vector2.equals v w t)
| op2_squaredLength v : operation Reads (Vector2.squaredLength v)
| op2_length v : operation Reads (Vector2.length v)
| op2_add v w d : operation (effect_of d (Writes v)) (Vector2.add v w d)
| op2_subtract v w d : operation (effect_of d (Writes v)) (Vector2.subtract v w d)
| op2_multiply v w d : operation (effect_of d (Writes v)) (Vector2.multiply v w d)
| op2_divide v w d : operation (effect_of d (Writes v)) (Vector2.divide v w d)
| op2_scale v c d : operation (effect_of d (Writes v)) (Vector2.scale v c d)
| op2_normalize v d : operation (effect_of d (Writes v)) (Vector2.normalize v d).

(** Two numbers that are opposite: [u === -w], or both are NaN. *)
Definition opposite (u w : number) : Prop :=
  (u =? - w)%float = true ∨ (is_nan u = true ∧ is_nan w = true).

(** A number minus itself: [0] for a finite number, NaN for the others. *)
Definition minus_itself (c : number) : number :=
  if isFinite c then 0%float else nan.

(** A number over [0]: NaN for a zero or NaN, and otherwise the infinity
    of its sign. *)
Definition over_zero (c : number) : number :=
  if is_nan c || is_zero c then nan
  else if (c <? 0)%float then neg_infinity else infinity.

(** ** Further sample programs *)

(** [Vector3.direction(v, v).xyz] for [v = new Vector3(p1, p2, p3)], and
    its [Vector2] counterpart. *)
Definition direction3_self (p1 p2 p3 : number) : M (list number) :=
  v ← Vector3.new (Num p1) (Some p2) (Some p3);
  r ← Vector3.direction v v None; Vector3.get_xyz r.
Definition direction2_self (p1 p2 : number) : M (list number) :=
  v ← Vector2.new (Some [p1; p2]);
  r ← Vector2.direction v v None; Vector2.get_xy r.

(** [Vector2.cross(new Vector2([1, 0]), new Vector2([0, 1]), d).xyz] for
    the destination [d = new Vector3(7, 8, 9)]. *)
Definition cross2_into_example : M (list number) :=
  d ← Vector3.new (Num 7) (Some 8%float) (Some 9%float);
  v ← Vector2.new (Some [1; 0]%float); w ← Vector2.new (Some [0; 1]%float);
  r ← Vector2.cross v w (Some d); Vector3.get_xyz r.

(** [new Vector2(vs).equals(new Vector2(ws))], at the default threshold. *)
Definition equals2_arrays (vs ws : list number) : M bool :=
  a ← Vector2.new (Some vs); b ← Vector2.new (Some ws);
  Vector2.equals a b None.


(** * Properties *)

(** ** Running computations in a store *)

Lemma getv_run (h : store) o buf i :
  h !! o = Some buf → getv o i h = Some (index buf i, h).
Proof. intros E. unfold getv. by rewrite E. Qed.

Lemma setv_run (h : store) o buf i v :
  h !! o = Some buf →
  setv o i v h = Some ((), <[o := <[i := fround v]> buf]> h).
Proof. intros E. unfold setv. by rewrite E. Qed.

Lemma alloc_run (h : store) n :
  alloc n h = Some (fresh (dom h), <[fresh (dom h) := replicate n 0%float]> h).
Proof. reflexivity. Qed.

Lemma fresh_None (h : store) : h !! fresh (dom h) = None.
Proof. apply not_elem_of_dom, is_fresh. Qed.

Lemma fresh_ne (h : store) o buf : h !! o = Some buf → o ≠ fresh (dom h).
Proof. intros E ->. by rewrite fresh_None in E. Qed.

Lemma fround_0 : fround 0%float = 0%float.
Proof. reflexivity. Qed.

Lemma or0_nan : or0 nan = 0%float.
Proof. reflexivity. Qed.

(** Two facts about one object name the same buffer. *)
Ltac unalias :=
  repeat match goal with
  | H1 : ?h !! ?o = Some _, H2 : ?h !! ?o = Some _ |- _ =>
      rewrite H1 in H2; simplify_eq
  end.

(** Looking an object up in a store built by updates. *)
Ltac lk :=
  repeat first [ rewrite lookup_insert_eq
               | rewrite lookup_insert_ne by (done || congruence) ];
  first [ reflexivity | eassumption ].

Ltac run1 :=
  match goal with
  | |- context [ getv ?o ?i ?h ] => erewrite (getv_run h o _ i) by lk
  | |- context [ setv ?o ?i ?v ?h ] => erewrite (setv_run h o _ i v) by lk
  | |- context [ alloc ?n ?h ] => rewrite (alloc_run h n)
  end.

Ltac run :=
  unfold or_else, mbind, mret, M_bind, M_ret; cbn beta iota;
  repeat (run1; unfold index; simpl);
  rewrite ?insert_insert_eq, ?or0_nan, ?fround_0.

(** Every aliasing pattern between a destination and two operands. *)
Ltac aliasing d a b :=
  destruct (decide (d = a)); destruct (decide (d = b));
  destruct (decide (a = b)); simplify_eq; unalias.

Lemma allocates_intro (c : M loc) (h : store) r res :
  h !! r = None → c h = Some (r, <[r := res]> h) → allocates c h res.
Proof.
  intros Hr E. exists r, (<[r := res]> h). split_and!; [done..| |].
  - apply lookup_insert_eq.
  - intros o Ho. by apply lookup_insert_ne.
Qed.

Lemma writes_into_intro o (c : M loc) (h : store) res :
  c h = Some (o, <[o := res]> h) → writes_into o c h res.
Proof.
  intros E. exists (<[o := res]> h). split_and!; [done| |].
  - apply lookup_insert_eq.
  - intros o' Ho. by apply lookup_insert_ne.
Qed.

(** An allocating call leaves every object of the store as it was. *)
Lemma allocates_frame (c : M loc) (h : store) res o buf :
  allocates c h res → h !! o = Some buf →
  ∃ r h', c h = Some (r, h') ∧ r ≠ o ∧ h' !! o = Some buf.
Proof.
  intros (r & h' & E & Hr & _ & Hf) Ho. exists r, h'.
  assert (o ≠ r) by (intros ->; by rewrite Hr in Ho).
  split_and!; [done|done|]. by rewrite Hf.
Qed.

(** *** Constructors without argument *)

Lemma Vector3_new_run (h : store) :
  Vector3.new Undefined None None h
  = Some (fresh (dom h), <[fresh (dom h) := [0; 0; 0]%float]> h).
Proof. unfold Vector3.new, Vector3.set_xyz. by run. Qed.

Lemma Vector2_new_run (h : store) :
  Vector2.new None h
  = Some (fresh (dom h), <[fresh (dom h) := [0; 0]%float]> h).
Proof. unfold Vector2.new, Vector2.set_xy. by run. Qed.

Ltac unfold3 :=
  unfold Vector3.get_x, Vector3.get_y, Vector3.get_z, Vector3.get_xyz,
    Vector3.set_x, Vector3.set_y, Vector3.set_z, Vector3.set_xyz, pointwise.

Ltac unfold2 :=
  unfold Vector2.get_x, Vector2.get_y, Vector2.get_xy,
    Vector2.set_x, Vector2.set_y, Vector2.set_xy, pointwise.

(** *** The binary operations of [Vector3] *)

Section Vector3_binary.
Context (h : store) (a b : loc) (ax ay az bx by' bz : number).
Hypothesis Ha : h !! a = Some [ax; ay; az].
Hypothesis Hb : h !! b = Some [bx; by'; bz].

Local Ltac free_new :=
  eapply allocates_intro; [apply fresh_None|];
  unfold3; unfold mbind, M_bind, or_else; rewrite Vector3_new_run;
  pose proof (fresh_ne _ _ _ Ha); pose proof (fresh_ne _ _ _ Hb);
  by run.

Local Ltac in_place :=
  apply writes_into_intro; unfold3;
  destruct (decide (a = b)); simplify_eq; unalias; by run.

Lemma Vector3_sum_new :
  allocates (Vector3.sum a b None) h
    (pointwise PrimFloat.add [ax; ay; az] [bx; by'; bz]).
Proof. unfold Vector3.sum. free_new. Qed.

Lemma Vector3_difference_new :
  allocates (Vector3.difference a b None) h
    (pointwise PrimFloat.sub [ax; ay; az] [bx; by'; bz]).
Proof. unfold Vector3.difference. free_new. Qed.

Lemma Vector3_product_new :
  allocates (Vector3.product a b None) h
    (pointwise PrimFloat.mul [ax; ay; az] [bx; by'; bz]).
Proof. unfold Vector3.product. free_new. Qed.

Lemma Vector3_quotient_new :
  allocates (Vector3.quotient a b None) h
    (pointwise PrimFloat.div [ax; ay; az] [bx; by'; bz]).
Proof. unfold Vector3.quotient. free_new. Qed.

Lemma Vector3_add_self :
  writes_into a (Vector3.add a b None) h
    (pointwise PrimFloat.add [ax; ay; az] [bx; by'; bz]).
Proof. unfold Vector3.add. in_place. Qed.

Lemma Vector3_subtract_self :
  writes_into a (Vector3.subtract a b None) h
    (pointwise PrimFloat.sub [ax; ay; az] [bx; by'; bz]).
Proof. unfold Vector3.subtract. in_place. Qed.

Lemma Vector3_multiply_self :
  writes_into a (Vector3.multiply a b None) h
    (pointwise PrimFloat.mul [ax; ay; az] [bx; by'; bz]).
Proof. unfold Vector3.multiply. in_place. Qed.

Lemma Vector3_divide_self :
  writes_into a (Vector3.divide a b None) h
    (pointwise PrimFloat.div [ax; ay; az] [bx; by'; bz]).
Proof. unfold Vector3.divide. in_place. Qed.

(** With an explicit destination, whatever it aliases. *)
Lemma Vector3_add_into d dx dy dz :
  h !! d = Some [dx; dy; dz] →
  writes_into d (Vector3.add a b (Some d)) h
    (pointwise PrimFloat.add [ax; ay; az] [bx; by'; bz]).
Proof.
  intros Hd. apply writes_into_intro. unfold Vector3.add. unfold3.
  aliasing d a b; by run.
Qed.
End Vector3_binary.

(** *** The binary operations of [Vector2] *)

Section Vector2_binary.
Context (h : store) (a b : loc) (ax ay bx by' : number).
Hypothesis Ha : h !! a = Some [ax; ay].
Hypothesis Hb : h !! b = Some [bx; by'].

Local Ltac free_new :=
  eapply allocates_intro; [apply fresh_None|];
  unfold2; unfold mbind, M_bind, or_else; rewrite Vector2_new_run;
  pose proof (fresh_ne _ _ _ Ha); pose proof (fresh_ne _ _ _ Hb);
  by run.

Local Ltac in_place :=
  apply writes_into_intro; unfold2;
  destruct (decide (a = b)); simplify_eq; unalias; by run.

Lemma Vector2_sum_new :
  allocates (Vector2.sum a b None) h
    (pointwise PrimFloat.add [ax; ay] [bx; by']).
Proof. unfold Vector2.sum. free_new. Qed.

Lemma Vector2_difference_new :
  allocates (Vector2.difference a b None) h
    (pointwise PrimFloat.sub [ax; ay] [bx; by']).
Proof. unfold Vector2.difference. free_new. Qed.

Lemma Vector2_product_new :
  allocates (Vector2.product a b None) h
    (pointwise PrimFloat.mul [ax; ay] [bx; by']).
Proof. unfold Vector2.product. free_new. Qed.

Lemma Vector2_quotient_new :
  allocates (Vector2.quotient a b None) h
    (pointwise PrimFloat.div [ax; ay] [bx; by']).
Proof. unfold Vector2.quotient. free_new. Qed.

Lemma Vector2_add_self :
  writes_into a (Vector2.add a b None) h
    (pointwise PrimFloat.add [ax; ay] [bx; by']).
Proof. unfold Vector2.add. in_place. Qed.

Lemma Vector2_subtract_self :
  writes_into a (Vector2.subtract a b None) h
    (pointwise PrimFloat.sub [ax; ay] [bx; by']).
Proof. unfold Vector2.subtract. in_place. Qed.

Lemma Vector2_multiply_self :
  writes_into a (Vector2.multiply a b None) h
    (pointwise PrimFloat.mul [ax; ay] [bx; by']).
Proof. unfold Vector2.multiply. in_place. Qed.

Lemma Vector2_divide_self :
  writes_into a (Vector2.divide a b None) h
    (pointwise PrimFloat.div [ax; ay] [bx; by']).
Proof. unfold Vector2.divide. in_place. Qed.

Lemma Vector2_add_into d dx dy :
  h !! d = Some [dx; dy] →
  writes_into d (Vector2.add a b (Some d)) h
    (pointwise PrimFloat.add [ax; ay] [bx; by']).
Proof.
  intros Hd. apply writes_into_intro. unfold Vector2.add. unfold2.
  aliasing d a b; by run.
Qed.
End Vector2_binary.

(** ** Facts on binary64 arithmetic *)

Lemma iter_pos_nat {A} (f : A → A) p x :
  SpecFloat.iter_pos f p x = Nat.iter (Pos.to_nat p) f x.
Proof.
  revert x. induction p as [p IH|p IH|]; intros x.
  - rewrite Pos2Nat.inj_xI. cbn [SpecFloat.iter_pos]. rewrite !IH.
    replace (S (2 * Pos.to_nat p)) with (Pos.to_nat p + S (Pos.to_nat p))%nat by lia.
    rewrite Nat.iter_add. f_equal. by rewrite Nat.iter_succ_r.
  - rewrite Pos2Nat.inj_xO. cbn [SpecFloat.iter_pos]. rewrite !IH.
    replace (2 * Pos.to_nat p)%nat with (Pos.to_nat p + Pos.to_nat p)%nat by lia.
    by rewrite Nat.iter_add.
  - reflexivity.
Qed.

Lemma shl_mul m k : shl m k = (m * shl 1 k)%positive.
Proof.
  induction k as [|k IH]; simpl.
  - by rewrite Pos.mul_1_r.
  - unfold shl in *. simpl. rewrite IH. by rewrite Pos.mul_xO_r.
Qed.

Lemma digits2_shl m k :
  Zpos (digits2_pos (shl m k)) = (Zpos (digits2_pos m) + Z.of_nat k)%Z.
Proof.
  induction k as [|k IH].
  - simpl. lia.
  - unfold shl in *. change (Nat.iter (S k) xO m) with (xO (Nat.iter k xO m)).
    cbn [digits2_pos]. rewrite Pos2Z.inj_succ, IH. lia.
Qed.

(** Shifting out the zero bits is exact. *)
Lemma shr_shl m k :
  Nat.iter k shr_1 {| shr_m := Zpos (shl m k); shr_r := false; shr_s := false |}
  = {| shr_m := Zpos m; shr_r := false; shr_s := false |}.
Proof.
  induction k as [|k IH]; [done|].
  rewrite Nat.iter_succ_r. unfold shl in *.
  change (Nat.iter (S k) xO m) with (xO (Nat.iter k xO m)).
  cbn [shr_1 orb]. exact IH.
Qed.

Lemma shr_nat mrs e n :
  shr mrs e n = (Nat.iter (Z.to_nat n) shr_1 mrs, (e + Z.max 0 n)%Z).
Proof.
  destruct n as [|p|p]; simpl.
  - f_equal. lia.
  - rewrite iter_pos_nat. f_equal. 
  - f_equal. lia.
Qed.

(** Rounding depends on the value only: trailing zeros of the mantissa can
    be moved into the exponent. *)
Lemma binary_round_aux_shl prec emax s m e k :
  (e ≤ fexp prec emax (Zpos (digits2_pos m) + e))%Z →
  binary_round_aux prec emax s (Zpos (shl m k)) (e - Z.of_nat k) loc_Exact
  = binary_round_aux prec emax s (Zpos m) e loc_Exact.
Proof.
  intros Hn. unfold binary_round_aux.
  assert (shr_fexp prec emax (Zpos (shl m k)) (e - Z.of_nat k) loc_Exact
          = shr_fexp prec emax (Zpos m) e loc_Exact) as ->; [|done].
  unfold shr_fexp, Zdigits2, shr_record_of_loc. rewrite digits2_shl, !shr_nat.
  replace (Zpos (digits2_pos m) + Z.of_nat k + (e - Z.of_nat k))%Z
    with (Zpos (digits2_pos m) + e)%Z by lia.
  set (F := fexp prec emax (Zpos (digits2_pos m) + e)) in *.
  replace (Z.to_nat (F - (e - Z.of_nat k))) with (Z.to_nat (F - e) + k)%nat by lia.
  rewrite Nat.iter_add, shr_shl. f_equal. lia.
Qed.

(** Rounding a number that is already in the format returns it. *)
Lemma binary_round_aux_canonical prec emax s m e :
  bounded prec emax m e = true →
  binary_round_aux prec emax s (Zpos m) e loc_Exact = S754_finite s m e.
Proof.
  unfold bounded, canonical_mantissa. intros [Hc He]%andb_true_iff.
  apply Z.eqb_eq in Hc. unfold binary_round_aux, shr_fexp, Zdigits2.
  rewrite Hc, Z.sub_diag. simpl. rewrite Hc, Z.sub_diag. simpl.
  by rewrite He.
Qed.

Lemma valid_canonical m e :
  valid_binary (S754_finite false m e) = true →
  fexp prec emax (Zpos (digits2_pos m) + e) = e.
Proof.
  unfold SpecFloat.valid_binary, bounded, canonical_mantissa.
  intros [Hc _]%andb_true_iff. by apply Z.eqb_eq in Hc.
Qed.

(** Multiplying by one is exact. *)
Lemma mul_1_r (t : number) : (t * 1)%float = t.
Proof.
  apply Prim2SF_inj. rewrite mul_spec.
  change (Prim2SF 1) with (S754_finite false (shl 1 52) (-52)).
  pose proof (Prim2SF_valid t) as Hv.
  destruct (Prim2SF t) as [s|s| |s m e]; unfold SF64mul, SFmul;
    rewrite ?xorb_false_r; try done.
  rewrite <- shl_mul.
  change (e + -52)%Z with (e - Z.of_nat 52)%Z.
  rewrite binary_round_aux_shl.
  - by apply binary_round_aux_canonical.
  - rewrite (valid_canonical m e); [lia|done].
Qed.

Lemma mul_1_l (t : number) : (1 * t)%float = t.
Proof.
  apply Prim2SF_inj. rewrite mul_spec.
  change (Prim2SF 1) with (S754_finite false (shl 1 52) (-52)).
  pose proof (Prim2SF_valid t) as Hv.
  destruct (Prim2SF t) as [s|s| |s m e]; unfold SF64mul, SFmul;
    rewrite ?xorb_false_l; try done.
  rewrite Pos.mul_comm, <- shl_mul.
  replace (-52 + e)%Z with (e - Z.of_nat 52)%Z by lia.
  rewrite binary_round_aux_shl.
  - by apply binary_round_aux_canonical.
  - rewrite (valid_canonical m e); [lia|done].
Qed.

(** Doubling by addition and by multiplication agree, also when the
    result overflows. *)
Lemma add_diag (x : number) : (x + x)%float = (x * 2)%float.
Proof.
  apply Prim2SF_inj. rewrite add_spec, mul_spec.
  change (Prim2SF 2) with (S754_finite false (shl 1 52) (-51)).
  pose proof (Prim2SF_valid x) as Hv.
  destruct (Prim2SF x) as [s|s| |s m e]; unfold SF64mul, SFmul, SF64add, SFadd;
    rewrite ?xorb_false_r; try done; try by destruct s.
  rewrite <- shl_mul, Z.min_id. unfold shl_align. rewrite Z.sub_diag.
  cbn [fst].
  assert (cond_Zopp s (Zpos m) + cond_Zopp s (Zpos m) = cond_Zopp s (Zpos m~0))%Z
    as -> by (destruct s; cbn [cond_Zopp]; rewrite (Pos2Z.inj_xO m); lia).
  pose proof (valid_canonical m e Hv) as Hc. unfold fexp in Hc.
  assert (binary_normalize prec emax (cond_Zopp s (Zpos m~0)) e false
          = binary_round_aux prec emax s (Zpos m~0) e loc_Exact) as ->.
  { assert (binary_round prec emax s m~0 e
            = binary_round_aux prec emax s (Zpos m~0) e loc_Exact) as E.
    { unfold binary_round, shl_align, fexp. cbn [digits2_pos].
      destruct (_ - e)%Z eqn:E; try done. lia. }
    destruct s; exact E. }
  change (shl m 52) with (shl m~0 51).
  change (e + -51)%Z with (e - Z.of_nat 51)%Z.
  rewrite binary_round_aux_shl; [done|].
  unfold fexp. cbn [digits2_pos]. lia.
Qed.

Lemma isFinite_cases v :
  isFinite v = true →
  (∃ s, Prim2SF v = S754_zero s) ∨ (∃ s m e, Prim2SF v = S754_finite s m e).
Proof.
  unfold isFinite, Prim2SF. intros [Hn Hi]%negb_true_iff%orb_false_iff.
  rewrite Hn, Hi. destruct (is_zero v); [by eauto|].
  destruct (Z.frexp v) as [r ex]. destruct (shr_fexp _ _ _ _ _) as [sr e'].
  destruct (shr_m sr); eauto.
Qed.

(** A finite number minus itself is [+0]. *)
Lemma sub_diag (v : number) : isFinite v = true → (v - v)%float = 0%float.
Proof.
  intros Hf. apply Prim2SF_inj. rewrite sub_spec.
  change (Prim2SF 0) with (S754_zero false).
  destruct (isFinite_cases v Hf) as [[s ->]|(s & m & e & ->)].
  - by destruct s.
  - unfold SF64sub, SFsub. by rewrite Z.sub_diag.
Qed.
(** *** Comparisons *)

Lemma SFcompare_antisym x y :
  SFcompare y x = CompOpp <$> SFcompare x y.
Proof.
  destruct x as [s|s| |s m e], y as [s'|s'| |s' m' e']; simpl;
    try done; try (by destruct s); try (by destruct s');
    try (by destruct s, s').
  destruct s, s'; try done; simpl; f_equal;
    rewrite (Z.compare_antisym e' e); destruct (e' ?= e)%Z; simpl; try done;
    change (Pos.compare_cont Eq m' m) with (Pos.compare m' m);
    change (Pos.compare_cont Eq m m') with (Pos.compare m m');
    rewrite (Pos.compare_antisym m m'); by rewrite ?CompOpp_involutive.
Qed.

Lemma SFcompare_Eq x y :
  SFcompare x y = Some Eq →
  x = y ∨ ∃ s s', x = S754_zero s ∧ y = S754_zero s'.
Proof.
  destruct x as [s|s| |s m e], y as [s'|s'| |s' m' e']; simpl;
    try done; try (by destruct s); try (by destruct s');
    try (by destruct s, s'; (done || left)); [by eauto|].
  destruct s, s'; try done; destruct (e ?= e')%Z eqn:Ee; try done;
    apply Z.compare_eq in Ee as ->; intros [=E]; left; f_equal.
  - destruct (Pos.compare_cont Eq m m') eqn:Em; try done.
    by apply Pos.compare_eq in Em.
  - by apply Pos.compare_eq in E.
Qed.

Lemma is_nan_spec v :
  is_nan v = match Prim2SF v with S754_nan => true | _ => false end.
Proof.
  unfold is_nan. rewrite FloatAxioms.eqb_spec. unfold SFeqb.
  destruct (Prim2SF v) as [s|s| |s m e]; simpl; try done; try by destruct s.
  destruct s; rewrite (Z.compare_refl e), (Pos.compare_cont_refl m Eq); done.
Qed.

Lemma leb_not_nan v w :
  (v <=? w)%float = true → is_nan v = false ∧ is_nan w = false.
Proof.
  rewrite FloatAxioms.leb_spec, !is_nan_spec. unfold SFleb.
  destruct (Prim2SF v), (Prim2SF w); simpl; done.
Qed.

Lemma leb_not_ltb v w : (v <=? w)%float = true → (w <? v)%float = false.
Proof.
  rewrite FloatAxioms.leb_spec, FloatAxioms.ltb_spec. unfold SFleb, SFltb.
  rewrite (SFcompare_antisym (Prim2SF v) (Prim2SF w)).
  by destruct (SFcompare (Prim2SF v) (Prim2SF w)) as [[]|].
Qed.

Lemma ltb_leb v w : (v <? w)%float = true → (v <=? w)%float = true.
Proof.
  rewrite FloatAxioms.leb_spec, FloatAxioms.ltb_spec. unfold SFleb, SFltb.
  by destruct (SFcompare (Prim2SF v) (Prim2SF w)) as [[]|].
Qed.

Lemma is_zero_spec v :
  is_zero v = match Prim2SF v with S754_zero _ => true | _ => false end.
Proof.
  unfold is_zero. rewrite FloatAxioms.eqb_spec.
  change (Prim2SF zero) with (S754_zero false). unfold SFeqb.
  destruct (Prim2SF v) as [s|s| |s m e]; simpl; try done; by destruct s.
Qed.

(** Two numbers that compare equal are the same number, unless they are
    zeros. *)
Lemma eq_of_leb v w :
  (v <=? w)%float = true → (v <? w)%float = false → is_zero w = false →
  v = w.
Proof.
  rewrite FloatAxioms.leb_spec, FloatAxioms.ltb_spec, is_zero_spec.
  unfold SFleb, SFltb. intros Hle Hlt Hz. apply Prim2SF_inj.
  destruct (SFcompare (Prim2SF v) (Prim2SF w)) as [[]|] eqn:E; try done.
  apply SFcompare_Eq in E as [E|(s & s' & _ & E)]; [done|].
  by rewrite E in Hz.
Qed.

Lemma one_leb_not_zero v : (1 <=? v)%float = true → is_zero v = false.
Proof.
  rewrite FloatAxioms.leb_spec, is_zero_spec.
  change (Prim2SF 1) with (S754_finite false (shl 1 52) (-52)).
  by destruct (Prim2SF v).
Qed.

(** [Math.max] of two numbers is the larger one when neither is NaN and
    the first is at least one. *)
Lemma max2_larger v w :
  (1 <=? v)%float = true → is_nan w = false → max2 v w = larger v w.
Proof.
  intros Hv Hw. unfold max2, larger.
  destruct (leb_not_nan _ _ Hv) as [_ ->]. rewrite Hw. simpl.
  destruct (v <? w)%float eqn:E1; [done|].
  destruct (w <? v)%float eqn:E2; [done|].
  destruct (get_sign v); [|done].
  apply eq_of_leb; [|done|by apply one_leb_not_zero].
  (* neither is below the other *)
  revert E1 E2 Hw. rewrite !FloatAxioms.ltb_spec, is_nan_spec. unfold SFltb.
  rewrite FloatAxioms.leb_spec. unfold SFleb.
  rewrite (SFcompare_antisym (Prim2SF w) (Prim2SF v)).
  destruct (SFcompare (Prim2SF w) (Prim2SF v)) as [[]|] eqn:E; try done.
  intros _ _ Hn. pose proof (leb_not_nan _ _ Hv) as [_ Hv'].
  rewrite is_nan_spec in Hv'.
  destruct (Prim2SF w), (Prim2SF v); done.
Qed.

Lemma larger_one_ge v :
  is_nan v = false → (1 <=? larger 1 v)%float = true.
Proof.
  intros Hv. unfold larger. destruct (1 <? v)%float eqn:E; [by apply ltb_leb|done].
Qed.

Lemma abs_not_nan v : is_nan v = false → is_nan (abs v) = false.
Proof. rewrite !is_nan_spec, abs_spec. by destruct (Prim2SF v). Qed.

Lemma sub_nan_l v w : is_nan v = true → is_nan (v - w) = true.
Proof.
  rewrite !is_nan_spec, sub_spec. by destruct (Prim2SF v), (Prim2SF w).
Qed.

Lemma sub_nan_r v w : is_nan w = true → is_nan (v - w) = true.
Proof.
  rewrite !is_nan_spec, sub_spec.
  destruct (Prim2SF v) as [[]|[]| |], (Prim2SF w) as [|[]| |]; done.
Qed.

Lemma abs_nan v : is_nan v = true → is_nan (abs v) = true.
Proof. rewrite !is_nan_spec, abs_spec. by destruct (Prim2SF v). Qed.

Lemma nan_leb v w : is_nan v = true → (v <=? w)%float = false.
Proof.
  rewrite is_nan_spec, FloatAxioms.leb_spec. by destruct (Prim2SF v).
Qed.

(** [Math.max(1, |a|, |b|)] is the largest of the three when neither [a] nor
    [b] is NaN. *)
Lemma Math_max_larger a b :
  is_nan a = false → is_nan b = false →
  Math_max [1; Math_abs a; Math_abs b]%float
  = larger (larger 1 (Math_abs a)) (Math_abs b).
Proof.
  intros Ha Hb. unfold Math_max, Math_abs. cbn [foldl].
  change (max2 neg_infinity 1) with 1%float.
  rewrite (max2_larger 1 (abs a)); [|done|by apply abs_not_nan].
  rewrite max2_larger; [done| |by apply abs_not_nan].
  apply larger_one_ge. by apply abs_not_nan.
Qed.

(** ** Destination defaults *)

Lemma free_default_intro (c : M loc) (h : store) a b va vb res :
  h !! a = Some va → h !! b = Some vb →
  allocates c h res → free_default c h a b res.
Proof.
  intros Ha Hb (r & h' & E & Hr & Hres & Hf). exists r, h'.
  split_and!; [done..| |]; apply Hf; intros ->; congruence.
Qed.

Lemma instance_default_intro (c : M loc) (h : store) a b res :
  writes_into a c h res → instance_default c h a b res.
Proof.
  intros (h' & E & Hres & Hf). exists h'. split_and!; [done..|].
  intros Hne. by apply Hf.
Qed.

(** C1. Destination-default asymmetry, for the four binary operations of
    each class.  With the destination omitted, a static operation
    ([sum], [difference], [product], [quotient]) returns an object that did
    not exist before, holding the component-wise result, and the buffers of
    both operands are as before; an instance operation ([add], [subtract],
    [multiply], [divide]) returns the receiver, whose buffer now holds the
    result, and an argument that is a distinct object keeps its buffer. *)
Theorem destination_default_asymmetry
    (h : store) (a b : loc) (ax ay az bx by' bz : number)
    (c d : loc) (cx cy dx dy : number) :
  h !! a = Some [ax; ay; az] → h !! b = Some [bx; by'; bz] →
  h !! c = Some [cx; cy] → h !! d = Some [dx; dy] →
  let va := [ax; ay; az] in let vb := [bx; by'; bz] in
  let vc := [cx; cy] in let vd := [dx; dy] in
  (free_default (Vector3.sum a b None) h a b (pointwise PrimFloat.add va vb) ∧
   free_default (Vector3.difference a b None) h a b (pointwise PrimFloat.sub va vb) ∧
   free_default (Vector3.product a b None) h a b (pointwise PrimFloat.mul va vb) ∧
   free_default (Vector3.quotient a b None) h a b (pointwise PrimFloat.div va vb) ∧
   free_default (Vector2.sum c d None) h c d (pointwise PrimFloat.add vc vd) ∧
   free_default (Vector2.difference c d None) h c d (pointwise PrimFloat.sub vc vd) ∧
   free_default (Vector2.product c d None) h c d (pointwise PrimFloat.mul vc vd) ∧
   free_default (Vector2.quotient c d None) h c d (pointwise PrimFloat.div vc vd)) ∧
  (instance_default (Vector3.add a b None) h a b (pointwise PrimFloat.add va vb) ∧
   instance_default (Vector3.subtract a b None) h a b (pointwise PrimFloat.sub va vb) ∧
   instance_default (Vector3.multiply a b None) h a b (pointwise PrimFloat.mul va vb) ∧
   instance_default (Vector3.divide a b None) h a b (pointwise PrimFloat.div va vb) ∧
   instance_default (Vector2.add c d None) h c d (pointwise PrimFloat.add vc vd) ∧
   instance_default (Vector2.subtract c d None) h c d (pointwise PrimFloat.sub vc vd) ∧
   instance_default (Vector2.multiply c d None) h c d (pointwise PrimFloat.mul vc vd) ∧
   instance_default (Vector2.divide c d None) h c d (pointwise PrimFloat.div vc vd)).
Proof.
  intros Ha Hb Hc Hd va vb vc vd. split.
  - split_and!; eapply free_default_intro; try eassumption.
    + by apply Vector3_sum_new.
    + by apply Vector3_difference_new.
    + by apply Vector3_product_new.
    + by apply Vector3_quotient_new.
    + by apply Vector2_sum_new.
    + by apply Vector2_difference_new.
    + by apply Vector2_product_new.
    + by apply Vector2_quotient_new.
  - split_and!; apply instance_default_intro.
    + by apply Vector3_add_self.
    + by apply Vector3_subtract_self.
    + by apply Vector3_multiply_self.
    + by apply Vector3_divide_self.
    + by apply Vector2_add_self.
    + by apply Vector2_subtract_self.
    + by apply Vector2_multiply_self.
    + by apply Vector2_divide_self.
Qed.

Lemma destination_default_asymmetry_witness :
  free_default (Vector3.sum 1 2 None) store0 1%positive 2%positive [5; 7; 9]%float ∧
  instance_default (Vector3.add 1 2 None) store0 1%positive 2%positive [5; 7; 9]%float ∧
  free_default (Vector2.sum 3 4 None) store0 3%positive 4%positive [4; 6]%float ∧
  instance_default (Vector2.add 3 4 None) store0 3%positive 4%positive [4; 6]%float.
Proof.
  destruct (destination_default_asymmetry store0 1 2 1 2 3 4 5 6 3 4 1 2 3 4 eq_refl eq_refl eq_refl eq_refl)
    as [(S3 & _ & _ & _ & S2 & _) (A3 & _ & _ & _ & A2 & _)].

  split_and!; [exact S3 | exact A3 | exact S2 | exact A2].
Defined.

(** ** Aliased in-place addition *)

Lemma mul_comm (v w : number) : (v * w)%float = (w * v)%float.
Proof.
  apply Prim2SF_inj. rewrite !mul_spec.
  destruct (Prim2SF v) as [s|s| |s m e], (Prim2SF w) as [s'|s'| |s' m' e'];
    unfold SF64mul, SFmul; rewrite 1?xorb_comm; try done.
  by rewrite Pos.mul_comm, Z.add_comm.
Qed.

Lemma add_diag_2 (v : number) : (v + v)%float = (2 * v)%float.
Proof. by rewrite add_diag, mul_comm. Qed.

(** C6. Self-aliased addition.  [a.add(a)] and [a.add(a, a)] return [a],
    whose buffer then holds, per component, the binary32 rounding of the sum
    of the two values that the component had before the call: no write is
    seen by a later read.  That buffer is the vector [2a]: each sum [v + v]
    is the product [2 * v]. *)
Theorem aliased_add_uses_old_values
    (h : store) (a : loc) (ax ay az : number) (c : loc) (cx cy : number) :
  h !! a = Some [ax; ay; az] → h !! c = Some [cx; cy] →
  let twice3 := [fround (ax + ax); fround (ay + ay); fround (az + az)] in
  let twice2 := [fround (cx + cx); fround (cy + cy)] in
  writes_into a (Vector3.add a a None) h twice3 ∧
  writes_into a (Vector3.add a a (Some a)) h twice3 ∧
  twice3 = [fround (2 * ax); fround (2 * ay); fround (2 * az)] ∧
  writes_into c (Vector2.add c c None) h twice2 ∧
  writes_into c (Vector2.add c c (Some c)) h twice2 ∧
  twice2 = [fround (2 * cx); fround (2 * cy)].
Proof.
  intros Ha Hc twice3 twice2. split_and!.
  - by apply Vector3_add_self.
  - by eapply Vector3_add_into.
  - unfold twice3. by rewrite !add_diag_2.
  - by apply Vector2_add_self.
  - by eapply Vector2_add_into.
  - unfold twice2. by rewrite !add_diag_2.
Qed.

Lemma aliased_add_uses_old_values_witness :
  writes_into 1%positive (Vector3.add 1 1 None) store0 [2; 4; 6]%float ∧
  writes_into 3%positive (Vector2.add 3 3 (Some 3%positive)) store0 [2; 4]%float.
Proof.
  destruct (aliased_add_uses_old_values store0 1 1 2 3 3 1 2 eq_refl eq_refl)
    as (A3 & _ & _ & _ & A2 & _).
  split; [exact A3 | exact A2].
Defined.

(** ** Cross products *)

Section Cross.
Context (h : store) (a b : loc).

Lemma Vector2_cross_new x y x2 y2 :
  h !! a = Some [x; y] → h !! b = Some [x2; y2] →
  allocates (Vector2.cross a b None) h
    [0; 0; fround (x * y2 - y * x2)]%float.
Proof.
  intros Ha Hb. eapply allocates_intro; [apply fresh_None|].
  unfold Vector2.cross. unfold2. unfold3.
  unfold mbind, M_bind, or_else. rewrite Vector3_new_run.
  pose proof (fresh_ne _ _ _ Ha); pose proof (fresh_ne _ _ _ Hb).
  by run.
Qed.

Lemma Vector3_cross_new x y z x2 y2 z2 :
  h !! a = Some [x; y; z] → h !! b = Some [x2; y2; z2] →
  allocates (Vector3.cross a b None) h
    [fround (y * z2 - z * y2); fround (z * x2 - x * z2);
     fround (x * y2 - y * x2)]%float.
Proof.
  intros Ha Hb. eapply allocates_intro; [apply fresh_None|].
  unfold Vector3.cross. unfold3.
  unfold mbind, M_bind, or_else. rewrite Vector3_new_run.
  pose proof (fresh_ne _ _ _ Ha); pose proof (fresh_ne _ _ _ Hb).
  by run.
Qed.
End Cross.

(** ** The [Vector3] constructor *)

Lemma Vector3_new_array (h : store) vs p2 p3 :
  allocates (Vector3.new (Arr vs) p2 p3) h
    (fround <$>
      (if (3 <? length vs)%nat then [index vs 0; index vs 1; index vs 2]
       else [or0 (Number (Arr vs)); or0 (Number (of_opt p2));
             or0 (Number (of_opt p3))])).
Proof.
  eapply allocates_intro; [apply fresh_None|].
  unfold Vector3.new, Vector3.set_xyz.
  destruct (3 <? length vs)%nat; by run.
Qed.

Lemma Vector3_new_number (h : store) p1 p2 p3 :
  allocates (Vector3.new (of_opt p1) p2 p3) h
    [fround (or0 (Number (of_opt p1))); fround (or0 (Number (of_opt p2)));
     fround (or0 (Number (of_opt p3)))].
Proof.
  eapply allocates_intro; [apply fresh_None|].
  unfold Vector3.new, Vector3.set_xyz. destruct p1; by run.
Qed.

(** C9. The constructor copies the array only when it has more than three
    elements.  Called with an array, it allocates a vector that holds the
    first three elements when [3 < length], and otherwise, an array of
    exactly three elements included, the values [Number(p) || 0] of its
    three parameters.  So [new Vector3([1, 2, 3, 4])] is (1, 2, 3), while
    [new Vector3([1, 2, 3])] goes through the coercions. *)
Theorem constructor_copies_only_longer_arrays
    (h : store) (vs : list number) (p2 p3 : option number) :
  allocates (Vector3.new (Arr vs) p2 p3) h
    (fround <$>
      (if (3 <? length vs)%nat then [index vs 0; index vs 1; index vs 2]
       else [or0 (Number (Arr vs)); or0 (Number (of_opt p2));
             or0 (Number (of_opt p3))])) ∧
  (length vs = 3%nat →
   allocates (Vector3.new (Arr vs) p2 p3) h
     [fround (or0 (Number (Arr vs))); fround (or0 (Number (of_opt p2)));
      fround (or0 (Number (of_opt p3)))]) ∧
  allocates (Vector3.new (Arr [1; 2; 3; 4]%float) None None) h [1; 2; 3]%float.
Proof.
  split_and!.
  - apply Vector3_new_array.
  - intros Hl. pose proof (Vector3_new_array h vs p2 p3) as Hn.
    by rewrite Hl in Hn.
  - apply (Vector3_new_array h [1; 2; 3; 4]%float None None).
Qed.

Lemma constructor_copies_only_longer_arrays_witness :
  allocates (Vector3.new (Arr [1; 2; 3]%float) (Some 7%float) (Some 8%float))
    ∅ [0; 7; 8]%float.
Proof.
  exact (proj1 (proj2 (constructor_copies_only_longer_arrays
           ∅ [1; 2; 3]%float (Some 7%float) (Some 8%float))) eq_refl).
Defined.

(** C10. An array of two or three numbers makes the zero vector: the
    constructor reads [Number(arr)], which is NaN for an array of several
    elements, and [NaN || 0] is [0]; the other two parameters are absent.
    Hence each constant built from an array of three numbers, [one], [up],
    [down], [right], [left], [forward] and [backward], is a new zero
    vector. *)
Theorem short_array_makes_zero_vector (h : store) (vs : list number) :
  (length vs = 2 ∨ length vs = 3)%nat →
  allocates (Vector3.new (Arr vs) None None) h [0; 0; 0]%float ∧
  allocates Vector3.one h [0; 0; 0]%float ∧
  allocates Vector3.up h [0; 0; 0]%float ∧
  allocates Vector3.down h [0; 0; 0]%float ∧
  allocates Vector3.right h [0; 0; 0]%float ∧
  allocates Vector3.left h [0; 0; 0]%float ∧
  allocates Vector3.forward h [0; 0; 0]%float ∧
  allocates Vector3.backward h [0; 0; 0]%float.
Proof.
  intros Hl.
  assert (∀ ws : list number, (length ws = 2 ∨ length ws = 3)%nat →
            allocates (Vector3.new (Arr ws) None None) h [0; 0; 0]%float) as Hz.
  { intros ws Hw. pose proof (Vector3_new_array h ws None None) as Hn.
    destruct ws as [|x [|y [|z [|w ws]]]]; simpl in Hw; try lia; exact Hn. }
  split_and!; [by apply Hz | apply Hz; simpl; lia ..].
Qed.

Lemma short_array_makes_zero_vector_witness :
  allocates (Vector3.new (Arr [1; 1; 1]%float) None None) ∅ [0; 0; 0]%float.
Proof.
  exact (proj1 (short_array_makes_zero_vector ∅ [1; 1; 1]%float
                  (or_intror eq_refl))).
Defined.

(** ** Tolerant equality *)

(** C5. [MathHelper.equals(a, b, t)] is true exactly when
    [|a - b| <= t * max(1, |a|, |b|)], with [t] defaulting to
    [EPSILON = 0.00001].  The bound is absolute, [t] itself, when both
    magnitudes are at most one, and relative, [t] times the larger
    magnitude, when one of them is above one. *)
Theorem scalar_equals_combined_tolerance (a b t : number) :
  MathHelper.equals a b (Some t) = tolerance_rule a b t ∧
  MathHelper.equals a b None = tolerance_rule a b 0.00001 ∧
  ((abs a <=? 1)%float = true → (abs b <=? 1)%float = true →
   MathHelper.equals a b (Some t) = (abs (a - b) <=? t)%float) ∧
  ((1 <? abs a)%float = true → (abs b <=? abs a)%float = true →
   MathHelper.equals a b (Some t) = (abs (a - b) <=? t * abs a)%float) ∧
  ((1 <? abs b)%float = true → (abs a <=? abs b)%float = true →
   MathHelper.equals a b (Some t) = (abs (a - b) <=? t * abs b)%float).
Proof.
  assert (∀ t', MathHelper.equals a b (Some t') = tolerance_rule a b t') as Hrule.
  { intros t'. unfold MathHelper.equals, tolerance_rule, Math_abs. cbn [default].
    destruct (is_nan a) eqn:Ha.
    { by rewrite !nan_leb by by apply abs_nan, sub_nan_l. }
    destruct (is_nan b) eqn:Hb.
    { by rewrite !nan_leb by by apply abs_nan, sub_nan_r. }
    by rewrite <- Math_max_larger. }
  split_and!.
  - apply Hrule.
  - apply (Hrule 0.00001%float).
  - intros Ha Hb. rewrite Hrule. unfold tolerance_rule, larger.
    rewrite (leb_not_ltb _ _ Ha), (leb_not_ltb _ _ Hb). by rewrite mul_1_r.
  - intros Ha Hb. rewrite Hrule. unfold tolerance_rule, larger.
    by rewrite Ha, (leb_not_ltb _ _ Hb).
  - intros Hb Ha. rewrite Hrule. unfold tolerance_rule, larger.
    destruct (1 <? abs a)%float eqn:E1; [|by rewrite Hb].
    destruct (abs a <? abs b)%float eqn:E2; [done|].
    rewrite (eq_of_leb (abs a) (abs b)); [done..|].
    by apply one_leb_not_zero, ltb_leb.
Qed.

Lemma scalar_equals_combined_tolerance_witness :
  MathHelper.equals 0.5 0.500001 (Some 0.00001%float)
  = (abs (0.5 - 0.500001) <=? 0.00001)%float ∧
  MathHelper.equals 2000000 2000001 (Some 0.00001%float)
  = (abs (2000000 - 2000001) <=? 0.00001 * abs 2000001)%float.
Proof.
  split.
  - exact (proj1 (proj2 (proj2 (scalar_equals_combined_tolerance
             0.5 0.500001 0.00001))) eq_refl eq_refl).
  - exact (proj2 (proj2 (proj2 (proj2 (scalar_equals_combined_tolerance
             2000000 2000001 0.00001)))) eq_refl eq_refl).
Defined.

(** A component is close to itself at the default threshold, whatever it
    is: the difference is zero, or NaN for an infinity or NaN. *)
Lemma close_refl (v : number) : close MathHelper.EPSILON v v = true.
Proof.
  unfold close. apply negb_true_iff.
  rewrite FloatAxioms.ltb_spec, abs_spec, sub_spec.
  change (Prim2SF MathHelper.EPSILON)
    with (S754_finite false 5902958103587057 (-69)).
  destruct (Prim2SF v) as [[]|[]| |s m e]; try done.
  unfold SF64sub, SFsub. by rewrite Z.sub_diag.
Qed.

Section Equals.
Context (h : store) (thr : option number).
Let t := default MathHelper.EPSILON thr.

Lemma Vector3_equals_run a b ax ay az bx by' bz :
  h !! a = Some [ax; ay; az] → h !! b = Some [bx; by'; bz] →
  Vector3.equals a b thr h
  = Some (close t ax bx && close t ay by' && close t az bz, h).
Proof.
  intros Ha Hb. unfold Vector3.equals, close, Math_abs. unfold3. fold t.
  run. destruct (t <? abs (ax - bx))%float; [done|]. 
  run. destruct (t <? abs (ay - by'))%float; [done|]. 
  run. by destruct (t <? abs (az - bz))%float.
Qed.

Lemma Vector2_equals_run a b ax ay bx by' :
  h !! a = Some [ax; ay] → h !! b = Some [bx; by'] →
  Vector2.equals a b thr h = Some (close t ax bx && close t ay by', h).
Proof.
  intros Ha Hb. unfold Vector2.equals, close, Math_abs. unfold2. fold t.
  run. destruct (t <? abs (ax - bx))%float; [done|]. 
  run. by destruct (t <? abs (ay - by'))%float.
Qed.
End Equals.

(** ** Direction *)

Section Direction3.
Context (h : store) (a b : loc) (ax ay az bx by' bz : number).
Hypothesis Ha : h !! a = Some [ax; ay; az].
Hypothesis Hb : h !! b = Some [bx; by'; bz].

Lemma Vector3_direction_new :
  allocates (Vector3.direction a b None) h
    (fround <$> normalized3 (ax - bx) (ay - by') (az - bz)).
Proof.
  eapply allocates_intro; [apply fresh_None|].
  unfold Vector3.direction, normalized3, norm3. unfold3.
  unfold mbind at 1. unfold M_bind at 1. unfold or_else.
  rewrite Vector3_new_run.
  pose proof (fresh_ne _ _ _ Ha); pose proof (fresh_ne _ _ _ Hb).
  run. destruct (_ =? 0)%float; by run.
Qed.

Lemma Vector3_direction_into d dx dy dz :
  h !! d = Some [dx; dy; dz] →
  writes_into d (Vector3.direction a b (Some d)) h
    (fround <$> normalized3 (ax - bx) (ay - by') (az - bz)).
Proof.
  intros Hd. apply writes_into_intro.
  unfold Vector3.direction, normalized3, norm3. unfold3.
  aliasing d a b; run; destruct (_ =? 0)%float; by run.
Qed.
End Direction3.

Section Direction2.
Context (h : store) (a b : loc) (ax ay bx by' : number).
Hypothesis Ha : h !! a = Some [ax; ay].
Hypothesis Hb : h !! b = Some [bx; by'].

Lemma Vector2_direction_new :
  allocates (Vector2.direction a b None) h
    (fround <$> normalized2 (ax - bx) (ay - by')).
Proof.
  eapply allocates_intro; [apply fresh_None|].
  unfold Vector2.direction, Vector2.reset, normalized2, norm2. unfold2.
  unfold mbind at 1. unfold M_bind at 1. unfold or_else.
  rewrite Vector2_new_run.
  pose proof (fresh_ne _ _ _ Ha); pose proof (fresh_ne _ _ _ Hb).
  run. destruct (_ =? 0)%float; by run.
Qed.

Lemma Vector2_direction_into d dx dy :
  h !! d = Some [dx; dy] →
  writes_into d (Vector2.direction a b (Some d)) h
    (fround <$> normalized2 (ax - bx) (ay - by')).
Proof.
  intros Hd. apply writes_into_intro.
  unfold Vector2.direction, Vector2.reset, normalized2, norm2. unfold2.
  aliasing d a b; run; destruct (_ =? 0)%float; by run.
Qed.
End Direction2.

(** The difference of two equal finite tuples has length zero. *)
Lemma normalized3_diag x y z :
  isFinite x = true → isFinite y = true → isFinite z = true →
  normalized3 (x - x) (y - y) (z - z) = [0; 0; 0]%float.
Proof. intros Hx Hy Hz. by rewrite !sub_diag. Qed.

Lemma normalized2_diag x y :
  isFinite x = true → isFinite y = true →
  normalized2 (x - x) (y - y) = [0; 0]%float.
Proof. intros Hx Hy. by rewrite !sub_diag. Qed.

(** ** Normalisation *)

Section Normalize3.
Context (h : store) (this : loc) (x y z : number).
Hypothesis Hthis : h !! this = Some [x; y; z].

Lemma Vector3_normalize_self :
  writes_into this (Vector3.normalize this None) h
    (normalize3_result (fround x) (fround y) (fround z)).
Proof.
  apply writes_into_intro.
  unfold Vector3.normalize, Vector3.length, Vector3.squaredLength,
    Vector3.reset, normalize3_result, normalized3, norm3.
  unfold3. run.
  destruct (_ =? 1)%float; [done|]. destruct (_ =? 0)%float; by run.
Qed.

Lemma Vector3_normalize_into d dx dy dz :
  h !! d = Some [dx; dy; dz] →
  writes_into d (Vector3.normalize this (Some d)) h
    (normalize3_result (fround x) (fround y) (fround z)).
Proof.
  intros Hd. apply writes_into_intro.
  unfold Vector3.normalize, Vector3.length, Vector3.squaredLength,
    Vector3.reset, normalize3_result, normalized3, norm3.
  unfold3. destruct (decide (d = this)); simplify_eq; unalias; run.
  all: destruct (_ =? 1)%float; [done|]; destruct (_ =? 0)%float; by run.
Qed.
End Normalize3.

Section Normalize2.
Context (h : store) (this : loc) (x y : number).
Hypothesis Hthis : h !! this = Some [x; y].

Lemma Vector2_normalize_self :
  writes_into this (Vector2.normalize this None) h
    (normalize2_result (fround x) (fround y)).
Proof.
  apply writes_into_intro.
  unfold Vector2.normalize, Vector2.length, Vector2.squaredLength,
    Vector2.reset, normalize2_result, normalized2, norm2.
  unfold2. run.
  destruct (_ =? 1)%float; [done|]. destruct (_ =? 0)%float; by run.
Qed.

Lemma Vector2_normalize_into d dx dy :
  h !! d = Some [dx; dy] →
  writes_into d (Vector2.normalize this (Some d)) h
    (normalize2_result (fround x) (fround y)).
Proof.
  intros Hd. apply writes_into_intro.
  unfold Vector2.normalize, Vector2.length, Vector2.squaredLength,
    Vector2.reset, normalize2_result, normalized2, norm2.
  unfold2. destruct (decide (d = this)); simplify_eq; unalias; run.
  all: destruct (_ =? 1)%float; [done|]; destruct (_ =? 0)%float; by run.
Qed.
End Normalize2.

(** * Binary64 arithmetic: rounding and its error *)

(** ** Rounding of mantissas *)

Section Rounding.
Local Open Scope Z_scope.

Lemma digits2_bounds m :
  2 ^ (Zpos (digits2_pos m) - 1) ≤ Zpos m < 2 ^ Zpos (digits2_pos m).
Proof.
  induction m as [p IH|p IH|]; cbn [digits2_pos].
  - rewrite Pos2Z.inj_succ, (Pos2Z.inj_xI p).
    replace (Z.succ (Zpos (digits2_pos p)) - 1) with (Z.succ (Zpos (digits2_pos p) - 1)) by lia.
    rewrite !Z.pow_succ_r by lia. lia.
  - rewrite Pos2Z.inj_succ, (Pos2Z.inj_xO p).
    replace (Z.succ (Zpos (digits2_pos p)) - 1) with (Z.succ (Zpos (digits2_pos p) - 1)) by lia.
    rewrite !Z.pow_succ_r by lia. lia.
  - simpl. lia.
Qed.

(** The number of binary digits is determined by the bounds. *)
Lemma digits2_unique m d :
  2 ^ (d - 1) ≤ Zpos m < 2 ^ d → Zpos (digits2_pos m) = d.
Proof.
  intros [Hl Hu]. pose proof (digits2_bounds m) as [Hl' Hu'].
  assert (0 < d) as Hd.
  { destruct (Z.lt_ge_cases 0 d) as [|Hd]; [done|].
    destruct (Z.eq_dec d 0) as [->|]; [simpl in Hu; lia|].
    rewrite (Z.pow_neg_r 2 d) in Hu; lia. }
  destruct (Z.lt_trichotomy (Zpos (digits2_pos m)) d) as [H|[H|H]]; [|done|].
  - assert (2 ^ Zpos (digits2_pos m) ≤ 2 ^ (d - 1)) by (apply Z.pow_le_mono_r; lia). lia.
  - assert (2 ^ d ≤ 2 ^ (Zpos (digits2_pos m) - 1)) by (apply Z.pow_le_mono_r; lia). lia.
Qed.

Lemma shr_1_m mrs : 0 ≤ shr_m mrs → shr_m (shr_1 mrs) = shr_m mrs / 2.
Proof.
  destruct mrs as [[|[p|p|]|p] r s]; cbn [shr_m shr_1]; intros H; try lia;
    try done.
  - apply Z.div_unique with 1; [lia|]. by rewrite (Pos2Z.inj_xI p).
  - apply Z.div_unique with 0; [lia|]. rewrite (Pos2Z.inj_xO p). lia.
Qed.

Lemma shr_iter_m n mrs :
  0 ≤ shr_m mrs → shr_m (Nat.iter n shr_1 mrs) = shr_m mrs / 2 ^ Z.of_nat n.
Proof.
  intros H. induction n as [|n IH].
  - simpl. by rewrite Z.div_1_r.
  - change (Nat.iter (S n) shr_1 mrs) with (shr_1 (Nat.iter n shr_1 mrs)).
    rewrite shr_1_m, IH.
    + rewrite Nat2Z.inj_succ, Z.pow_succ_r by lia.
      rewrite Z.div_div by lia. f_equal. lia.
    + rewrite IH. apply Z.div_pos; lia.
Qed.

Lemma round_nearest_even_bounds q l :
  q ≤ round_nearest_even q l ≤ q + 1.
Proof.
  destruct l as [|[]]; cbn [round_nearest_even]; try lia.
  destruct (Z.even q); lia.
Qed.

Lemma Zdigits2_pow2 k : 0 ≤ k → Zdigits2 (2 ^ k) = k + 1.
Proof.
  intros Hk. assert (0 < 2 ^ k) as Hp by (apply Z.pow_pos_nonneg; lia).
  destruct (2 ^ k) as [|p|p] eqn:E; try lia. cbn [Zdigits2].
  apply digits2_unique. rewrite <- E.
  replace (k + 1 - 1) with k by lia. split; [lia|].
  apply Z.pow_lt_mono_r; lia.
Qed.

Lemma Zdigits2_le m d : 0 < m → m < 2 ^ d → Zdigits2 m ≤ d.
Proof.
  intros Hm Hd. destruct m as [|p|p]; try lia. cbn [Zdigits2].
  pose proof (digits2_bounds p) as [Hl _].
  destruct (Z.le_gt_cases (Zpos (digits2_pos p)) d) as [|H]; [done|].
  assert (2 ^ d ≤ 2 ^ (Zpos (digits2_pos p) - 1)).
  { apply Z.pow_le_mono_r; lia. }
  lia.
Qed.

Lemma binary_round_aux_rounded prec emax s mx ex lx :
  0 < prec → 0 < mx →
  let e1 := fexp prec emax (Zdigits2 mx + ex) in
  ex ≤ e1 →
  let m1 := rounded mx lx (e1 - ex) in
  mx / 2 ^ (e1 - ex) ≤ m1 ≤ mx / 2 ^ (e1 - ex) + 1 ∧ m1 ≤ 2 ^ prec ∧
  binary_round_aux prec emax s mx ex lx = round_result prec emax s m1 e1.
Proof.
  intros Hprec Hmx e1 Hn m1. unfold binary_round_aux.
  unfold rounded in m1.
  set (rec := Nat.iter (Z.to_nat (e1 - ex)) shr_1 (shr_record_of_loc mx lx)) in *.
  assert (shr_fexp prec emax mx ex lx = (rec, e1)) as ->.
  { unfold shr_fexp. fold e1. rewrite shr_nat. fold rec. f_equal. lia. }
  assert (shr_m rec = mx / 2 ^ (e1 - ex)) as Hq.
  { unfold rec. rewrite shr_iter_m.
    - rewrite Z2Nat.id by lia. by destruct lx as [|[]].
    - destruct lx as [|[]]; simpl; lia. }
  set (q := mx / 2 ^ (e1 - ex)) in *.
  pose proof (round_nearest_even_bounds (shr_m rec) (loc_of_shr_record rec)) as Hm1.
  fold m1 in Hm1. rewrite Hq in Hm1.
  assert (0 ≤ q) as Hq0 by (apply Z.div_pos; [lia|apply Z.pow_pos_nonneg; lia]).
  assert (q < 2 ^ prec) as Hqp.
  { destruct mx as [|p|p]; try lia. cbn [Zdigits2] in e1.
    pose proof (digits2_bounds p) as [_ Hu].
    apply Z.div_lt_upper_bound; [apply Z.pow_pos_nonneg; lia|].
    rewrite <- Z.pow_add_r by lia.
    eapply Z.lt_le_trans; [exact Hu|]. apply Z.pow_le_mono_r; [lia|].
    unfold e1, fexp. lia. }
  split; [done|]. split; [lia|].
  fold m1. unfold round_result.
  assert (SpecFloat.emin prec emax ≤ e1) as Hemin by (unfold e1, fexp; lia).
  destruct (Z.eqb_spec m1 0) as [E0|N0].
  { rewrite E0. unfold shr_fexp. rewrite shr_nat. cbn beta iota.
    rewrite shr_iter_m by (simpl; lia). cbn [shr_m].
    rewrite Z.div_0_l; [done|]. apply Z.pow_nonzero; lia. }
  destruct (Z.eqb_spec m1 (2 ^ prec)) as [Ep|Np].
  - rewrite Ep. unfold shr_fexp. rewrite Zdigits2_pow2 by lia.
    replace (fexp prec emax (prec + 1 + e1) - e1) with 1 by (unfold fexp; lia).
    assert (2 ^ prec = 2 * 2 ^ (prec - 1)) as E2.
    { rewrite <- Z.pow_succ_r by lia. f_equal. lia. }
    assert (0 < 2 ^ (prec - 1)) as Hpos by (apply Z.pow_pos_nonneg; lia).
    rewrite E2. destruct (2 ^ (prec - 1)) as [|p|p] eqn:Epp; try lia.
    cbn. done.
  - assert (Zdigits2 m1 ≤ prec) as Hd by (apply Zdigits2_le; lia).
    unfold shr_fexp.
    assert (fexp prec emax (Zdigits2 m1 + e1) - e1 ≤ 0) as Hn2
      by (unfold fexp; lia).
    destruct (fexp prec emax (Zdigits2 m1 + e1) - e1) as [|p|p] eqn:En; try lia.
    + destruct m1 as [|p|p]; try lia. by cbn.
    + destruct m1 as [|p'|p']; try lia. by cbn.
Qed.

Lemma binary_round_aux_spec prec emax s mx ex lx :
  0 < prec → 0 < mx →
  let e1 := fexp prec emax (Zdigits2 mx + ex) in
  ex ≤ e1 →
  ∃ m1, mx / 2 ^ (e1 - ex) ≤ m1 ≤ mx / 2 ^ (e1 - ex) + 1 ∧ m1 ≤ 2 ^ prec ∧
        binary_round_aux prec emax s mx ex lx
        = round_result prec emax s m1 e1.
Proof.
  intros Hprec Hmx e1 Hn. eexists.
  by apply binary_round_aux_rounded.
Qed.

Lemma shl_Z m k : Zpos (shl m k) = Zpos m * 2 ^ Z.of_nat k.
Proof.
  induction k as [|k IH]; [simpl; lia|].
  unfold shl in *. change (Nat.iter (S k) xO m) with (xO (Nat.iter k xO m)).
  rewrite (Pos2Z.inj_xO (Nat.iter k xO m)), IH, Nat2Z.inj_succ, Z.pow_succ_r by lia.
  lia.
Qed.

Lemma pos_iter_shl m d : Pos.iter xO m d = shl m (Pos.to_nat d).
Proof. unfold shl. apply Pos2Nat.inj_iter. Qed.

Lemma shl_align_spec mx ex ex' :
  ∃ k, shl_align mx ex ex' = (shl mx k, ex - Z.of_nat k) ∧
       Z.of_nat k = Z.max 0 (ex - ex').
Proof.
  unfold shl_align. destruct (ex' - ex) as [|d|d] eqn:E.
  - exists 0%nat. split; [|lia]. simpl. f_equal. lia.
  - exists 0%nat. split; [|lia]. simpl. f_equal. lia.
  - exists (Pos.to_nat d). rewrite pos_iter_shl. split; [f_equal|]; lia.
Qed.

Lemma bounded_shl m k e :
  Zpos (digits2_pos m) + Z.of_nat k = 53 → -1074 ≤ e ≤ 971 →
  bounded prec emax (shl m k) e = true.
Proof.
  intros Hd He. unfold bounded, canonical_mantissa. rewrite digits2_shl, Hd.
  apply andb_true_iff. split; [apply Z.eqb_eq|apply Z.leb_le];
    unfold fexp, prec, emax, SpecFloat.emin; lia.
Qed.

(** Reading back a number built from a mantissa of at most 53 digits: the
    mantissa is shifted to 53 digits. *)
Lemma Prim2SF_SF2Prim_shl s m e k :
  Zpos (digits2_pos m) + Z.of_nat k = 53 → -1074 ≤ e - Z.of_nat k ≤ 971 →
  Prim2SF (SF2Prim (S754_finite s m e))
  = S754_finite s (shl m k) (e - Z.of_nat k).
Proof.
  intros Hd He.
  assert (Prim2SF (Z.ldexp (of_uint63 (Uint63Axioms.of_Z (Zpos m))) e)
          = S754_finite false (shl m k) (e - Z.of_nat k)) as E.
  { rewrite Z_ldexp_spec, of_uint63_spec, Uint63.of_Z_spec.
    pose proof (digits2_bounds m) as [_ Hu].
    assert (2 ^ Zpos (digits2_pos m) ≤ 2 ^ 53) by (apply Z.pow_le_mono_r; lia).
    rewrite Z.mod_small by (unfold Uint63.wB, Uint63.size; simpl in *; lia).
    cbn [binary_normalize]. unfold binary_round at 1.
    assert (fexp prec emax (Zpos (digits2_pos m) + 0) = - Z.of_nat k) as ->
      by (unfold fexp, prec, emax, SpecFloat.emin; lia).
    destruct (shl_align_spec m 0 (- Z.of_nat k)) as (k' & -> & Hk').
    assert (k' = k) as -> by lia.
    rewrite binary_round_aux_canonical by (apply bounded_shl; lia).
    cbn [SFldexp]. unfold binary_round. rewrite digits2_shl, Hd.
    assert (fexp prec emax (53 + (0 - Z.of_nat k + e)) = e - Z.of_nat k) as ->
      by (unfold fexp, prec, emax, SpecFloat.emin; lia).
    destruct (shl_align_spec (shl m k) (0 - Z.of_nat k + e) (e - Z.of_nat k))
      as (k'' & -> & Hk'').
    assert (k'' = 0%nat) as -> by lia. cbn [shl Nat.iter].
    replace (0 - Z.of_nat k + e - Z.of_nat 0) with (e - Z.of_nat k) by lia.
    apply binary_round_aux_canonical, bounded_shl; lia. }
  unfold SF2Prim. destruct s; [|done]. by rewrite opp_spec, E.
Qed.

(** *** Rounding to binary32 *)

Lemma valid_le_fexp32 s m e :
  valid_binary (S754_finite s m e) = true →
  e ≤ Z.max (Zpos (digits2_pos m) + e - 24) (-149).
Proof.
  unfold SpecFloat.valid_binary, bounded, canonical_mantissa.
  intros [Hc _]%andb_true_iff. apply Z.eqb_eq in Hc.
  unfold fexp, prec, emax, SpecFloat.emin in Hc. lia.
Qed.

Lemma binary_round32_spec s m e :
  valid_binary (S754_finite s m e) = true →
  let e1 := Z.max (Zpos (digits2_pos m) + e - 24) (-149) in
  ∃ m1, Zpos m / 2 ^ (e1 - e) ≤ m1 ≤ Zpos m / 2 ^ (e1 - e) + 1 ∧
        m1 ≤ 2 ^ 24 ∧
        binary_round prec32 emax32 s m e = round_result 24 128 s m1 e1.
Proof.
  intros Hv e1. pose proof (valid_le_fexp32 s m e Hv) as He. fold e1 in He.
  unfold binary_round.
  assert (fexp prec32 emax32 (Zpos (digits2_pos m) + e) = e1) as E1
    by (unfold fexp, prec32, emax32, SpecFloat.emin, e1; lia).
  rewrite E1. destruct (shl_align_spec m e e1) as (k & -> & Hk).
  assert (k = 0%nat) as -> by lia. cbn [shl Nat.iter].
  replace (e - Z.of_nat 0) with e by lia.
  destruct (binary_round_aux_spec prec32 emax32 s (Zpos m) e loc_Exact)
    as (m1 & Hm1 & Hm1p & Er); [done|done|cbn [Zdigits2]; rewrite E1; lia|].
  cbn [Zdigits2] in Hm1, Er. rewrite E1 in Hm1, Er.
  by exists m1.
Qed.

Lemma Prim2SF_SF2Prim_zero s : Prim2SF (SF2Prim (S754_zero s)) = S754_zero s.
Proof. by destruct s. Qed.

Lemma Prim2SF_SF2Prim_infinity s :
  Prim2SF (SF2Prim (S754_infinity s)) = S754_infinity s.
Proof. by destruct s. Qed.

(** Reading back a binary32 number: a normal binary64 number of the same
    value. *)
Lemma Prim2SF_SF2Prim_32 s m e :
  Zpos m < 2 ^ 24 → -149 ≤ e ≤ 104 →
  ∃ k, Prim2SF (SF2Prim (S754_finite s m e))
       = S754_finite s (shl m k) (e - Z.of_nat k) ∧
       Zpos (digits2_pos m) + Z.of_nat k = 53.
Proof.
  intros Hm He.
  assert (Zpos (digits2_pos m) ≤ 24) as Hd by (apply (Zdigits2_le (Zpos m)); lia).
  exists (Z.to_nat (53 - Zpos (digits2_pos m))).
  split; [|lia]. apply Prim2SF_SF2Prim_shl; lia.
Qed.

(** *** Exact rounding *)

(** Rounding depends on the number only, not on how its mantissa and
    exponent are split. *)
Lemma shl_shl m j k : shl (shl m j) k = shl m (j + k).
Proof. unfold shl. by rewrite Nat.add_comm, Nat.iter_add. Qed.

Lemma binary_round_shl s m e k :
  binary_round prec emax s (shl m k) (e - Z.of_nat k)
  = binary_round prec emax s m e.
Proof.
  unfold binary_round.
  rewrite digits2_shl.
  replace (Zpos (digits2_pos m) + Z.of_nat k + (e - Z.of_nat k))
    with (Zpos (digits2_pos m) + e) by lia.
  set (f := fexp prec emax (Zpos (digits2_pos m) + e)).
  destruct (shl_align_spec (shl m k) (e - Z.of_nat k) f) as (k1 & -> & Hk1).
  destruct (shl_align_spec m e f) as (k2 & -> & Hk2).
  rewrite shl_shl.
  assert (∃ j, (k + k1 = k2 + j)%nat) as [j Ej] by (exists (k + k1 - k2)%nat; lia).
  rewrite Ej, <- shl_shl.
  replace (e - Z.of_nat k - Z.of_nat k1) with (e - Z.of_nat k2 - Z.of_nat j) by lia.
  apply binary_round_aux_shl.
  rewrite digits2_shl.
  replace (Zpos (digits2_pos m) + Z.of_nat k2 + (e - Z.of_nat k2))
    with (Zpos (digits2_pos m) + e) by lia.
  fold f. lia.
Qed.

(** A number that binary64 holds is rounded to itself. *)
Lemma binary_round_canonical s m e :
  bounded prec emax m e = true →
  binary_round prec emax s m e = S754_finite s m e.
Proof.
  intros Hb. unfold binary_round.
  pose proof Hb as [Hc _]%andb_true_iff. apply Z.eqb_eq in Hc.
  rewrite Hc. unfold shl_align. rewrite Z.sub_diag.
  by apply binary_round_aux_canonical.
Qed.

(** *** Rounding and scaling by two *)




(** *** Halving *)




End Rounding.

(** ** Values in the reals *)

Section Values.
Local Open Scope Z_scope.
Local Open Scope R_scope.

(** *** Powers of two *)

Lemma pow2_add a b : pow2 (a + b) = pow2 a * pow2 b.
Proof. unfold pow2. apply powerRZ_add. lra. Qed.

Lemma pow2_pos e : 0 < pow2 e.
Proof. unfold pow2. apply powerRZ_lt. lra. Qed.

Lemma pow2_0 : pow2 0 = 1.
Proof. reflexivity. Qed.

Lemma pow2_1 : pow2 1 = 2.
Proof. unfold pow2. simpl. lra. Qed.

Lemma pow2_IZR e : (0 ≤ e)%Z → IZR (2 ^ e) = pow2 e.
Proof.
  intros He. unfold pow2. rewrite <- (Z2Nat.id e) by done.
  by rewrite <- pow_IZR, pow_powerRZ.
Qed.

Lemma pow2_ge_1 e : (0 ≤ e)%Z → 1 <= pow2 e.
Proof.
  intros He. rewrite <- pow2_IZR by done. apply IZR_le.
  pose proof (Z.pow_pos_nonneg 2 e). lia.
Qed.

Lemma pow2_le a b : (a ≤ b)%Z → pow2 a <= pow2 b.
Proof.
  intros H. replace b with (a + (b - a))%Z by lia. rewrite pow2_add.
  pose proof (pow2_pos a). pose proof (pow2_ge_1 (b - a) ltac:(lia)). nra.
Qed.

Lemma pow2_lt a b : (a < b)%Z → pow2 a < pow2 b.
Proof.
  intros H. replace b with (a + 1 + (b - a - 1))%Z by lia. rewrite !pow2_add.
  pose proof (pow2_pos a). pose proof (pow2_ge_1 (b - a - 1) ltac:(lia)).
  rewrite pow2_1. nra.
Qed.

Lemma pow2_succ a : pow2 (a + 1) = 2 * pow2 a.
Proof. rewrite pow2_add, pow2_1. lra. Qed.

Lemma pow2_opp a : pow2 (- a) = / pow2 a.
Proof. unfold pow2. apply powerRZ_neg'. Qed.

Lemma pow2_lt_inv a b : pow2 a < pow2 b → (a < b)%Z.
Proof.
  intros H. destruct (Z.lt_ge_cases a b) as [|Hge]; [done|].
  pose proof (pow2_le _ _ Hge). lra.
Qed.

(** The bounds of a mantissa with [d] digits, in the reals. *)
Lemma digits2_bounds_R m e :
  pow2 (Zpos (digits2_pos m) - 1 + e) <= IZR (Zpos m) * pow2 e
  < pow2 (Zpos (digits2_pos m) + e).
Proof.
  pose proof (digits2_bounds m) as [Hl Hu].
  apply IZR_le in Hl. apply IZR_lt in Hu.
  rewrite pow2_IZR in Hl, Hu by lia. rewrite !pow2_add.
  pose proof (pow2_pos e). split; nra.
Qed.

Lemma Rabs_le_inv a b : Rabs a <= b → - b <= a <= b.
Proof. unfold Rabs. destruct (Rcase_abs a); lra. Qed.

Lemma Rdiv_lt_bounds a b lo hi :
  0 < b → lo * b < a → a < hi * b → lo < a / b < hi.
Proof.
  intros Hb Hl Hu. split; apply Rmult_lt_reg_r with b; try done;
    unfold Rdiv; rewrite Rmult_assoc, Rinv_l by lra; lra.
Qed.

Lemma Rdiv_le_lt_bounds a b lo hi :
  0 < b → lo * b <= a → a < hi * b → lo <= a / b < hi.
Proof.
  intros Hb Hl Hu. split.
  - apply Rmult_le_reg_r with b; try done.
    unfold Rdiv; rewrite Rmult_assoc, Rinv_l by lra; lra.
  - apply Rmult_lt_reg_r with b; try done.
    unfold Rdiv; rewrite Rmult_assoc, Rinv_l by lra; lra.
Qed.

Lemma pow2_Zneg p : pow2 (Zneg p) = / pow2 (Zpos p).
Proof. apply (pow2_opp (Zpos p)). Qed.

Lemma round_result_normal prec emax s m1 e1 :
  (0 < prec)%Z → (2 ^ (prec - 1) ≤ m1 ≤ 2 ^ prec)%Z →
  (e1 + 1 ≤ emax - prec)%Z →
  ∃ m e, round_result prec emax s m1 e1 = S754_finite s m e ∧
         IZR (Zpos m) * pow2 e = IZR m1 * pow2 e1 ∧
         (2 ^ (prec - 1) ≤ Zpos m < 2 ^ prec)%Z ∧ (e1 ≤ e ≤ e1 + 1)%Z.
Proof.
  intros Hprec [Hl Hu] He. unfold round_result.
  assert (0 < 2 ^ (prec - 1))%Z as Hpos by (apply Z.pow_pos_nonneg; lia).
  assert (2 ^ prec = 2 * 2 ^ (prec - 1))%Z as E2.
  { rewrite <- Z.pow_succ_r by lia. f_equal. lia. }
  destruct (Z.eqb_spec m1 0) as [|_]; [lia|].
  destruct (Z.eqb_spec m1 (2 ^ prec)) as [->|Hne].
  - destruct (Z.leb_spec (e1 + 1) (emax - prec)); [|lia].
    exists (Z.to_pos (2 ^ (prec - 1))), (e1 + 1)%Z.
    rewrite Z2Pos.id by lia. split_and!; try done; try lia.
    rewrite E2, mult_IZR, pow2_succ. lra.
  - destruct (Z.leb_spec e1 (emax - prec)); [|lia].
    exists (Z.to_pos m1), e1. rewrite Z2Pos.id by lia.
    split_and!; try done; lia.
Qed.

(** Rounding in the normal range, without overflow: the result is a normal
    number within one unit in the last place of the number rounded. *)
Lemma binary_round_aux_normal prec emax s mx ex lx :
  (0 < prec)%Z → (0 < mx)%Z →
  let d := Zdigits2 mx in
  (prec ≤ d)%Z → (SpecFloat.emin prec emax ≤ d + ex - prec)%Z →
  (d + ex ≤ emax - 1)%Z →
  ∃ m e, binary_round_aux prec emax s mx ex lx = S754_finite s m e ∧
         (2 ^ (prec - 1) ≤ Zpos m < 2 ^ prec)%Z ∧
         (d + ex - prec ≤ e ≤ d + ex - prec + 1)%Z ∧
         IZR mx * pow2 ex - pow2 (d + ex - prec) < IZR (Zpos m) * pow2 e
         <= IZR mx * pow2 ex + pow2 (d + ex - prec).
Proof.
  intros Hprec Hmx d Hd Hmin Hmax.
  assert (fexp prec emax (Zdigits2 mx + ex) = d + ex - prec)%Z as He1
    by (unfold fexp; fold d; lia).
  destruct (binary_round_aux_spec prec emax s mx ex lx Hprec Hmx)
    as (m1 & Hm1 & Hm1p & ->); [lia|].
  rewrite He1 in *. replace (d + ex - prec - ex)%Z with (d - prec)%Z in Hm1 by lia.
  set (n := (d - prec)%Z) in *. set (q := (mx / 2 ^ n)%Z) in *.
  assert (0 < 2 ^ n)%Z as Hn by (apply Z.pow_pos_nonneg; lia).
  assert (2 ^ (prec - 1) ≤ q)%Z as Hq.
  { destruct mx as [|p|p]; try lia. cbn [Zdigits2] in d.
    pose proof (digits2_bounds p) as [Hl _]. fold d in Hl.
    replace (d - 1)%Z with (prec - 1 + n)%Z in Hl by lia.
    rewrite Z.pow_add_r in Hl by lia.
    unfold q. apply Z.div_le_lower_bound; lia. }
  destruct (round_result_normal prec emax s m1 (d + ex - prec))
    as (m & e & -> & Hv & Hm & He); [lia..|].
  exists m, e. split_and!; try done; try lia.
  all: rewrite Hv.
  all: pose proof (Z.mul_div_le mx (2 ^ n) Hn) as Hlo.
  all: pose proof (Z.mul_succ_div_gt mx (2 ^ n) Hn) as Hhi; fold q in Hlo, Hhi.
  all: replace (d + ex - prec)%Z with (n + ex)%Z by lia; rewrite pow2_add.
  all: apply IZR_le in Hlo; apply IZR_lt in Hhi.
  all: rewrite mult_IZR, pow2_IZR in Hlo, Hhi by lia.
  all: rewrite succ_IZR in Hhi.
  all: destruct Hm1 as [Hm1l Hm1u]; apply IZR_le in Hm1l, Hm1u.
  all: rewrite plus_IZR in Hm1u.
  all: pose proof (pow2_pos ex); pose proof (pow2_pos n).
  all: assert (IZR mx - pow2 n < IZR m1 * pow2 n) by nra.
  all: assert (IZR m1 * pow2 n <= IZR mx + pow2 n) by nra.
  all: nra.
Qed.

(** *** Normal binary64 numbers *)

Lemma IZR_cond_Zopp s m : IZR (cond_Zopp s m) = sgn s * IZR m.
Proof. destruct s; simpl; [rewrite opp_IZR|]; lra. Qed.

Lemma sgn_xorb a b : sgn (xorb a b) = sgn a * sgn b.
Proof. destruct a, b; simpl; lra. Qed.

Lemma Rabs_sgn s r : Rabs (sgn s * r) = Rabs r.
Proof.
  destruct s; simpl; [|f_equal; lra].
  replace (-1 * r) with (- r) by lra. apply Rabs_Ropp.
Qed.

Lemma SF2R_finite s m e : SF2R (S754_finite s m e) = sgn s * (IZR (Zpos m) * pow2 e).
Proof. unfold SF2R. rewrite IZR_cond_Zopp. lra. Qed.

(** Rounding to binary64 in the normal range: a relative error of at most
    [2^-52]. *)
Lemma binary_round_aux_rel s mx ex lx :
  (0 < mx)%Z → (53 ≤ Zdigits2 mx)%Z →
  pow2 (-1022) <= IZR mx * pow2 ex < pow2 1023 →
  ∃ m e, binary_round_aux prec emax s mx ex lx = S754_finite s m e ∧
         Zpos (digits2_pos m) = 53%Z ∧
         Rabs (IZR (Zpos m) * pow2 e - IZR mx * pow2 ex)
         <= pow2 (-52) * (IZR mx * pow2 ex).
Proof.
  intros Hmx Hd [Hlo Hhi].
  destruct mx as [|p|p]; try lia. cbn [Zdigits2] in Hd.
  pose proof (digits2_bounds_R p ex) as [Hl Hu].
  set (d := Zpos (digits2_pos p)) in *.
  assert (-1022 < d + ex)%Z by (apply pow2_lt_inv; lra).
  assert (d - 1 + ex < 1023)%Z by (apply pow2_lt_inv; lra).
  destruct (binary_round_aux_normal prec emax s (Zpos p) ex lx)
    as (m & e & -> & Hm & He & Hv);
    [done|done|cbn [Zdigits2]; fold d; unfold prec, emax, SpecFloat.emin; lia..|].
  cbn [Zdigits2] in He, Hv. fold d in He, Hv. unfold prec in *.
  exists m, e. split_and!; [done| |].
  - by apply digits2_unique.
  - replace (d + ex - 53)%Z with (-52 + (d - 1 + ex))%Z in Hv by lia.
    rewrite pow2_add in Hv. pose proof (pow2_pos (-52)).
    apply Rabs_le. split; nra.
Qed.

Lemma Zdigits2_ge m k : (0 ≤ k)%Z → (2 ^ k ≤ Zpos m)%Z → (k + 1 ≤ Zpos (digits2_pos m))%Z.
Proof.
  intros Hk Hm. pose proof (digits2_bounds m) as [_ Hu].
  destruct (Z.lt_ge_cases k (Zpos (digits2_pos m))) as [|Hge]; [lia|].
  assert (2 ^ Zpos (digits2_pos m) ≤ 2 ^ k)%Z by (apply Z.pow_le_mono_r; lia).
  lia.
Qed.

Lemma normal_B2R v s m e :
  Prim2SF v = S754_finite s m e → B2R v = sgn s * (IZR (Zpos m) * pow2 e).
Proof. intros E. unfold B2R. rewrite E. apply SF2R_finite. Qed.

Lemma normal_bounds v s m e :
  Prim2SF v = S754_finite s m e → Zpos (digits2_pos m) = 53%Z →
  pow2 (52 + e) <= Rabs (B2R v) < pow2 (53 + e).
Proof.
  intros E D. rewrite (normal_B2R v s m e E), Rabs_sgn.
  pose proof (digits2_bounds_R m e) as H. rewrite D in H.
  rewrite Rabs_pos_eq; [done|].
  pose proof (pow2_pos (53 - 1 + e)). lra.
Qed.

(** The product of two normal numbers, when it is in the normal range. *)
Lemma mul_rel x y :
  normal x → normal y →
  pow2 (-1022) <= Rabs (B2R x * B2R y) < pow2 1023 →
  normal (x * y) ∧
  Rabs (B2R (x * y) - B2R x * B2R y) <= pow2 (-52) * Rabs (B2R x * B2R y).
Proof.
  intros (sx & mx & ex & Ex & Dx) (sy & my & ey & Ey & Dy) Hr.
  rewrite (normal_B2R x _ _ _ Ex), (normal_B2R y _ _ _ Ey) in *.
  assert (sgn sx * (IZR (Zpos mx) * pow2 ex) * (sgn sy * (IZR (Zpos my) * pow2 ey))
          = sgn (xorb sx sy) * (IZR (Zpos (mx * my)) * pow2 (ex + ey))) as EP.
  { rewrite sgn_xorb, Pos2Z.inj_mul, mult_IZR, pow2_add. lra. }
  rewrite EP in *. rewrite Rabs_sgn in *.
  assert (0 < IZR (Zpos (mx * my)) * pow2 (ex + ey)) as Hpos.
  { pose proof (pow2_pos (ex + ey)). assert (0 < IZR (Zpos (mx * my))) by (apply IZR_lt; lia). nra. }
  rewrite Rabs_pos_eq in * by lra.
  destruct (binary_round_aux_rel (xorb sx sy) (Zpos (mx * my)) (ex + ey) loc_Exact)
    as (m & e & Er & Dm & Hv); [lia| |done|].
  { cbn [Zdigits2]. pose proof (Zdigits2_ge mx 52 ltac:(lia)) as Hx.
    pose proof (digits2_bounds mx) as [Hlx _]. rewrite Dx in Hlx.
    apply (Zdigits2_ge (mx * my) 52); [lia|]. simpl in Hlx. nia. }
  assert (Prim2SF (x * y) = S754_finite (xorb sx sy) m e) as E.
  { rewrite mul_spec, Ex, Ey. exact Er. }
  split; [by exists (xorb sx sy), m, e|].
  rewrite (normal_B2R _ _ _ _ E).
  rewrite <- Rmult_minus_distr_l, Rabs_sgn.
  by rewrite (Rabs_pos_eq (IZR (Zpos (mx * my)) * pow2 (ex + ey))) by lra.
Qed.

Lemma shl_R m k e :
  IZR (Zpos (shl m k)) * pow2 (e - Z.of_nat k) = IZR (Zpos m) * pow2 e.
Proof.
  rewrite shl_Z, mult_IZR, pow2_IZR by lia.
  replace (pow2 e) with (pow2 (Z.of_nat k + (e - Z.of_nat k))) by (f_equal; lia).
  rewrite pow2_add. lra.
Qed.

(** Rounding a number of any mantissa to binary64, in the normal range. *)
Lemma binary_round_rel s mx ex :
  pow2 (-1022) <= IZR (Zpos mx) * pow2 ex < pow2 1023 →
  ∃ m e, binary_round prec emax s mx ex = S754_finite s m e ∧
         Zpos (digits2_pos m) = 53%Z ∧
         Rabs (IZR (Zpos m) * pow2 e - IZR (Zpos mx) * pow2 ex)
         <= pow2 (-52) * (IZR (Zpos mx) * pow2 ex).
Proof.
  intros Hr. unfold binary_round.
  pose proof (digits2_bounds_R mx ex) as [Hl Hu].
  set (d := Zpos (digits2_pos mx)) in *.
  assert (-1022 < d + ex)%Z by (apply pow2_lt_inv; lra).
  assert (fexp prec emax (d + ex) = d + ex - 53)%Z as ->
    by (unfold fexp, prec, emax, SpecFloat.emin; lia).
  destruct (shl_align_spec mx ex (d + ex - 53)) as (k & -> & Hk).
  rewrite <- (shl_R mx k ex) in *.
  apply binary_round_aux_rel; [lia| |done].
  cbn [Zdigits2]. rewrite digits2_shl. fold d. lia.
Qed.

(** *** Positive normal numbers *)

Lemma posnormal_normal v : posnormal v → normal v.
Proof. intros (m & e & E & D). by exists false, m, e. Qed.

Lemma posnormal_B2R v m e :
  Prim2SF v = S754_finite false m e → B2R v = IZR (Zpos m) * pow2 e.
Proof. intros E. rewrite (normal_B2R v _ _ _ E). simpl. lra. Qed.

Lemma posnormal_pos v : posnormal v → 0 < B2R v.
Proof.
  intros (m & e & E & D). rewrite (posnormal_B2R v m e E).
  pose proof (pow2_pos e). assert (0 < IZR (Zpos m)) by (apply IZR_lt; lia). nra.
Qed.

Lemma valid_emin v s m e :
  Prim2SF v = S754_finite s m e → (-1074 ≤ e)%Z.
Proof.
  intros E. pose proof (Prim2SF_valid v) as Hv. rewrite E in Hv.
  unfold SpecFloat.valid_binary, bounded, canonical_mantissa in Hv.
  apply andb_true_iff in Hv as [Hc _]. apply Z.eqb_eq in Hc.
  unfold fexp, prec, emax, SpecFloat.emin in Hc. lia.
Qed.

Lemma posnormal_ge v : posnormal v → pow2 (-1022) <= B2R v.
Proof.
  intros (m & e & E & D). pose proof (valid_emin v _ _ _ E).
  pose proof (normal_bounds v false m e E D) as [Hl _].
  rewrite Rabs_pos_eq in Hl by (apply Rlt_le, posnormal_pos; by exists m, e).
  pose proof (pow2_le (-1022) (52 + e) ltac:(lia)). lra.
Qed.

(** The sum of two positive normal numbers. *)
Lemma add_rel_pos x y :
  posnormal x → posnormal y → B2R x + B2R y < pow2 1023 →
  posnormal (x + y) ∧
  Rabs (B2R (x + y) - (B2R x + B2R y)) <= pow2 (-52) * (B2R x + B2R y).
Proof.
  intros Px Py Hr. pose proof (posnormal_ge x Px). pose proof (posnormal_pos y Py).
  destruct Px as (mx & ex & Ex & Dx), Py as (my & ey & Ey & Dy).
  rewrite (posnormal_B2R x _ _ Ex), (posnormal_B2R y _ _ Ey) in *.
  assert (Prim2SF (x + y)
          = binary_round prec emax false
              (fst (shl_align mx ex (Z.min ex ey)) + fst (shl_align my ey (Z.min ex ey)))
              (Z.min ex ey)) as E.
  { rewrite add_spec, Ex, Ey. reflexivity. }
  destruct (shl_align_spec mx ex (Z.min ex ey)) as (k1 & E1 & Hk1).
  destruct (shl_align_spec my ey (Z.min ex ey)) as (k2 & E2 & Hk2).
  rewrite E1, E2 in E. cbn [fst] in E.
  set (M := (shl mx k1 + shl my k2)%positive) in *.
  assert (IZR (Zpos M) * pow2 (Z.min ex ey)
          = IZR (Zpos mx) * pow2 ex + IZR (Zpos my) * pow2 ey) as EM.
  { unfold M. rewrite Pos2Z.inj_add, plus_IZR, Rmult_plus_distr_r.
    f_equal.
    - rewrite <- (shl_R mx k1 ex). do 2 f_equal. lia.
    - rewrite <- (shl_R my k2 ey). do 2 f_equal. lia. }
  destruct (binary_round_rel false M (Z.min ex ey)) as (m & e & Er & Dm & Hv).
  { rewrite EM. lra. }
  rewrite Er in E. split; [by exists m, e|].
  rewrite (posnormal_B2R _ _ _ E). by rewrite EM in Hv.
Qed.

(** Adding [+0] changes nothing. *)
Lemma add_zero_r x y : Prim2SF y = S754_zero false → posnormal x → (x + y)%float = x.
Proof.
  intros Ey (m & e & Ex & _). apply Prim2SF_inj. by rewrite add_spec, Ex, Ey.
Qed.

Lemma add_zero_l x y : Prim2SF x = S754_zero false → posnormal y → (x + y)%float = y.
Proof.
  intros Ex (m & e & Ey & _). apply Prim2SF_inj. by rewrite add_spec, Ex, Ey.
Qed.

Lemma valid_emax v s m e :
  Prim2SF v = S754_finite s m e → (e ≤ 971)%Z.
Proof.
  intros E. pose proof (Prim2SF_valid v) as Hv. rewrite E in Hv.
  unfold SpecFloat.valid_binary, bounded in Hv.
  apply andb_true_iff in Hv as [_ He]. apply Z.leb_le in He.
  unfold prec, emax in He. lia.
Qed.

Lemma sqrt_pow2_sq e r : 0 <= r → R_sqrt.sqrt (r * (pow2 e * pow2 e)) = R_sqrt.sqrt r * pow2 e.
Proof.
  intros Hr. pose proof (pow2_pos e). rewrite sqrt_mult by nra.
  f_equal. apply sqrt_square. lra.
Qed.

Lemma sqrt_bounds_Z q n :
  (0 ≤ q)%Z → (q * q ≤ n < (q + 1) * (q + 1))%Z →
  IZR q <= R_sqrt.sqrt (IZR n) < IZR q + 1.
Proof.
  intros Hq [Hl Hu]. apply IZR_le in Hl, Hq. apply IZR_lt in Hu.
  rewrite mult_IZR in Hl. rewrite mult_IZR, plus_IZR in Hu.
  split.
  - rewrite <- (sqrt_square (IZR q)) by done. apply sqrt_le_1_alt. lra.
  - rewrite <- (sqrt_square (IZR q + 1)) by lra. apply sqrt_lt_1_alt. nra.
Qed.

(** The square root of a positive normal number. *)
Lemma sqrt_rel x :
  posnormal x →
  posnormal (PrimFloat.sqrt x) ∧
  Rabs (B2R (PrimFloat.sqrt x) - R_sqrt.sqrt (B2R x)) <= pow2 (-51) * R_sqrt.sqrt (B2R x).
Proof.
  intros (m & e & Ex & Dx).
  pose proof (valid_emin _ _ _ _ Ex) as Hemin.
  pose proof (valid_emax _ _ _ _ Ex) as Hemax.
  rewrite (posnormal_B2R x m e Ex).
  assert (Prim2SF (PrimFloat.sqrt x)
          = let '(mz, ez, lz) := SFsqrt_core_binary prec emax (Zpos m) e in
            binary_round_aux prec emax false mz ez lz) as E.
  { rewrite sqrt_spec, Ex. reflexivity. }
  unfold SFsqrt_core_binary in E. cbn [Zdigits2] in E. rewrite Dx in E.
  set (h := Z.div2 e) in *.
  pose proof (Z.div2_odd e) as He. fold h in He.
  assert (Z.div2 (53 + e + 1) = 27 + h)%Z as Eh.
  { pose proof (Z.div2_odd (53 + e + 1)) as H1.
    replace (Z.odd (53 + e + 1)) with (Z.odd e) in H1.
    - destruct (Z.odd e); simpl in *; lia.
    - replace (53 + e + 1)%Z with (e + 2 * 27)%Z by lia.
      by rewrite Z.odd_add_mul_2. }
  rewrite Eh in E.
  assert (Z.min (fexp prec emax (27 + h)) h = h - 26)%Z as Ee'.
  { unfold fexp, prec, emax, SpecFloat.emin. destruct (Z.odd e); simpl in He; lia. }
  rewrite Ee' in E.
  set (s := (e - 2 * (h - 26))%Z) in *.
  assert (s = 52 ∨ s = 53)%Z as Hs by (unfold s; destruct (Z.odd e); simpl in He; lia).
  assert (match s with Zpos _ => Z.shiftl (Zpos m) s | 0%Z => Zpos m | Zneg _ => 0%Z end
          = Zpos m * 2 ^ s)%Z as Em'.
  { destruct Hs as [-> | ->]; by rewrite Z.shiftl_mul_pow2. }
  rewrite Em' in E. set (m' := (Zpos m * 2 ^ s)%Z) in *.
  pose proof (digits2_bounds m) as [Hml Hmu]. rewrite Dx in Hml, Hmu.
  assert (2 ^ 104 ≤ m' < 2 ^ 106)%Z as Hm'.
  { unfold m'. destruct Hs as [-> | ->]; simpl in *; lia. }
  pose proof (Z.sqrtrem_spec m' ltac:(lia)) as Hsq.
  destruct (Z.sqrtrem m') as [q r]. destruct Hsq as [Hq Hr].
  assert (2 ^ 52 ≤ q < 2 ^ 53)%Z as Hq52 by (simpl in *; nia).
  assert (Zdigits2 q = 53%Z) as Dq.
  { destruct q as [|p|p]; try (simpl in *; lia). cbn [Zdigits2].
    apply digits2_unique. lia. }
  set (l := if (r =? 0)%Z then loc_Exact else loc_Inexact (if (r <=? q)%Z then Lt else Gt)) in *.
  assert (IZR (Zpos m) * pow2 e = IZR m' * (pow2 (h - 26) * pow2 (h - 26))) as Ev.
  { unfold m'. rewrite mult_IZR, pow2_IZR by lia. rewrite <- !pow2_add.
    rewrite Rmult_assoc, <- pow2_add. do 2 f_equal. unfold s. lia. }
  rewrite Ev, sqrt_pow2_sq by (apply IZR_le; lia).
  pose proof (sqrt_bounds_Z q m' ltac:(lia) ltac:(lia)) as [Hsl Hsu].
  assert (IZR (2 ^ 52) <= IZR q) as Hq52R by (apply IZR_le; lia).
  rewrite pow2_IZR in Hq52R by lia.
  pose proof (pow2_pos (h - 26)) as Hp.
  destruct (binary_round_aux_rel false q (h - 26) l) as (m2 & e2 & Er & Dm & Hv).
  { lia. } { lia. }
  { destruct q as [|p|p]; try lia.
    pose proof (digits2_bounds_R p (h - 26)) as [Hl Hu].
    cbn [Zdigits2] in Dq. rewrite Dq in Hl, Hu.
    pose proof (pow2_le (-1022) (53 - 1 + (h - 26)) ltac:(lia)).
    pose proof (pow2_le (53 + (h - 26)) 1022 ltac:(lia)).
    pose proof (pow2_lt 1022 1023 ltac:(lia)). lra. }
  rewrite Er in E. split; [by exists m2, e2|].
  rewrite (posnormal_B2R _ _ _ E).
  replace (-51)%Z with (-52 + 1)%Z by lia. rewrite pow2_succ.
  pose proof (pow2_pos (-52)) as Hp52.
  assert (pow2 (-52) * pow2 52 = 1) as H1 by (rewrite <- pow2_add; reflexivity).
  apply Rabs_le_inv in Hv.
  assert (1 <= pow2 (-52) * IZR q) as Hq1 by nra.
  assert (pow2 (h - 26) <= pow2 (-52) * IZR q * pow2 (h - 26)) as Hu1 by nra.
  assert (pow2 (-52) * IZR q * pow2 (h - 26)
          <= pow2 (-52) * R_sqrt.sqrt (IZR m') * pow2 (h - 26)) as Hu2.
  { apply Rmult_le_compat_r; [lra|]. apply Rmult_le_compat_l; lra. }
  assert (0 <= R_sqrt.sqrt (IZR m') * pow2 (h - 26) - IZR q * pow2 (h - 26)
          <= pow2 (h - 26)) as Hu3 by (split; nra).
  apply Rabs_le. split; lra.
Qed.

(** The quotient of two positive normal numbers, in the normal range. *)
Lemma div_rel x y :
  posnormal x → posnormal y →
  pow2 (-1021) <= B2R x / B2R y < pow2 1022 →
  posnormal (x / y) ∧
  Rabs (B2R (x / y) - B2R x / B2R y) <= pow2 (-51) * (B2R x / B2R y).
Proof.
  intros (mx & ex & Ex & Dx) (my & ey & Ey & Dy) Hr.
  rewrite (posnormal_B2R x _ _ Ex), (posnormal_B2R y _ _ Ey) in *.
  assert (Prim2SF (x / y)
          = let '(mz, ez, lz) := SFdiv_core_binary prec emax (Zpos mx) ex (Zpos my) ey in
            binary_round_aux prec emax false mz ez lz) as E.
  { rewrite div_spec, Ex, Ey. reflexivity. }
  unfold SFdiv_core_binary in E. cbn [Zdigits2] in E. rewrite Dx, Dy in E.
  pose proof (digits2_bounds mx) as [Hxl Hxu]. rewrite Dx in Hxl, Hxu.
  pose proof (digits2_bounds my) as [Hyl Hyu]. rewrite Dy in Hyl, Hyu.
  pose proof (pow2_pos ex) as Hpx. pose proof (pow2_pos ey) as Hpy.
  assert (0 < IZR (Zpos mx)) as Hmx by (apply IZR_lt; lia).
  assert (0 < IZR (Zpos my)) as Hmy by (apply IZR_lt; lia).
  assert (IZR (Zpos mx) * pow2 ex / (IZR (Zpos my) * pow2 ey)
          = IZR (Zpos mx) / IZR (Zpos my) * pow2 (ex - ey)) as Eq.
  { replace (ex - ey)%Z with (ex + - ey)%Z by lia.
    rewrite pow2_add, pow2_opp. field. split; lra. }
  rewrite Eq in *.
  assert (/ 2 < IZR (Zpos mx) / IZR (Zpos my) < 2) as Hratio.
  { apply IZR_le in Hxl, Hyl. apply IZR_lt in Hxu, Hyu.
    replace (2 ^ 53)%Z with (2 * 2 ^ (53 - 1))%Z in Hxu, Hyu by reflexivity.
    rewrite mult_IZR in Hxu, Hyu.
    assert (0 < IZR (2 ^ (53 - 1))) by (apply IZR_lt; reflexivity).
    apply Rdiv_lt_bounds; lra. }
  pose proof (pow2_pos (ex - ey)) as Hpxy.
  assert (-1022 < ex - ey)%Z as Hlo.
  { assert (pow2 (-1021) < pow2 (ex - ey + 1)) by (rewrite pow2_succ; nra).
    assert (-1021 < ex - ey + 1)%Z by by apply pow2_lt_inv. lia. }
  assert (ex - ey < 1023)%Z as Hhi.
  { apply pow2_lt_inv. replace 1023%Z with (1022 + 1)%Z by lia.
    rewrite pow2_succ. nra. }
  replace (53 + ex - (53 + ey))%Z with (ex - ey)%Z in E by lia.
  assert (Z.min (fexp prec emax (ex - ey)) (ex - ey) = ex - ey - 53)%Z as Ee'
    by (unfold fexp, prec, emax, SpecFloat.emin; lia).
  rewrite Ee' in E.
  replace (ex - ey - (ex - ey - 53))%Z with 53%Z in E by lia.
  rewrite Z.shiftl_mul_pow2 in E by lia.
  set (m' := (Zpos mx * 2 ^ 53)%Z) in *.
  assert (Z.div_eucl m' (Zpos my) = (m' / Zpos my, m' mod Zpos my)%Z) as Ede.
  { unfold Z.div, Z.modulo. by destruct (Z.div_eucl m' (Zpos my)). }
  rewrite Ede in E. set (q := (m' / Zpos my)%Z) in *.
  assert (2 ^ 52 ≤ q < 2 ^ 54)%Z as Hq.
  { unfold q, m'. split.
    - apply Z.div_le_lower_bound; simpl in *; lia.
    - apply Z.div_lt_upper_bound; simpl in *; lia. }
  pose proof (Z.mul_div_le m' (Zpos my) ltac:(lia)) as Hql.
  pose proof (Z.mul_succ_div_gt m' (Zpos my) ltac:(lia)) as Hqu.
  fold q in Hql, Hqu.
  apply IZR_le in Hql. apply IZR_lt in Hqu.
  rewrite mult_IZR in Hql, Hqu. rewrite succ_IZR in Hqu.
  unfold m' in Hql, Hqu. rewrite mult_IZR, pow2_IZR in Hql, Hqu by lia.
  set (e' := (ex - ey - 53)%Z) in *.
  assert (pow2 (ex - ey) = pow2 53 * pow2 e') as Epe
    by (rewrite <- pow2_add; f_equal; unfold e'; lia).
  pose proof (pow2_pos e') as Hpe'. pose proof (pow2_pos 53) as Hp53.
  set (t := IZR (Zpos mx) / IZR (Zpos my) * pow2 53) in *.
  assert (IZR q <= t < IZR q + 1) as Ht.
  { unfold t. replace (IZR (Zpos mx) / IZR (Zpos my) * pow2 53)
      with (IZR (Zpos mx) * pow2 53 / IZR (Zpos my)) by (field; lra).
    apply Rdiv_le_lt_bounds; lra. }
  assert (IZR (Zpos mx) / IZR (Zpos my) * pow2 (ex - ey) = t * pow2 e') as Et
    by (unfold t; rewrite Epe; ring).
  rewrite Et in *.
  assert (IZR (2 ^ 52) <= IZR q) as Hq52 by (apply IZR_le; lia).
  rewrite pow2_IZR in Hq52 by lia.
  destruct (binary_round_aux_rel false q e'
              (new_location (Zpos my) (m' mod Zpos my))) as (m2 & e2 & Er & Dm & Hv).
  { lia. }
  { destruct q as [|p|p]; try lia. cbn [Zdigits2]. apply (Zdigits2_ge p 52); lia. }
  { pose proof (pow2_le (-1022) (52 + e') ltac:(unfold e'; lia)) as H1.
    rewrite pow2_add in H1. pose proof (pow2_lt 1022 1023 ltac:(lia)).
    split; nra. }
  rewrite Er in E. split; [by exists m2, e2|].
  rewrite (posnormal_B2R _ _ _ E).
  replace (-51)%Z with (-52 + 1)%Z by lia. rewrite pow2_succ.
  pose proof (pow2_pos (-52)) as Hp52.
  assert (pow2 (-52) * pow2 52 = 1) as H1 by (rewrite <- pow2_add; reflexivity).
  apply Rabs_le_inv in Hv.
  assert (1 <= pow2 (-52) * IZR q) as Hq1 by nra.
  assert (pow2 e' <= pow2 (-52) * IZR q * pow2 e') as Hu1 by nra.
  assert (pow2 (-52) * IZR q * pow2 e' <= pow2 (-52) * t * pow2 e') as Hu2.
  { apply Rmult_le_compat_r; [lra|]. apply Rmult_le_compat_l; lra. }
  assert (0 <= t * pow2 e' - IZR q * pow2 e' <= pow2 e') as Hu3 by (split; nra).
  apply Rabs_le. split; lra.
Qed.

(** *** Binary32 rounding, in the reals *)

Lemma pow2_max a b : pow2 (Z.max a b) <= pow2 a + pow2 b.
Proof.
  pose proof (pow2_pos a). pose proof (pow2_pos b).
  destruct (Z.max_spec a b) as [[_ ->]|[_ ->]]; lra.
Qed.

Lemma B2R_zero v s : Prim2SF v = S754_zero s → B2R v = 0.
Proof. intros E. unfold B2R. by rewrite E. Qed.

(** Storing a normal number below [2^127] in a [Float32Array]: the stored
    number is a zero or a normal number of magnitude at least [2^-149], and
    the rounding error is at most [2^-23] of the number plus [2^-149]. *)
Lemma fround_rel x :
  normal x → Rabs (B2R x) < pow2 127 →
  ((∃ s, Prim2SF (fround x) = S754_zero s) ∨
   (normal (fround x) ∧ pow2 (-149) <= Rabs (B2R (fround x)))) ∧
  Rabs (B2R (fround x) - B2R x) <= pow2 (-23) * Rabs (B2R x) + pow2 (-149).
Proof.
  intros (s & m & e & Ex & Dx) Hr.
  pose proof (normal_bounds x s m e Ex Dx) as [Hbl Hbu].
  assert (52 + e < 127)%Z as He127 by (apply pow2_lt_inv; lra).
  pose proof (Prim2SF_valid x) as Hv. rewrite Ex in Hv.
  destruct (binary_round32_spec s m e Hv) as (m1 & Hm1 & Hm1p & Er).
  rewrite Dx in Hm1, Er.
  set (e1 := Z.max (53 + e - 24) (-149)) in *.
  pose proof (valid_le_fexp32 s m e Hv) as Hn. rewrite Dx in Hn. fold e1 in Hn.
  set (n := (e1 - e)%Z) in *.
  assert (0 < 2 ^ n)%Z as Hpn by (apply Z.pow_pos_nonneg; lia).
  pose proof (Z.mul_div_le (Zpos m) (2 ^ n) Hpn) as Hlo.
  pose proof (Z.mul_succ_div_gt (Zpos m) (2 ^ n) Hpn) as Hhi.
  set (q := (Zpos m / 2 ^ n)%Z) in *.
  assert (0 ≤ q)%Z as Hq0 by (apply Z.div_pos; lia).
  apply IZR_le in Hlo. apply IZR_lt in Hhi.
  rewrite mult_IZR, pow2_IZR in Hlo, Hhi by lia. rewrite succ_IZR in Hhi.
  assert (0 ≤ m1)%Z as Hm1nn by lia.
  destruct Hm1 as [Hm1l Hm1u]. apply IZR_le in Hm1l, Hm1u.
  rewrite plus_IZR in Hm1u.
  assert (pow2 e1 = pow2 n * pow2 e) as Ee1
    by (rewrite <- pow2_add; f_equal; unfold n; lia).
  pose proof (pow2_pos e) as Hpe. pose proof (pow2_pos n) as Hpn'.
  assert (Rabs (IZR m1 * pow2 e1 - IZR (Zpos m) * pow2 e) <= pow2 e1) as Herr.
  { rewrite Ee1. apply Rabs_le.
    assert (IZR (Zpos m) - pow2 n <= IZR m1 * pow2 n) by nra.
    assert (IZR m1 * pow2 n <= IZR (Zpos m) + pow2 n) by nra.
    split; nra. }
  assert (pow2 e1 <= pow2 (-23) * Rabs (B2R x) + pow2 (-149)) as Hulp.
  { pose proof (pow2_max (53 + e - 24) (-149)) as Hmax. fold e1 in Hmax.
    replace (53 + e - 24)%Z with (-23 + (52 + e))%Z in Hmax by lia.
    rewrite pow2_add in Hmax. pose proof (pow2_pos (-23)).
    assert (pow2 (-23) * pow2 (52 + e) <= pow2 (-23) * Rabs (B2R x))
      by (apply Rmult_le_compat_l; lra).
    lra. }
  assert (∀ r, SF2R r = sgn s * (IZR m1 * pow2 e1) →
               Rabs (SF2R r - B2R x)
               <= pow2 (-23) * Rabs (B2R x) + pow2 (-149)) as Hfin.
  { intros r ->. rewrite (normal_B2R x s m e Ex), <- Rmult_minus_distr_l, !Rabs_sgn.
    rewrite (normal_B2R x s m e Ex), Rabs_sgn in Hulp. lra. }
  unfold fround. rewrite Ex, Er. unfold round_result.
  destruct (Z.eqb_spec m1 0) as [E0|N0].
  { split; [left; exists s; apply Prim2SF_SF2Prim_zero|].
    unfold B2R at 1. rewrite Prim2SF_SF2Prim_zero. apply Hfin.
    rewrite E0. simpl. lra. }
  assert (0 < m1)%Z as Hm1pos by lia.
  set (m2e2 := if (m1 =? 2 ^ 24)%Z then (2 ^ (24 - 1), e1 + 1)%Z else (m1, e1)).
  assert (∃ m2 e2, m2e2 = (Zpos m2, e2) ∧ (Zpos m2 < 2 ^ 24)%Z ∧
                   (e1 ≤ e2 ≤ e1 + 1)%Z ∧
                   IZR (Zpos m2) * pow2 e2 = IZR m1 * pow2 e1) as (m2 & e2 & -> & Hm2 & He2 & Hval).
  { unfold m2e2. destruct (Z.eqb_spec m1 (2 ^ 24)) as [->|Hne].
    - exists (Z.to_pos (2 ^ 23)), (e1 + 1)%Z. split_and!; try done; try lia.
      rewrite pow2_succ. change (IZR (Zpos (Z.to_pos (2 ^ 23)))) with (IZR (2 ^ 23)).
      replace (2 ^ 24)%Z with (2 * 2 ^ 23)%Z by reflexivity. rewrite mult_IZR. lra.
    - exists (Z.to_pos m1), e1. rewrite Z2Pos.id by lia.
      split_and!; try done; lia. }
  assert (e2 ≤ 104)%Z as He2max by (unfold e1 in *; lia).
  assert (-149 ≤ e2)%Z as He2min by (unfold e1 in *; lia).
  unfold prec32, emax32.
  destruct (Z.leb_spec e2 (128 - 24)) as [_|]; [|lia].
  rewrite Pos2Z.id.
  destruct (Prim2SF_SF2Prim_32 s m2 e2 Hm2 ltac:(lia)) as (k & Ek & Hk).
  assert (B2R (SF2Prim (S754_finite s m2 e2)) = sgn s * (IZR m1 * pow2 e1)) as EB.
  { unfold B2R. rewrite Ek, SF2R_finite, shl_R, Hval. done. }
  split.
  - right. split.
    + exists s, (shl m2 k), (e2 - Z.of_nat k)%Z. split; [done|].
      rewrite digits2_shl. lia.
    + rewrite EB, Rabs_sgn, <- Hval.
      assert (1 <= IZR (Zpos m2)) by (apply IZR_le; lia).
      pose proof (pow2_le (-149) e2 He2min). pose proof (pow2_pos (-149)).
      rewrite Rabs_pos_eq by nra. nra.
  - unfold B2R at 1. apply Hfin. fold (B2R (SF2Prim (S754_finite s m2 e2))).
    exact EB.
Qed.

(** A finite non-zero number held by a [Float32Array] has a mantissa [m2]
    below [2^24] at an exponent [e2] between [-149] and [104]. *)
Lemma f32_repr x s m e :
  is_f32 x → Prim2SF x = S754_finite s m e →
  ∃ m2 e2 k, m = shl m2 k ∧ e = (e2 - Z.of_nat k)%Z ∧
             (Zpos m2 < 2 ^ 24)%Z ∧ (-149 ≤ e2 ≤ 104)%Z ∧
             (Zpos (digits2_pos m2) + Z.of_nat k = 53)%Z.
Proof.
  intros Fx Ex.
  pose proof (Prim2SF_valid x) as Hv. rewrite Ex in Hv.
  destruct (binary_round32_spec s m e Hv) as (m1 & Hm1 & Hm1p & Er).
  set (e1 := Z.max (Zpos (digits2_pos m) + e - 24) (-149)) in *.
  assert (0 ≤ m1)%Z as Hm1nn.
  { assert (0 ≤ Zpos m / 2 ^ (e1 - e))%Z; [|lia].
    apply Z.div_pos; [lia|]. apply Z.pow_pos_nonneg; [lia|].
    pose proof (valid_le_fexp32 s m e Hv). fold e1 in H. lia. }
  unfold is_f32, fround in Fx. rewrite Ex, Er in Fx.
  assert (Prim2SF (SF2Prim (round_result 24 128 s m1 e1)) = S754_finite s m e) as E
    by by rewrite Fx.
  unfold round_result in E.
  destruct (Z.eqb_spec m1 0) as [E0|N0].
  { by rewrite Prim2SF_SF2Prim_zero in E. }
  set (m2e2 := if (m1 =? 2 ^ 24)%Z then (2 ^ (24 - 1), e1 + 1)%Z else (m1, e1)) in *.
  assert (∃ m2 e2, m2e2 = (Zpos m2, e2) ∧ (Zpos m2 < 2 ^ 24)%Z ∧
                   (e1 ≤ e2)%Z) as (m2 & e2 & Em & Hm2 & He2).
  { unfold m2e2. destruct (Z.eqb_spec m1 (2 ^ 24)) as [->|Hne].
    - exists (Z.to_pos (2 ^ 23)), (e1 + 1)%Z. split_and!; try done; lia.
    - exists (Z.to_pos m1), e1. rewrite Z2Pos.id by lia.
      split_and!; try done; lia. }
  rewrite Em in E.
  destruct (Z.leb_spec e2 (128 - 24)) as [He2max|];
    [|by rewrite Prim2SF_SF2Prim_infinity in E].
  rewrite Pos2Z.id in E.
  assert (-149 ≤ e2)%Z as He2min by (unfold e1 in *; lia).
  destruct (Prim2SF_SF2Prim_32 s m2 e2 Hm2 ltac:(lia)) as (k & Ek & Hk).
  rewrite Ek in E. injection E as <- <-.
  exists m2, e2, k. split_and!; try done; lia.
Qed.

(** A finite number held by a [Float32Array] is a zero or a normal binary64
    number of magnitude between [2^-149] and [2^128]. *)
Lemma f32_cases x :
  is_f32 x → isFinite x = true →
  (∃ s, Prim2SF x = S754_zero s) ∨
  (normal x ∧ pow2 (-149) <= Rabs (B2R x) < pow2 128).
Proof.
  intros Fx Hfin. destruct (isFinite_cases x Hfin) as [[s E]|(s & m & e & Ex)];
    [left; by exists s|right].
  destruct (f32_repr x s m e Fx Ex)
    as (m2 & e2 & k & -> & -> & Hm2 & [He2min He2max] & Hk).
  split.
  - exists s, (shl m2 k), (e2 - Z.of_nat k)%Z. split; [done|].
    rewrite digits2_shl. lia.
  - rewrite (normal_B2R x _ _ _ Ex), Rabs_sgn, shl_R.
    assert (1 <= IZR (Zpos m2)) as H1 by (apply IZR_le; lia).
    assert (IZR (Zpos m2) < IZR (2 ^ 24)) as H2 by by apply IZR_lt.
    rewrite pow2_IZR in H2 by lia.
    pose proof (pow2_le (-149) e2 He2min). pose proof (pow2_le e2 104 ltac:(lia)).
    pose proof (pow2_pos (-149)). pose proof (pow2_pos e2).
    rewrite Rabs_pos_eq by nra.
    assert (pow2 128 = pow2 24 * pow2 104) as -> by (rewrite <- pow2_add; reflexivity).
    pose proof (pow2_pos 24). split; nra.
Qed.


(** The square of a zero is [+0]. *)
Lemma mul_zero_zero x s : Prim2SF x = S754_zero s → Prim2SF (x * x) = S754_zero false.
Proof. intros E. rewrite mul_spec, E. by destruct s. Qed.

(** Zero times a normal number is a zero. *)
Lemma mul_zero_l x y s :
  Prim2SF x = S754_zero s → normal y → ∃ s', Prim2SF (x * y) = S754_zero s'.
Proof.
  intros E (sy & my & ey & Ey & _). rewrite mul_spec, E, Ey. by eexists.
Qed.

(** *** Comparison and the unit-length test *)

Lemma SFleb_pos m e m' e' :
  Zpos (digits2_pos m) = 53%Z → Zpos (digits2_pos m') = 53%Z →
  IZR (Zpos m) * pow2 e <= IZR (Zpos m') * pow2 e' →
  SFleb (S754_finite false m e) (S754_finite false m' e') = true.
Proof.
  intros D D' Hle. unfold SFleb, SFcompare.
  pose proof (digits2_bounds_R m e) as [Hl Hu]. rewrite D in Hl, Hu.
  pose proof (digits2_bounds_R m' e') as [Hl' Hu']. rewrite D' in Hl', Hu'.
  destruct (Z.compare_spec e e') as [->|Hlt|Hgt]; [|done|].
  - pose proof (pow2_pos e').
    assert (IZR (Zpos m) <= IZR (Zpos m')) as Hm by nra.
    apply le_IZR in Hm.
    change (Pos.compare_cont Eq m m') with (Pos.compare m m').
    destruct (Pos.compare_spec m m'); try done. lia.
  - pose proof (pow2_le (53 + e') (53 - 1 + e) ltac:(lia)). lra.
Qed.

Lemma B2R_EPSILON : / 100000 <= B2R MathHelper.EPSILON.
Proof.
  unfold B2R.
  change (Prim2SF MathHelper.EPSILON)
    with (S754_finite false 5902958103587057 (-69)).
  rewrite SF2R_finite. simpl sgn. rewrite pow2_Zneg, <- pow2_IZR by lia.
  change (2 ^ 69)%Z with 590295810358705651712%Z. lra.
Qed.

(** A length close enough to one passes the test [|len - 1| <= EPSILON]. *)
Lemma unit_length_of_bound len :
  posnormal len → Rabs (B2R len - 1) <= / 200000 →
  unit_length len = true.
Proof.
  intros (m & e & E & D) Hb. unfold unit_length, Math_abs.
  rewrite FloatAxioms.leb_spec, abs_spec, sub_spec, E.
  change (Prim2SF 1) with (S754_finite false (shl 1 52) (-52)).
  change (Prim2SF MathHelper.EPSILON)
    with (S754_finite false 5902958103587057 (-69)).
  pose proof B2R_EPSILON as HE. unfold B2R in HE.
  change (Prim2SF MathHelper.EPSILON)
    with (S754_finite false 5902958103587057 (-69)) in HE.
  rewrite SF2R_finite in HE. simpl sgn in HE.
  rewrite (posnormal_B2R len m e E) in Hb.
  pose proof (normal_bounds len false m e E D) as [_ Hu].
  rewrite (posnormal_B2R len m e E), Rabs_pos_eq in Hu
    by (pose proof (pow2_pos e); assert (0 < IZR (Zpos m)) by (apply IZR_lt; lia); nra).
  apply Rabs_le_inv in Hb.
  assert (-54 < e)%Z as He.
  { assert (pow2 (-1) < pow2 (53 + e)); [|assert (-1 < 53 + e)%Z by (by apply pow2_lt_inv); lia].
    rewrite pow2_Zneg, pow2_1. lra. }
  unfold SF64sub, SFsub. cbn [cond_Zopp].
  set (ez := Z.min e (-52)).
  destruct (shl_align_spec m e ez) as (k1 & -> & Hk1).
  destruct (shl_align_spec (shl 1 52) (-52) ez) as (k2 & -> & Hk2).
  cbn [fst].
  set (A := Zpos (shl m k1)). set (B := Zpos (shl (shl 1 52) k2)).
  assert (IZR A * pow2 ez = IZR (Zpos m) * pow2 e) as EA.
  { unfold A. rewrite <- (shl_R m k1 e). do 2 f_equal. unfold ez in *. lia. }
  assert (IZR B * pow2 ez = 1) as EB.
  { unfold B. replace ez with (-52 - Z.of_nat k2)%Z by (unfold ez in *; lia).
    rewrite shl_R. change (Zpos (shl 1 52)) with (2 ^ 52)%Z.
    rewrite pow2_IZR, <- pow2_add by lia. reflexivity. }
  assert (IZR (A - B) * pow2 ez = IZR (Zpos m) * pow2 e - 1) as EM.
  { rewrite minus_IZR. lra. }
  assert (-54 < ez)%Z as Hez by (unfold ez; lia).
  pose proof (pow2_pos ez) as Hpez.
  pose proof (pow2_le (-1022) ez ltac:(lia)) as Hlow.
  pose proof (pow2_lt 0 1023 ltac:(lia)) as Hhigh. rewrite pow2_0 in Hhigh.
  pose proof (pow2_pos (-52)) as Hp52.
  assert (pow2 (-52) <= 1) as Hp52'.
  { pose proof (pow2_le (-52) 0 ltac:(lia)). by rewrite pow2_0 in H. }
  destruct (A - B)%Z as [|p|p] eqn:EAB; cbn [binary_normalize].
  - done.
  - destruct (binary_round_rel false p ez) as (m2 & e2 & -> & D2 & Hv).
    { assert (1 <= IZR (Zpos p)) by (apply IZR_le; lia). split; nra. }
    cbn [SFabs]. apply SFleb_pos; [done..|].
    apply Rabs_le_inv in Hv. nra.
  - destruct (binary_round_rel true p ez) as (m2 & e2 & -> & D2 & Hv).
    { assert (1 <= IZR (Zpos p)) by (apply IZR_le; lia).
      change (Zneg p) with (- Zpos p)%Z in EM. rewrite opp_IZR in EM.
      split; nra. }
    cbn [SFabs]. apply SFleb_pos; [done..|].
    change (Zneg p) with (- Zpos p)%Z in EM. rewrite opp_IZR in EM.
    apply Rabs_le_inv in Hv. nra.
Qed.

(** *** Sums of squares *)

Lemma mul_posnormal x :
  normal x → normal (x * x) → posnormal (x * x).
Proof.
  intros (s & m & e & E & _) (s' & m' & e' & E' & D').
  assert (∀ mx ex lx, binary_round_aux prec emax (xorb s s) mx ex lx
            = S754_finite s' m' e' → s' = false) as Hs.
  { intros mx ex lx. unfold binary_round_aux.
    destruct (shr_fexp _ _ _ _ _) as [r1 e1].
    destruct (shr_fexp _ _ _ _ _) as [r2 e2].
    destruct (shr_m r2); try done.
    destruct (_ <=? _)%Z; intros [= <-]; by destruct s. }
  assert (s' = false) as ->.
  { rewrite mul_spec, E in E'. unfold SF64mul, SFmul in E'. eapply Hs, E'. }
  by exists m', e'.
Qed.

Lemma square_approx x :
  small_or_zero x → approx_pos (x * x) (B2R x * B2R x) (pow2 (-52)).
Proof.
  intros [[s E]|[Hn [Hl Hu]]].
  - left. split; [by eapply mul_zero_zero|]. rewrite (B2R_zero x s E). lra.
  - right.
    assert (Rabs (B2R x * B2R x) = B2R x * B2R x) as Eabs
      by (apply Rabs_pos_eq; nra).
    pose proof (pow2_pos (-149)) as Hp.
    assert (pow2 (-149) * pow2 (-149) <= B2R x * B2R x < pow2 128 * pow2 128) as Hsq.
    { assert (B2R x * B2R x = Rabs (B2R x) * Rabs (B2R x)) as ->
        by (by rewrite <- Rabs_mult).
      pose proof (Rabs_pos (B2R x)). split; nra. }
    rewrite <- !pow2_add in Hsq.
    pose proof (pow2_le (-1022) (-149 + -149) ltac:(lia)).
    pose proof (pow2_le (128 + 128) 1023 ltac:(lia)).
    pose proof (pow2_pos (-1022)).
    destruct (mul_rel x x Hn Hn) as [Hn' Hv]; [rewrite Eabs; lra|].
    rewrite Eabs in Hv. split_and!; [by apply mul_posnormal|lra|done].
Qed.

Lemma approx_pos_add a b r t eps :
  0 <= eps → approx_pos a r eps → approx_pos b t eps →
  (1 + eps) * (r + t) < pow2 1023 →
  approx_pos (a + b) (r + t) (eps + pow2 (-52) * (1 + eps)).
Proof.
  intros Heps [[Ea ->]|(Pa & Hr & Ha)] [[Eb ->]|(Pb & Ht & Hb)] Hlim.
  - left. split; [|lra]. by rewrite add_spec, Ea, Eb.
  - right. rewrite add_zero_l by done. rewrite Rplus_0_l.
    pose proof (pow2_pos (-52)). split_and!; [done..|].
    etrans; [exact Hb|].
    assert (0 <= pow2 (-52) * (1 + eps) * t)
      by (apply Rmult_le_pos; [apply Rmult_le_pos|]; lra).
    lra.
  - right. rewrite add_zero_r by done. rewrite Rplus_0_r.
    pose proof (pow2_pos (-52)). split_and!; [done..|].
    etrans; [exact Ha|].
    assert (0 <= pow2 (-52) * (1 + eps) * r)
      by (apply Rmult_le_pos; [apply Rmult_le_pos|]; lra).
    lra.
  - right. pose proof (pow2_pos (-52)) as Hp.
    apply Rabs_le_inv in Ha, Hb.
    pose proof (posnormal_pos a Pa). pose proof (posnormal_pos b Pb).
    destruct (add_rel_pos a b Pa Pb) as [Pab Hab]; [nra|].
    apply Rabs_le_inv in Hab.
    split_and!; [done|lra|]. apply Rabs_le. split; nra.
Qed.

Lemma approx_pos_weaken a r eps eps' :
  eps <= eps' → approx_pos a r eps → approx_pos a r eps'.
Proof.
  intros He [H|(P & Hr & H)]; [by left|right]. split_and!; [done..|].
  etrans; [exact H|]. by apply Rmult_le_compat_r; [lra|].
Qed.

(** *** Bounds on the rounding units *)

Lemma pow2_m52 : pow2 (-52) <= / 1000000000000000.
Proof.
  rewrite pow2_Zneg, <- pow2_IZR by lia.
  change (2 ^ 52)%Z with 4503599627370496%Z. lra.
Qed.

Lemma pow2_m51 : pow2 (-51) <= 2 / 1000000000000000.
Proof.
  pose proof pow2_m52. change (-51)%Z with (1 + -52)%Z.
  rewrite pow2_add, pow2_1. lra.
Qed.

Lemma pow2_m23 : pow2 (-23) <= 12 / 100000000.
Proof.
  rewrite pow2_Zneg, <- pow2_IZR by lia.
  change (2 ^ 23)%Z with 8388608%Z. lra.
Qed.

Lemma pow2_m149 : pow2 (-149) <= / 1000000000000000.
Proof. pose proof (pow2_le (-149) (-52) ltac:(lia)). pose proof pow2_m52. lra. Qed.

(** *** Real-number steps of the error analysis *)

(** A relative error on a positive number is no larger on its square
    root. *)
Lemma sqrt_close V r e :
  0 < r → 0 <= e <= 1 → Rabs (V - r) <= e * r →
  Rabs (R_sqrt.sqrt V - R_sqrt.sqrt r) <= e * R_sqrt.sqrt r.
Proof.
  intros Hr He HV. apply Rabs_le_inv in HV.
  assert (0 <= V) by nra.
  pose proof (sqrt_lt_R0 r Hr) as HA.
  pose proof (sqrt_pos V) as HT.
  pose proof (sqrt_sqrt r ltac:(lra)) as EA.
  pose proof (sqrt_sqrt V ltac:(lra)) as ET.
  set (A := R_sqrt.sqrt r) in *. set (T := R_sqrt.sqrt V) in *.
  apply Rabs_le. split.
  - destruct (Rle_lt_dec (- (e * A)) (T - A)) as [|Hlt]; [done|exfalso].
    assert ((T - A) * (T + A) <= - (e * A) * A); [|nra].
    assert (0 <= e * A) by nra. nra.
  - destruct (Rle_lt_dec (T - A) (e * A)) as [|Hlt]; [done|exfalso].
    assert (e * A * A < (T - A) * (T + A)); [|nra].
    assert (0 <= e * A) by nra. nra.
Qed.

(** The reciprocal of the computed length [L], times the true length [A]. *)
Lemma inverse_close A L I :
  0 < A → Rabs (L - A) <= / 100000000000000 * A →
  Rabs (I - 1 / L) <= pow2 (-51) * (1 / L) →
  0 < L ∧ Rabs (I * A - 1) <= / 10000000000000.
Proof.
  intros HA HL HI. apply Rabs_le_inv in HL.
  assert (0 < L) as HL0 by lra. split; [done|].
  pose proof pow2_m51 as Hu. pose proof (pow2_pos (-51)) as Hp.
  set (u := pow2 (-51)) in *.
  assert (0 < 1 / L) as Hi by (apply Rdiv_lt_0_compat; lra).
  apply Rabs_le_inv in HI.
  assert ((1 - u) <= I * L <= (1 + u)) as [Hl Hh].
  { assert (1 / L * L = 1) as E by (field; lra).
    split; nra. }
  assert (0 < I) by nra.
  apply Rabs_le. split.
  - assert (I * L <= I * (A * (1 + / 100000000000000)))
      by (apply Rmult_le_compat_l; lra).
    lra.
  - assert (I * (A * (1 - / 100000000000000)) <= I * L)
      by (apply Rmult_le_compat_l; lra).
    lra.
Qed.

(** One component: the product [x * inv], rounded to binary64, against the
    exact quotient [w = X / A]. *)
Lemma product_close w c P :
  Rabs (c - 1) <= / 10000000000000 →
  Rabs (P - w * c) <= pow2 (-52) * Rabs (w * c) →
  Rabs (P - w) <= 2 / 10000000000000 * Rabs w.
Proof.
  intros Hc HP.
  pose proof pow2_m52 as H52. pose proof (pow2_pos (-52)).
  set (u := pow2 (-52)) in *.
  apply Rabs_le_inv in Hc.
  rewrite Rabs_mult, (Rabs_pos_eq c) in HP by lra.
  pose proof (Rabs_pos w) as Ha.
  assert (Rabs (w * c - w) <= / 10000000000000 * Rabs w) as Hwc.
  { replace (w * c - w) with (w * (c - 1)) by ring.
    rewrite Rabs_mult, Rmult_comm. apply Rmult_le_compat_r; [done|].
    apply Rabs_le. lra. }
  set (a := Rabs w) in *.
  replace (P - w) with ((P - w * c) + (w * c - w)) by ring.
  etrans; [apply Rabs_triang|].
  assert (u * (a * c) <= / 1000000000000000 * (a * 2)); [|lra].
  apply Rmult_le_compat; nra.
Qed.

Lemma close_bound P w : 
  Rabs (P - w) <= 2 / 10000000000000 * Rabs w →
  Rabs P <= (1 + 2 / 10000000000000) * Rabs w.
Proof.
  intros H. replace P with ((P - w) + w) at 1 by ring.
  etrans; [apply Rabs_triang|]. lra.
Qed.

(** The same product once stored in a [Float32Array]. *)
Lemma component_close w P PX :
  Rabs (P - w) <= 2 / 10000000000000 * Rabs w →
  Rabs (PX - P) <= pow2 (-23) * Rabs P + pow2 (-149) →
  Rabs (PX - w) <= / 8000000 * Rabs w + pow2 (-149).
Proof.
  intros HPw HPX. pose proof (close_bound P w HPw) as HPa.
  pose proof pow2_m23 as H23. pose proof (pow2_pos (-23)).
  pose proof (Rabs_pos w) as Ha.
  replace (PX - w) with ((PX - P) + (P - w)) by ring.
  etrans; [apply Rabs_triang|].
  assert (pow2 (-23) * Rabs P
          <= 12 / 100000000 * ((1 + 2 / 10000000000000) * Rabs w)).
  { apply Rmult_le_compat; [lra|apply Rabs_pos|lra|done]. }
  lra.
Qed.

(** The square of a component. *)
Lemma square_close p w k t :
  0 <= k <= 1 → 0 <= t <= 1 → Rabs w <= 1 →
  Rabs (p - w) <= k * Rabs w + t →
  w * w * ((1 - k) * (1 - k)) - 2 * t <= p * p
  <= w * w * ((1 + k) * (1 + k)) + 5 * t.
Proof.
  intros Hk Ht Hw Hp.
  assert (w * w = Rabs w * Rabs w) as -> by (by rewrite <- Rabs_mult, Rabs_pos_eq by nra).
  assert (p * p = Rabs p * Rabs p) as -> by (by rewrite <- Rabs_mult, Rabs_pos_eq by nra).
  pose proof (Rabs_triang_inv2 p w) as Hi.
  pose proof (Rabs_pos w). pose proof (Rabs_pos p).
  set (a := Rabs w) in *. set (b := Rabs p) in *.
  assert (Rabs (b - a) <= k * a + t) as Hab by lra.
  apply Rabs_le_inv in Hab. clear Hi Hp.
  assert (0 <= k * a) by nra.
  split.
  - destruct (Rle_lt_dec t (a * (1 - k))) as [Hge|Hlt].
    + assert ((a * (1 - k) - t) * (a * (1 - k) - t) <= b * b) by nra.
      assert (a * (1 - k) * t <= 1 * t)
        by (apply Rmult_le_compat_r; nra).
      nra.
    + assert (0 <= a * (1 - k)) by nra.
      assert (a * (1 - k) * (a * (1 - k)) <= t * t) by nra.
      nra.
  - assert (b * b <= (a * (1 + k) + t) * (a * (1 + k) + t)) by nra.
    assert (a * (1 + k) * t <= 2 * t)
      by (apply Rmult_le_compat_r; nra).
    nra.
Qed.

Lemma Rabs_le_1_of_sq w s : 0 <= s → w * w + s = 1 → Rabs w <= 1.
Proof.
  intros Hs E. pose proof (Rle_0_sqr (w - 1)). pose proof (Rle_0_sqr (w + 1)).
  unfold Rsqr in *. apply Rabs_le. split; nra.
Qed.

(** The squared length of the rounded components. *)
Lemma sum_close w1 w2 w3 p1 p2 p3 t :
  w1 * w1 + w2 * w2 + w3 * w3 = 1 → 0 <= t <= / 1000000000000000 →
  Rabs (p1 - w1) <= / 8000000 * Rabs w1 + t →
  Rabs (p2 - w2) <= / 8000000 * Rabs w2 + t →
  Rabs (p3 - w3) <= / 8000000 * Rabs w3 + t →
  Rabs (p1 * p1 + p2 * p2 + p3 * p3 - 1) <= 3 / 10000000.
Proof.
  intros E Ht H1 H2 H3.
  pose proof (Rle_0_sqr w1) as Q1. pose proof (Rle_0_sqr w2) as Q2.
  pose proof (Rle_0_sqr w3) as Q3. unfold Rsqr in Q1, Q2, Q3.
  assert (Rabs w1 <= 1) as B1 by (apply (Rabs_le_1_of_sq _ (w2 * w2 + w3 * w3)); lra).
  assert (Rabs w2 <= 1) as B2 by (apply (Rabs_le_1_of_sq _ (w1 * w1 + w3 * w3)); lra).
  assert (Rabs w3 <= 1) as B3 by (apply (Rabs_le_1_of_sq _ (w1 * w1 + w2 * w2)); lra).
  pose proof (square_close p1 w1 (/ 8000000) t ltac:(lra) ltac:(lra) B1 H1) as S1.
  pose proof (square_close p2 w2 (/ 8000000) t ltac:(lra) ltac:(lra) B2 H2) as S2.
  pose proof (square_close p3 w3 (/ 8000000) t ltac:(lra) ltac:(lra) B3 H3) as S3.
  apply Rabs_le. lra.
Qed.

(** From the squared length to the computed length. *)
Lemma length_close r L :
  Rabs (r - 1) <= 3 / 10000000 →
  Rabs (L - R_sqrt.sqrt r) <= / 100000000000000 * R_sqrt.sqrt r →
  Rabs (L - 1) <= / 200000.
Proof.
  intros Hr HL.
  assert (Rabs (R_sqrt.sqrt r - 1) <= 3 / 10000000) as HA.
  { pose proof (sqrt_close r 1 (3 / 10000000) ltac:(lra) ltac:(lra)) as H.
    rewrite sqrt_1, Rmult_1_r in H. by apply H. }
  apply Rabs_le_inv in HA, HL. apply Rabs_le. lra.
Qed.

(** *** The computed length of a vector *)

Lemma small_or_zero_sq x :
  small_or_zero x → 0 <= B2R x * B2R x < pow2 256.
Proof.
  intros [[s E]|[_ [_ Hu]]].
  - rewrite (B2R_zero x s E). pose proof (pow2_pos 256). lra.
  - assert (B2R x * B2R x = Rabs (B2R x) * Rabs (B2R x)) as ->
      by (by rewrite <- Rabs_mult, Rabs_pos_eq by nra).
    pose proof (Rabs_pos (B2R x)).
    change 256%Z with (128 + 128)%Z. rewrite pow2_add. nra.
Qed.

Lemma sumsq3_approx x y z :
  small_or_zero x → small_or_zero y → small_or_zero z →
  approx_pos (x * x + y * y + z * z)%float
    (B2R x * B2R x + B2R y * B2R y + B2R z * B2R z) (4 / 1000000000000000).
Proof.
  intros Sx Sy Sz.
  pose proof (small_or_zero_sq x Sx). pose proof (small_or_zero_sq y Sy).
  pose proof (small_or_zero_sq z Sz).
  pose proof pow2_m52 as Hu. pose proof (pow2_pos (-52)) as Hp.
  pose proof (pow2_le 258 1023 ltac:(lia)) as Hbig.
  assert (pow2 258 = 4 * pow2 256) as Ebig.
  { change 258%Z with (1 + (1 + 256))%Z. rewrite !pow2_add, pow2_1. lra. }
  assert (pow2 (-52) * pow2 (-52) <= / 1000000000000000 * pow2 (-52))
    by (apply Rmult_le_compat_r; lra).
  assert (0 <= pow2 (-52) * pow2 (-52)) by nra.
  assert (pow2 (-52) * pow2 (-52) * pow2 (-52) <= / 1000000000000000 * (pow2 (-52) * pow2 (-52)))
    by (rewrite Rmult_assoc; apply Rmult_le_compat_r; lra).
  pose proof (approx_pos_add _ _ _ _ (pow2 (-52)) ltac:(lra)
                (square_approx x Sx) (square_approx y Sy)) as Hxy.
  eapply approx_pos_weaken;
    [|apply (approx_pos_add _ _ _ _ (pow2 (-52) + pow2 (-52) * (1 + pow2 (-52)))); [nra|..]].
  - lra.
  - apply Hxy. nra.
  - eapply approx_pos_weaken; [|apply (square_approx z Sz)]. nra.
  - nra.
Qed.

(** The computed length of a non-zero vector is a positive normal number,
    within [10^-14] of the true length. *)
Lemma norm3_approx x y z :
  small_or_zero x → small_or_zero y → small_or_zero z →
  let r := B2R x * B2R x + B2R y * B2R y + B2R z * B2R z in
  0 < r →
  posnormal (norm3 x y z) ∧
  Rabs (B2R (norm3 x y z) - R_sqrt.sqrt r) <= / 100000000000000 * R_sqrt.sqrt r.
Proof.
  intros Sx Sy Sz r Hr.
  destruct (sumsq3_approx x y z Sx Sy Sz) as [[_ E]|(PS & _ & HS)];
    [fold r in E; lra|]. fold r in HS.
  destruct (sqrt_rel _ PS) as [PL HL]. split; [done|].
  pose proof (sqrt_close _ r (4 / 1000000000000000) Hr ltac:(lra) HS) as HT.
  pose proof pow2_m51. pose proof (pow2_pos (-51)).
  pose proof (sqrt_lt_R0 r Hr).
  set (V := B2R (x * x + y * y + z * z)) in *.
  unfold norm3, Math_sqrt. fold V.
  apply Rabs_le_inv in HT, HL.
  assert (R_sqrt.sqrt V <= 2 * R_sqrt.sqrt r) by lra.
  pose proof (sqrt_pos V).
  assert (pow2 (-51) * R_sqrt.sqrt V <= 2 / 1000000000000000 * (2 * R_sqrt.sqrt r))
    by (apply Rmult_le_compat; lra).
  apply Rabs_le. lra.
Qed.

Lemma small_or_zero_cases x :
  small_or_zero x →
  ((x =? 0)%float = true ∧ B2R x = 0) ∨
  ((x =? 0)%float = false ∧ pow2 (-298) <= B2R x * B2R x).
Proof.
  intros [[s E]|[(s & m & e & E & D) [Hl _]]].
  - left. split; [|by eapply B2R_zero].
    rewrite FloatAxioms.eqb_spec, E. by destruct s.
  - right. split.
    + rewrite FloatAxioms.eqb_spec, E. by destruct s.
    + assert (B2R x * B2R x = Rabs (B2R x) * Rabs (B2R x)) as ->
        by (by rewrite <- Rabs_mult, Rabs_pos_eq by nra).
      pose proof (pow2_pos (-149)).
      change (-298)%Z with (-149 + -149)%Z. rewrite pow2_add. nra.
Qed.

(** The squared length of a vector that is not zero. *)
Lemma sumsq3_bounds x y z :
  small_or_zero x → small_or_zero y → small_or_zero z →
  (x =? 0)%float && (y =? 0)%float && (z =? 0)%float = false →
  pow2 (-298) <= B2R x * B2R x + B2R y * B2R y + B2R z * B2R z < pow2 258.
Proof.
  intros Sx Sy Sz Hnz.
  pose proof (small_or_zero_sq x Sx). pose proof (small_or_zero_sq y Sy).
  pose proof (small_or_zero_sq z Sz).
  assert (pow2 258 = 4 * pow2 256) as ->.
  { change 258%Z with (1 + (1 + 256))%Z. rewrite !pow2_add, pow2_1. lra. }
  split; [|lra].
  destruct (small_or_zero_cases x Sx) as [[Ex _]|[_ ?]]; [|lra].
  destruct (small_or_zero_cases y Sy) as [[Ey _]|[_ ?]]; [|lra].
  destruct (small_or_zero_cases z Sz) as [[Ez _]|[_ ?]]; [|lra].
  by rewrite Ex, Ey, Ez in Hnz.
Qed.

Lemma sqrt_pow2_bounds r a b :
  pow2 (a + a) <= r < pow2 (b + b) → pow2 a <= R_sqrt.sqrt r < pow2 b.
Proof.
  rewrite !pow2_add. intros [Hl Hu].
  pose proof (pow2_pos a). pose proof (pow2_pos b).
  assert (0 <= r) by nra.
  pose proof (sqrt_pos r). pose proof (sqrt_sqrt r ltac:(done)).
  split.
  - destruct (Rle_lt_dec (pow2 a) (R_sqrt.sqrt r)); [done|nra].
  - destruct (Rle_lt_dec (pow2 b) (R_sqrt.sqrt r)); [nra|done].
Qed.

(** *** The scaled components *)

Lemma posnormal_1 : posnormal 1.
Proof. by exists (shl 1 52), (-52)%Z. Qed.

Lemma B2R_1 : B2R 1 = 1.
Proof.
  rewrite (posnormal_B2R 1 (shl 1 52) (-52) eq_refl).
  rewrite pow2_Zneg, <- pow2_IZR by lia.
  change (2 ^ 52)%Z with 4503599627370496%Z.
  change (Z.pos (shl 1 52)) with 4503599627370496%Z. field.
Qed.

(** The factor [1 / length], against the true length [A]. *)
Lemma inverse_approx L A :
  posnormal L → pow2 (-149) <= A < pow2 129 →
  Rabs (B2R L - A) <= / 100000000000000 * A →
  posnormal (1 / L) ∧ Rabs (B2R (1 / L) * A - 1) <= / 10000000000000.
Proof.
  intros PL [Hl Hu] HL.
  pose proof (pow2_pos (-149)).
  assert (pow2 (-150) <= B2R L < pow2 130) as [HLl HLu].
  { apply Rabs_le_inv in HL.
    change (-149)%Z with (1 + -150)%Z in Hl. rewrite pow2_add, pow2_1 in Hl.
    change 130%Z with (1 + 129)%Z. rewrite pow2_add, pow2_1.
    pose proof (pow2_pos (-150)). split; lra. }
  pose proof (pow2_pos (-150)).
  destruct (div_rel 1 L posnormal_1 PL) as [PI HI].
  { rewrite B2R_1. apply Rdiv_le_lt_bounds; [lra| |].
    - pose proof (pow2_pos (-1021)).
      assert (pow2 (-1021) * B2R L <= pow2 (-1021) * pow2 130)
        by (apply Rmult_le_compat_l; lra).
      rewrite <- pow2_add in *.
      pose proof (pow2_le (-1021 + 130) 0 ltac:(lia)). rewrite pow2_0 in *. lra.
    - pose proof (pow2_pos 1022).
      assert (pow2 1022 * pow2 (-150) <= pow2 1022 * B2R L)
        by (apply Rmult_le_compat_l; lra).
      rewrite <- pow2_add in *.
      pose proof (pow2_lt 0 (1022 + -150) ltac:(lia)). rewrite pow2_0 in *. lra. }
  split; [done|]. rewrite B2R_1 in HI.
  by apply (inverse_close A (B2R L) _ ltac:(lra) HL HI).
Qed.

Lemma fround_zero v s : Prim2SF v = S754_zero s → fround v = v.
Proof. intros E. unfold fround. by rewrite E. Qed.

(** One component [x], scaled by [inv] and stored: the stored number is
    within [2^-149] and a relative [1/8000000] of [w = X / A]. *)
Lemma component_approx x inv A w :
  small_or_zero x → posnormal inv → pow2 (-149) <= A < pow2 129 →
  Rabs (B2R inv * A - 1) <= / 10000000000000 →
  B2R x = w * A → Rabs w <= 1 →
  small_or_zero (fround (x * inv)) ∧
  Rabs (B2R (fround (x * inv)) - w) <= / 8000000 * Rabs w + pow2 (-149).
Proof.
  intros Sx PI [HAl HAu] Hc Ew Hw.
  pose proof (pow2_pos (-149)) as Ht.
  destruct Sx as [[s E]|[Nx [Hl Hu]]].
  - destruct (mul_zero_l x inv s E (posnormal_normal _ PI)) as [s' E'].
    rewrite (fround_zero _ _ E'), (B2R_zero _ _ E').
    split; [left; by exists s'|].
    rewrite (B2R_zero _ _ E) in Ew.
    assert (w = 0) as -> by nra.
    rewrite Rminus_0_r, Rabs_R0. lra.
  - set (c := B2R inv * A) in *.
    assert (B2R x * B2R inv * A = w * c * A) as Exi by (rewrite Ew; unfold c; ring).
    assert (B2R x * B2R inv = w * c) as Exc by nra.
    apply Rabs_le_inv in Hc.
    assert (pow2 (-278) <= Rabs w) as Hwl.
    { rewrite Ew, Rabs_mult, (Rabs_pos_eq A) in Hl by lra.
      pose proof (Rabs_pos w).
      assert (Rabs w * A <= Rabs w * pow2 129)
        by (apply Rmult_le_compat_l; lra).
      change (-149)%Z with (-278 + 129)%Z in Hl. rewrite pow2_add in Hl.
      pose proof (pow2_pos 129). pose proof (pow2_pos (-278)).
      destruct (Rle_lt_dec (pow2 (-278)) (Rabs w)); [done|nra]. }
    assert (Rabs (w * c) = Rabs w * c) as Eabs
      by (by rewrite Rabs_mult, (Rabs_pos_eq c) by lra).
    destruct (mul_rel x inv Nx (posnormal_normal _ PI)) as [NP HP].
    { rewrite Exc, Eabs.
      pose proof (pow2_le (-1022) (-279) ltac:(lia)).
      pose proof (pow2_le 1 1023 ltac:(lia)). rewrite pow2_1 in *.
      pose proof (pow2_pos (-279)).
      change (-278)%Z with (1 + -279)%Z in Hwl. rewrite pow2_add, pow2_1 in Hwl.
      split; nra. }
    rewrite Exc in HP.
    pose proof (product_close w c _ ltac:(apply Rabs_le; lra) HP) as HPw.
    pose proof (close_bound _ _ HPw) as HPa.
    destruct (fround_rel _ NP) as [Hs HPX].
    { pose proof (pow2_le 1 127 ltac:(lia)). rewrite pow2_1 in *. lra. }
    pose proof (component_close w _ _ HPw HPX) as HF.
    split; [|done].
    destruct Hs as [Hs|[NF HFl]]; [by left|right].
    split_and!; [done..|].
    pose proof (pow2_le 2 128 ltac:(lia)).
    assert (pow2 2 = 4) as E2
      by (change 2%Z with (1 + 1)%Z; rewrite pow2_add, pow2_1; lra).
    pose proof pow2_m149.
    set (PX := B2R (fround (x * inv))) in *.
    replace PX with ((PX - w) + w) by ring.
    eapply Rle_lt_trans; [apply Rabs_triang|]. lra.
Qed.

(** *** Normalisation gives unit length *)

(** For finite binary32 components, not all zero: the length is a positive
    normal number, and the components scaled by [1 / length] and stored have
    a length within [EPSILON] of 1. *)
Lemma normalize3_unit x y z :
  small_or_zero x → small_or_zero y → small_or_zero z →
  (x =? 0)%float && (y =? 0)%float && (z =? 0)%float = false →
  let inv := (1 / norm3 x y z)%float in
  posnormal (norm3 x y z) ∧ posnormal inv ∧
  small_or_zero (fround (x * inv)) ∧ small_or_zero (fround (y * inv)) ∧
  small_or_zero (fround (z * inv)) ∧
  unit_length (norm3 (fround (x * inv)) (fround (y * inv))
                 (fround (z * inv))) = true.
Proof.
  intros Sx Sy Sz Hnz inv.
  pose proof (sumsq3_bounds x y z Sx Sy Sz Hnz) as Hr.
  set (r := B2R x * B2R x + B2R y * B2R y + B2R z * B2R z) in *.
  pose proof (pow2_pos (-298)).
  assert (0 < r) as Hr0 by lra.
  pose proof (sqrt_pow2_bounds r (-149) 129 Hr) as HA.
  pose proof (sqrt_sqrt r ltac:(lra)) as EA.
  set (A := R_sqrt.sqrt r) in *.
  pose proof (pow2_pos (-149)).
  assert (0 < A) as HA0 by lra.
  destruct (norm3_approx x y z Sx Sy Sz Hr0) as [PL HL]. fold r A in HL.
  destruct (inverse_approx _ A PL HA HL) as [PI Hc]. fold inv in PI, Hc.
  set (w1 := B2R x / A). set (w2 := B2R y / A). set (w3 := B2R z / A).
  assert (B2R x = w1 * A) as E1 by (unfold w1; field; lra).
  assert (B2R y = w2 * A) as E2 by (unfold w2; field; lra).
  assert (B2R z = w3 * A) as E3 by (unfold w3; field; lra).
  assert (w1 * w1 + w2 * w2 + w3 * w3 = 1) as Ew.
  { assert ((w1 * w1 + w2 * w2 + w3 * w3) * (A * A) = 1 * (A * A)) as E.
    { replace ((w1 * w1 + w2 * w2 + w3 * w3) * (A * A))
        with (w1 * A * (w1 * A) + w2 * A * (w2 * A) + w3 * A * (w3 * A)) by ring.
      rewrite <- E1, <- E2, <- E3. fold r. lra. }
    apply Rmult_eq_reg_r in E; [done|nra]. }
  pose proof (Rle_0_sqr w1) as Q1. pose proof (Rle_0_sqr w2) as Q2.
  pose proof (Rle_0_sqr w3) as Q3. unfold Rsqr in Q1, Q2, Q3.
  assert (Rabs w1 <= 1) as B1 by (apply (Rabs_le_1_of_sq _ (w2 * w2 + w3 * w3)); lra).
  assert (Rabs w2 <= 1) as B2 by (apply (Rabs_le_1_of_sq _ (w1 * w1 + w3 * w3)); lra).
  assert (Rabs w3 <= 1) as B3 by (apply (Rabs_le_1_of_sq _ (w1 * w1 + w2 * w2)); lra).
  destruct (component_approx x inv A w1 Sx PI HA Hc E1 B1) as [S1 H1].
  destruct (component_approx y inv A w2 Sy PI HA Hc E2 B2) as [S2 H2].
  destruct (component_approx z inv A w3 Sz PI HA Hc E3 B3) as [S3 H3].
  split_and!; [done..|].
  pose proof (sum_close _ _ _ _ _ _ _ Ew
                (conj (Rlt_le _ _ (pow2_pos (-149))) pow2_m149) H1 H2 H3) as Hs.
  destruct (norm3_approx _ _ _ S1 S2 S3) as [PL' HL'].
  { apply Rabs_le_inv in Hs. lra. }
  apply unit_length_of_bound; [done|].
  by eapply length_close.
Qed.

(** Two components: the third square is [+0] and leaves the sum as it is. *)
Lemma sumsq_pad a b :
  small_or_zero a → small_or_zero b →
  (a * a + b * b + 0 * 0)%float = (a * a + b * b)%float.
Proof.
  intros Sa Sb.
  pose proof (small_or_zero_sq a Sa). pose proof (small_or_zero_sq b Sb).
  pose proof pow2_m52. pose proof (pow2_pos (-52)).
  pose proof (pow2_le 258 1023 ltac:(lia)) as Hbig.
  assert (pow2 258 = 4 * pow2 256) as Ebig.
  { change 258%Z with (1 + (1 + 256))%Z. rewrite !pow2_add, pow2_1. lra. }
  change (0 * 0)%float with 0%float.
  destruct (approx_pos_add _ _ _ _ (pow2 (-52)) ltac:(lra)
              (square_approx a Sa) (square_approx b Sb)) as [[E _]|(P & _)];
    [nra| |].
  - apply Prim2SF_inj. by rewrite add_spec, E.
  - by apply add_zero_r.
Qed.

Lemma norm3_pad a b :
  small_or_zero a → small_or_zero b → norm3 a b 0 = norm2 a b.
Proof. intros Sa Sb. unfold norm3, norm2. by rewrite sumsq_pad. Qed.

Lemma small_or_zero_0 : small_or_zero 0.
Proof. left. by exists false. Qed.

Lemma mul_0_posnormal v : posnormal v → (0 * v)%float = 0%float.
Proof.
  intros (m & e & E & _). apply Prim2SF_inj. by rewrite mul_spec, E.
Qed.

Lemma normalize2_unit x y :
  small_or_zero x → small_or_zero y →
  (x =? 0)%float && (y =? 0)%float = false →
  let inv := (1 / norm2 x y)%float in
  posnormal (norm2 x y) ∧
  unit_length (norm2 (fround (x * inv)) (fround (y * inv))) = true.
Proof.
  intros Sx Sy Hnz inv.
  destruct (normalize3_unit x y 0 Sx Sy small_or_zero_0)
    as (PL & PI & S1 & S2 & _ & HU).
  { change (0 =? 0)%float with true. by rewrite andb_true_r. }
  rewrite norm3_pad in PL, PI, HU, S1, S2 by done. fold inv in PI, HU, S1, S2.
  split; [done|].
  by rewrite (mul_0_posnormal _ PI), fround_0, norm3_pad in HU.
Qed.

(** *** The length of a normalised vector *)

Lemma Vector3_length_run (h : store) v a b c :
  h !! v = Some [a; b; c] → Vector3.length v h = Some (norm3 a b c, h).
Proof.
  intros Hv. unfold Vector3.length, Vector3.squaredLength. unfold3. by run.
Qed.

Lemma Vector2_length_run (h : store) v a b :
  h !! v = Some [a; b] → Vector2.length v h = Some (norm2 a b, h).
Proof.
  intros Hv. unfold Vector2.length, Vector2.squaredLength. unfold2. by run.
Qed.

Lemma eqb_1_unit len : (len =? 1)%float = true → unit_length len = true.
Proof.
  rewrite FloatAxioms.eqb_spec. unfold SFeqb. intros H.
  destruct (SFcompare _ _) as [[]|] eqn:E; try done.
  apply SFcompare_Eq in E as [E|(s & s' & _ & E)]; [|done].
  by apply Prim2SF_inj in E as ->.
Qed.

Lemma posnormal_eqb_0 len : posnormal len → (len =? 0)%float = false.
Proof. intros (m & e & E & _). by rewrite FloatAxioms.eqb_spec, E. Qed.

Lemma finite_f32_small c : finite_f32 c → small_or_zero c.
Proof. intros [F H]. by apply f32_cases. Qed.

Lemma normalize3_result_unit x y z :
  finite_f32 x → finite_f32 y → finite_f32 z →
  zero_vector [x; y; z] = false →
  ∃ a b c, normalize3_result x y z = [a; b; c] ∧
           unit_length (norm3 a b c) = true.
Proof.
  intros Fx%finite_f32_small Fy%finite_f32_small Fz%finite_f32_small Hnz.
  destruct (normalize3_unit x y z Fx Fy Fz) as (PL & _ & _ & _ & _ & HU).
  { simpl in Hnz. by rewrite andb_true_r, andb_assoc in Hnz. }
  unfold normalize3_result, normalized3.
  destruct (norm3 x y z =? 1)%float eqn:E1.
  - exists x, y, z. split; [done|]. by apply eqb_1_unit.
  - rewrite (posnormal_eqb_0 _ PL). by eexists _, _, _.
Qed.

Lemma normalize2_result_unit x y :
  finite_f32 x → finite_f32 y → zero_vector [x; y] = false →
  ∃ a b, normalize2_result x y = [a; b] ∧ unit_length (norm2 a b) = true.
Proof.
  intros Fx%finite_f32_small Fy%finite_f32_small Hnz.
  destruct (normalize2_unit x y Fx Fy) as (PL & HU).
  { simpl in Hnz. by rewrite andb_true_r in Hnz. }
  unfold normalize2_result, normalized2.
  destruct (norm2 x y =? 1)%float eqn:E1.
  - exists x, y. split; [done|]. by apply eqb_1_unit.
  - rewrite (posnormal_eqb_0 _ PL). by eexists _, _.
Qed.

Lemma length_after_normalize3_unit (h : store) v x y z :
  h !! v = Some [x; y; z] →
  finite_f32 x → finite_f32 y → finite_f32 z →
  zero_vector [x; y; z] = false →
  ∃ len, fst <$> length_after_normalize3 v h = Some len ∧
         unit_length len = true.
Proof.
  intros Hv Fx Fy Fz Hnz.
  destruct (Vector3_normalize_self h v x y z Hv) as (h' & E & Hl & _).
  rewrite (proj1 Fx), (proj1 Fy), (proj1 Fz) in Hl.
  destruct (normalize3_result_unit x y z Fx Fy Fz Hnz) as (a & b & c & Er & HU).
  rewrite Er in Hl. exists (norm3 a b c). split; [|done].
  unfold length_after_normalize3, mbind, M_bind. rewrite E. simpl.
  by rewrite (Vector3_length_run h' v a b c Hl).
Qed.

Lemma length_after_normalize2_unit (h : store) v x y :
  h !! v = Some [x; y] →
  finite_f32 x → finite_f32 y → zero_vector [x; y] = false →
  ∃ len, fst <$> length_after_normalize2 v h = Some len ∧
         unit_length len = true.
Proof.
  intros Hv Fx Fy Hnz.
  destruct (Vector2_normalize_self h v x y Hv) as (h' & E & Hl & _).
  rewrite (proj1 Fx), (proj1 Fy) in Hl.
  destruct (normalize2_result_unit x y Fx Fy Hnz) as (a & b & Er & HU).
  rewrite Er in Hl. exists (norm2 a b). split; [|done].
  unfold length_after_normalize2, mbind, M_bind. rewrite E. simpl.
  by rewrite (Vector2_length_run h' v a b Hl).
Qed.

(** *** Rounding by value *)

Lemma scaled_eq_shl m e m' e' :
  (e ≤ e')%Z → IZR (Zpos m) * pow2 e = IZR (Zpos m') * pow2 e' →
  m = shl m' (Z.to_nat (e' - e)).
Proof.
  intros Hle E.
  replace e' with (e' - e + e)%Z in E by lia. rewrite pow2_add in E.
  pose proof (pow2_pos e).
  assert (IZR (Zpos m) = IZR (Zpos m') * pow2 (e' - e)) as E' by nra.
  rewrite <- pow2_IZR, <- mult_IZR in E' by lia. apply eq_IZR in E'.
  assert (Zpos m = Zpos (shl m' (Z.to_nat (e' - e)))) as [=]; [|done].
  rewrite shl_Z, Z2Nat.id by lia. done.
Qed.

(** Rounding a number that binary64 holds gives that number. *)
Lemma binary_round_exact s m e mz ez :
  bounded prec emax mz ez = true →
  IZR (Zpos m) * pow2 e = IZR (Zpos mz) * pow2 ez →
  binary_round prec emax s m e = S754_finite s mz ez.
Proof.
  intros Hb E. destruct (Z.le_gt_cases e ez) as [Hle|Hgt].
  - rewrite (scaled_eq_shl m e mz ez Hle E).
    replace e with (ez - Z.of_nat (Z.to_nat (ez - e)))%Z at 2 by lia.
    rewrite binary_round_shl. by apply binary_round_canonical.
  - symmetry in E.
    pose proof (scaled_eq_shl mz ez m e ltac:(lia) E) as Em.
    rewrite <- (binary_round_shl s m e (Z.to_nat (e - ez))), <- Em.
    replace (e - Z.of_nat (Z.to_nat (e - ez)))%Z with ez by lia.
    by apply binary_round_canonical.
Qed.

Lemma valid_bounded s m e :
  valid_binary (S754_finite s m e) = true → bounded prec emax m e = true.
Proof. done. Qed.

(** Two binary64 numbers of the same non-zero value are the same. *)
Lemma SF2R_inj s m e s' m' e' :
  bounded prec emax m e = true → bounded prec emax m' e' = true →
  SF2R (S754_finite s m e) = SF2R (S754_finite s' m' e') →
  S754_finite s m e = S754_finite s' m' e'.
Proof.
  intros Hb Hb' E. rewrite !SF2R_finite in E.
  pose proof (pow2_pos e). pose proof (pow2_pos e').
  assert (0 < IZR (Zpos m)) by (apply IZR_lt; lia).
  assert (0 < IZR (Zpos m')) by (apply IZR_lt; lia).
  assert (0 < IZR (Zpos m) * pow2 e) by nra.
  assert (0 < IZR (Zpos m') * pow2 e') by nra.
  assert (s = s') as <- by (destruct s, s'; simpl in E; try done; lra).
  assert (IZR (Zpos m) * pow2 e = IZR (Zpos m') * pow2 e') as E'
    by (destruct s; simpl in E; lra).
  pose proof (binary_round_exact s m e m' e' Hb' E') as E1.
  by rewrite (binary_round_canonical s m e Hb) in E1.
Qed.


(** *** Exact sums *)

Lemma B2R_finite_ne v s m e : Prim2SF v = S754_finite s m e → B2R v ≠ 0.
Proof.
  intros E. rewrite (normal_B2R v s m e E).
  pose proof (pow2_pos e). assert (0 < IZR (Zpos m)) by (apply IZR_lt; lia).
  assert (0 < IZR (Zpos m) * pow2 e) by nra.
  destruct s; simpl; lra.
Qed.

(** A finite number of value zero is a zero. *)
Lemma B2R_0_zero v :
  isFinite v = true → B2R v = 0 → ∃ s, Prim2SF v = S754_zero s.
Proof.
  intros [H|(s & m & e & E)]%isFinite_cases Hv; [done|].
  by destruct (B2R_finite_ne v s m e E).
Qed.

(** Two finite numbers of the same value are the same, up to the sign of
    zero. *)
Lemma B2R_same u z :
  isFinite u = true → isFinite z = true → B2R u = B2R z → same_number u z.
Proof.
  intros [[s Eu]|(s & m & e & Eu)]%isFinite_cases Hz Ev.
  - right. rewrite (B2R_zero u s Eu) in Ev.
    destruct (B2R_0_zero z Hz) as [s' Ez]; [done|]. by exists s, s'.
  - left. apply isFinite_cases in Hz as [[s' Ez]|(s' & m' & e' & Ez)].
    + rewrite (B2R_zero z s' Ez) in Ev. by destruct (B2R_finite_ne u s m e Eu).
    + apply Prim2SF_inj. rewrite Eu, Ez.
      pose proof (Prim2SF_valid u) as Hu. pose proof (Prim2SF_valid z) as Hv.
      rewrite Eu in Hu. rewrite Ez in Hv.
      apply SF2R_inj; [done..|]. unfold B2R in Ev. by rewrite Eu, Ez in Ev.
Qed.

(** The sum of two finite non-zero numbers is the rounding of an integer
    [M] at the smaller exponent. *)
Lemma add_finite x y sx mx ex sy my ey :
  Prim2SF x = S754_finite sx mx ex → Prim2SF y = S754_finite sy my ey →
  ∃ M, Prim2SF (x + y) = binary_normalize prec emax M (Z.min ex ey) false ∧
       IZR M * pow2 (Z.min ex ey) = B2R x + B2R y.
Proof.
  intros Ex Ey. rewrite add_spec, Ex, Ey. unfold SF64add, SFadd.
  destruct (shl_align_spec mx ex (Z.min ex ey)) as (k1 & E1 & Hk1).
  destruct (shl_align_spec my ey (Z.min ex ey)) as (k2 & E2 & Hk2).
  rewrite E1, E2. cbn [fst]. eexists. split; [done|].
  rewrite (normal_B2R x _ _ _ Ex), (normal_B2R y _ _ _ Ey).
  rewrite plus_IZR, !IZR_cond_Zopp, Rmult_plus_distr_r.
  f_equal.
  - rewrite <- (shl_R mx k1 ex). replace (ex - Z.of_nat k1)%Z with (Z.min ex ey) by lia.
    ring.
  - rewrite <- (shl_R my k2 ey). replace (ey - Z.of_nat k2)%Z with (Z.min ex ey) by lia.
    ring.
Qed.

(** Rounding an integer [M] at exponent [e] whose value a finite number [z]
    has gives [z]. *)
Lemma binary_normalize_exact M e z :
  isFinite z = true → IZR M * pow2 e = B2R z →
  Prim2SF z = binary_normalize prec emax M e false ∨
  (M = 0%Z ∧ ∃ s, Prim2SF z = S754_zero s).
Proof.
  intros Hz E. pose proof (pow2_pos e).
  destruct (isFinite_cases z Hz) as [[s Ez]|(s & m & e' & Ez)].
  - right. rewrite (B2R_zero z s Ez) in E. split; [|by exists s].
    apply eq_IZR. nra.
  - left. pose proof (Prim2SF_valid z) as Hv. rewrite Ez in Hv.
    rewrite (normal_B2R z s m e' Ez) in E.
    pose proof (pow2_pos e').
    assert (0 < IZR (Zpos m)) by (apply IZR_lt; lia).
    assert (0 < IZR (Zpos m) * pow2 e') by nra.
    rewrite Ez. destruct M as [|p|p]; cbn [binary_normalize].
    + destruct s; simpl in E; lra.
    + assert (0 < IZR (Zpos p)) by (apply IZR_lt; lia).
      assert (0 < IZR (Zpos p) * pow2 e) by nra.
      destruct s; simpl in E; [lra|].
      symmetry. apply binary_round_exact; [done|lra].
    + assert (IZR (Zneg p) = - IZR (Zpos p)) as EN by (by rewrite <- opp_IZR).
      assert (0 < IZR (Zpos p)) by (apply IZR_lt; lia).
      assert (0 < IZR (Zpos p) * pow2 e) by nra.
      rewrite EN in E.
      destruct s; simpl in E; [|lra].
      symmetry. apply binary_round_exact; [done|lra].
Qed.

(** When a finite number [z] has the value of the sum, the sum is [z]. *)
Lemma add_exact x y z :
  isFinite x = true → isFinite y = true → isFinite z = true →
  B2R z = B2R x + B2R y → same_number (x + y) z.
Proof.
  intros Hx Hy Hz E.
  destruct (isFinite_cases x Hx) as [[sx Ex]|(sx & mx & ex & Ex)];
    destruct (isFinite_cases y Hy) as [[sy Ey]|(sy & my & ey & Ey)].
  - rewrite (B2R_zero x sx Ex), (B2R_zero y sy Ey), Rplus_0_l in E.
    destruct (B2R_0_zero z Hz E) as [sz Ez]. right.
    exists (if eqb sx sy then sx else false), sz. split; [|done].
    rewrite add_spec, Ex, Ey. by destruct sx, sy.
  - assert ((x + y)%float = y) as ->
      by (apply Prim2SF_inj; by rewrite add_spec, Ex, Ey).
    apply B2R_same; [done..|]. rewrite E, (B2R_zero x sx Ex). lra.
  - assert ((x + y)%float = x) as ->
      by (apply Prim2SF_inj; by rewrite add_spec, Ex, Ey).
    apply B2R_same; [done..|]. rewrite E, (B2R_zero y sy Ey). lra.
  - destruct (add_finite x y _ _ _ _ _ _ Ex Ey) as (M & EM & HM).
    destruct (binary_normalize_exact M (Z.min ex ey) z Hz) as [Ez|[-> [s Ez]]];
      [lra| |].
    + left. apply Prim2SF_inj. by rewrite EM.
    + right. exists false, s. by rewrite EM.
Qed.

(** *** Interpolation at [t = 1] *)

Lemma lerp_1_exact a b :
  isFinite a = true → isFinite b = true → exact_sub a b →
  same_number (a + (b - a)) b.
Proof.
  intros Ha Hb [Hd Ed]. apply add_exact; [done..|]. rewrite Ed. lra.
Qed.




(** *** Finite numbers *)

Lemma is_infinity_spec v :
  is_infinity v = match Prim2SF v with S754_infinity _ => true | _ => false end.
Proof.
  unfold is_infinity. rewrite FloatAxioms.eqb_spec, abs_spec.
  change (Prim2SF infinity) with (S754_infinity false).
  by destruct (Prim2SF v) as [s|s| |s m e].
Qed.

Lemma isFinite_spec v :
  isFinite v = match Prim2SF v with
               | S754_zero _ | S754_finite _ _ _ => true
               | _ => false
               end.
Proof.
  unfold isFinite. rewrite is_nan_spec, is_infinity_spec.
  by destruct (Prim2SF v).
Qed.




(** *** Interpolation at [t = 0.5] *)













(** *** Differences that are exact *)










End Values.

Lemma eqb_0_not_1 (v : number) :
  (v =? 0)%float = true → (v =? 1)%float = false.
Proof.
  rewrite !FloatAxioms.eqb_spec.
  change (Prim2SF 0) with (S754_zero false).
  change (Prim2SF 1) with (S754_finite false (shl 1 52) (-52)).
  destruct (Prim2SF v) as [[]|[]| |[] m e]; done.
Qed.

(** C2, as the code has it.  [normalize] writes into its destination (the
    receiver when none is given) by case on the length of the vector: the
    vector itself, unchanged, at length exactly 1; the zero vector at length
    exactly 0; and otherwise every component scaled by [1 / length] and
    rounded to binary32.  When the components are finite and not all zero,
    the length of the normalised vector is within [EPSILON] of 1; with an
    infinite component it is not: (Infinity, 0, 0) normalises to
    (NaN, 0, 0). *)
Theorem normalize_by_cases
    (h : store) (v d : loc) (x y z dx dy dz : number)
    (w e : loc) (p q ex ey : number) :
  h !! v = Some [x; y; z] → h !! d = Some [dx; dy; dz] →
  h !! w = Some [p; q] → h !! e = Some [ex; ey] →
  is_f32 x → is_f32 y → is_f32 z → is_f32 p → is_f32 q →
  let len3 := norm3 x y z in
  let len2 := norm2 p q in
  (writes_into v (Vector3.normalize v None) h (normalize3_result x y z) ∧
   writes_into d (Vector3.normalize v (Some d)) h (normalize3_result x y z) ∧
   ((len3 =? 1)%float = true → normalize3_result x y z = [x; y; z]) ∧
   ((len3 =? 0)%float = true → normalize3_result x y z = [0; 0; 0]%float) ∧
   ((len3 =? 1)%float = false → (len3 =? 0)%float = false →
    normalize3_result x y z
    = [fround (x * (1 / len3)); fround (y * (1 / len3));
       fround (z * (1 / len3))]%float)) ∧
  (writes_into w (Vector2.normalize w None) h (normalize2_result p q) ∧
   writes_into e (Vector2.normalize w (Some e)) h (normalize2_result p q) ∧
   ((len2 =? 1)%float = true → normalize2_result p q = [p; q]) ∧
   ((len2 =? 0)%float = true → normalize2_result p q = [0; 0]%float) ∧
   ((len2 =? 1)%float = false → (len2 =? 0)%float = false →
    normalize2_result p q
    = [fround (p * (1 / len2)); fround (q * (1 / len2))]%float)) ∧
  (isFinite x = true → isFinite y = true → isFinite z = true →
   zero_vector [x; y; z] = false →
   ∃ len, fst <$> length_after_normalize3 v h = Some len ∧
          unit_length len = true) ∧
  (isFinite p = true → isFinite q = true → zero_vector [p; q] = false →
   ∃ len, fst <$> length_after_normalize2 w h = Some len ∧
          unit_length len = true) ∧
  unit_length <$> (fst <$> normalize3_length infinity 0 0 ∅) = Some false ∧
  unit_length <$> (fst <$> normalize2_length infinity 0 ∅) = Some false.
Proof.
  intros Hv Hd Hw He Fx Fy Fz Fp Fq len3 len2.
  pose proof (Vector3_normalize_self h v x y z Hv) as S3.
  pose proof (Vector3_normalize_into h v x y z Hv d dx dy dz Hd) as I3.
  pose proof (Vector2_normalize_self h w p q Hw) as S2.
  pose proof (Vector2_normalize_into h w p q Hw e ex ey He) as I2.
  rewrite Fx, Fy, Fz in S3, I3. rewrite Fp, Fq in S2, I2.
  split_and!; try done.
  - unfold normalize3_result. fold len3. by intros ->.
  - unfold normalize3_result, normalized3. fold len3.
    intros E. by rewrite (eqb_0_not_1 _ E), E.
  - unfold normalize3_result, normalized3. fold len3. by intros -> ->.
  - unfold normalize2_result. fold len2. by intros ->.
  - unfold normalize2_result, normalized2. fold len2.
    intros E. by rewrite (eqb_0_not_1 _ E), E.
  - unfold normalize2_result, normalized2. fold len2. by intros -> ->.
  - intros Hx Hy Hz Hnz.
    by apply (length_after_normalize3_unit h v x y z Hv).
  - intros Hp Hq Hnz.
    by apply (length_after_normalize2_unit h w p q Hw).
Qed.

Lemma normalize_by_cases_witness :
  writes_into 1%positive (Vector3.normalize 1 None) store0
    (normalize3_result 1 2 3) ∧
  writes_into 4%positive (Vector2.normalize 3 (Some 4%positive)) store0
    (normalize2_result 1 2) ∧
  (∃ len, fst <$> length_after_normalize3 1 store0 = Some len ∧
          unit_length len = true) ∧
  (∃ len, fst <$> length_after_normalize2 3 store0 = Some len ∧
          unit_length len = true).
Proof.
  destruct (normalize_by_cases store0 1 2 1 2 3 4 5 6 3 4 1 2 3 4
              eq_refl eq_refl eq_refl eq_refl
              eq_refl eq_refl eq_refl eq_refl eq_refl)
    as ((N3 & _) & (_ & N2 & _) & U3 & U2 & _).
  split_and!; [exact N3 | exact N2 | |].
  - exact (U3 eq_refl eq_refl eq_refl eq_refl).
  - exact (U2 eq_refl eq_refl eq_refl).
Defined.

(** The vector (Infinity, 0, 0), which [new Vector3(1e39, 0, 0)] makes, is
    not zero, and its normalisation has no length within [EPSILON] of 1; the
    same holds for (Infinity, 0) in [Vector2]. *)
Lemma normalize_infinite_not_unit :
  unit_length <$> (fst <$> normalize3_length 1e39 0 0 ∅) ≠ Some true ∧
  unit_length <$> (fst <$> normalize2_length 1e39 0 ∅) ≠ Some true.
Proof. split; vm_compute; discriminate. Qed.

(** ** Linear interpolation *)

Section Lerp.
Context (h : store) (a b : loc) (t : number).


End Lerp.


(** *** Interpolated vectors *)


Section LerpExact.
Context (h : store) (a b : loc).




End LerpExact.

(** * More of the library *)

(** ** Storing into a [Float32Array] *)

Section Store32.
Local Open Scope Z_scope.

Lemma binary_round_shl_any p em s m e k :
  binary_round p em s (shl m k) (e - Z.of_nat k) = binary_round p em s m e.
Proof.
  unfold binary_round. rewrite digits2_shl.
  replace (Zpos (digits2_pos m) + Z.of_nat k + (e - Z.of_nat k))
    with (Zpos (digits2_pos m) + e) by lia.
  set (f := fexp p em (Zpos (digits2_pos m) + e)).
  destruct (shl_align_spec (shl m k) (e - Z.of_nat k) f) as (k1 & -> & Hk1).
  destruct (shl_align_spec m e f) as (k2 & -> & Hk2).
  rewrite shl_shl.
  assert (∃ j, (k + k1 = k2 + j)%nat) as [j Ej] by (exists (k + k1 - k2)%nat; lia).
  rewrite Ej, <- shl_shl.
  replace (e - Z.of_nat k - Z.of_nat k1) with (e - Z.of_nat k2 - Z.of_nat j) by lia.
  apply binary_round_aux_shl.
  rewrite digits2_shl.
  replace (Zpos (digits2_pos m) + Z.of_nat k2 + (e - Z.of_nat k2))
    with (Zpos (digits2_pos m) + e) by lia.
  fold f. lia.
Qed.

Lemma binary_round_canonical_any p em s m e :
  bounded p em m e = true → binary_round p em s m e = S754_finite s m e.
Proof.
  intros Hb. unfold binary_round.
  pose proof Hb as [Hc _]%andb_true_iff. apply Z.eqb_eq in Hc.
  unfold canonical_mantissa in Hc.
  rewrite Hc. unfold shl_align. rewrite Z.sub_diag.
  by apply binary_round_aux_canonical.
Qed.

(** Rounding to binary32, as a function of the mantissa. *)
Lemma binary_round32_rounded s m e :
  valid_binary (S754_finite s m e) = true →
  let e1 := Z.max (Zpos (digits2_pos m) + e - 24) (-149) in
  binary_round prec32 emax32 s m e
  = round_result 24 128 s (rounded (Zpos m) loc_Exact (e1 - e)) e1.
Proof.
  intros Hv e1. pose proof (valid_le_fexp32 s m e Hv) as He. fold e1 in He.
  unfold binary_round.
  assert (fexp prec32 emax32 (Zpos (digits2_pos m) + e) = e1) as E1
    by (unfold fexp, prec32, emax32, SpecFloat.emin, e1; lia).
  rewrite E1. destruct (shl_align_spec m e e1) as (k & -> & Hk).
  assert (k = 0%nat) as -> by lia. cbn [shl Nat.iter].
  replace (e - Z.of_nat 0) with e by lia.
  destruct (binary_round_aux_rounded prec32 emax32 s (Zpos m) e loc_Exact)
    as (_ & _ & Er); [done|done|cbn [Zdigits2]; rewrite E1; lia|].
  cbn [Zdigits2] in Er. by rewrite E1 in Er.
Qed.

(** The mantissa that rounding to binary32 keeps fills the 24 digits of the
    format, or sits at the smallest exponent. *)
Lemma rounded32_bounds s m e :
  valid_binary (S754_finite s m e) = true →
  let e1 := Z.max (Zpos (digits2_pos m) + e - 24) (-149) in
  let m1 := rounded (Zpos m) loc_Exact (e1 - e) in
  0 ≤ m1 ≤ 2 ^ 24 ∧ (e1 = -149 ∨ 2 ^ 23 ≤ m1).
Proof.
  intros Hv e1 m1. pose proof (valid_le_fexp32 s m e Hv) as He. fold e1 in He.
  destruct (binary_round_aux_rounded prec32 emax32 s (Zpos m) e loc_Exact)
    as (Hm1 & Hm1p & _); [done|done| |].
  { cbn [Zdigits2]. unfold fexp, prec32, emax32, SpecFloat.emin. lia. }
  cbn [Zdigits2] in Hm1, Hm1p.
  assert (fexp prec32 emax32 (Zpos (digits2_pos m) + e) = e1) as E1
    by (unfold fexp, prec32, emax32, SpecFloat.emin, e1; lia).
  rewrite E1 in Hm1, Hm1p. fold m1 in Hm1, Hm1p.
  assert (0 < 2 ^ (e1 - e)) by (apply Z.pow_pos_nonneg; lia).
  assert (0 ≤ Zpos m / 2 ^ (e1 - e)) by (apply Z.div_pos; lia).
  split; [unfold prec32 in Hm1p; lia|].
  destruct (Z.eq_dec e1 (-149)) as [|Hne]; [by left|right].
  assert (e1 - e = Zpos (digits2_pos m) - 24) as Ed by lia.
  pose proof (digits2_bounds m) as [Hl _].
  assert (2 ^ 23 ≤ Zpos m / 2 ^ (e1 - e)); [|lia].
  apply Z.div_le_lower_bound; [done|].
  rewrite Ed, <- Z.pow_add_r by lia.
  replace (Zpos (digits2_pos m) - 24 + 23) with (Zpos (digits2_pos m) - 1) by lia.
  done.
Qed.

(** What [Math.fround] returns for a finite non-zero number: a zero, an
    infinity, or a binary32 number [m2 * 2^e2]. *)
Lemma fround_finite v s m e :
  Prim2SF v = S754_finite s m e →
  fround v = SF2Prim (S754_zero s) ∨ fround v = SF2Prim (S754_infinity s) ∨
  ∃ m2 e2, fround v = SF2Prim (S754_finite s m2 e2) ∧
           bounded prec32 emax32 m2 e2 = true.
Proof.
  intros E. pose proof (Prim2SF_valid v) as Hv. rewrite E in Hv.
  unfold fround. rewrite E, (binary_round32_rounded s m e Hv).
  destruct (rounded32_bounds s m e Hv) as [[Hm0 Hm1] Hd].
  set (e1 := Z.max (Zpos (digits2_pos m) + e - 24) (-149)) in *.
  set (m1 := rounded (Zpos m) loc_Exact (e1 - e)) in *.
  unfold round_result.
  destruct (Z.eqb_spec m1 0) as [E0|N0]; [by left|].
  destruct (Z.eqb_spec m1 (2 ^ 24)) as [Ep|Np].
  - destruct (Z.leb_spec (e1 + 1) (128 - 24)); [|by right; left].
    right. right. eexists _, _. split; [done|].
    unfold bounded, canonical_mantissa. apply andb_true_iff. split.
    + apply Z.eqb_eq. change (Zpos (digits2_pos (Z.to_pos (2 ^ (24 - 1))))) with 24.
      unfold fexp, prec32, emax32, SpecFloat.emin, e1. lia.
    + apply Z.leb_le. unfold prec32, emax32. lia.
  - destruct (Z.leb_spec e1 (128 - 24)); [|by right; left].
    right. right. eexists _, _. split; [done|].
    assert (Zpos (Z.to_pos m1) = m1) as Em by (apply Z2Pos.id; lia).
    assert (Zpos (digits2_pos (Z.to_pos m1)) ≤ 24) as Hle
      by (apply (Zdigits2_le (Zpos (Z.to_pos m1))); lia).
    unfold bounded, canonical_mantissa. apply andb_true_iff. split.
    + apply Z.eqb_eq. unfold fexp, prec32, emax32, SpecFloat.emin.
      destruct Hd as [->|Hd]; [lia|].
      assert (Zpos (digits2_pos (Z.to_pos m1)) = 24); [|unfold e1 in *; lia].
      apply digits2_unique. rewrite Em. change (24 - 1) with 23. lia.
    + apply Z.leb_le. unfold prec32, emax32. lia.
Qed.

(** A binary32 number, read back as a binary64 number. *)
Lemma bounded32_read s m2 e2 :
  bounded prec32 emax32 m2 e2 = true →
  ∃ k, Prim2SF (SF2Prim (S754_finite s m2 e2))
       = S754_finite s (shl m2 k) (e2 - Z.of_nat k).
Proof.
  intros [Hc He]%andb_true_iff. apply Z.eqb_eq in Hc. apply Z.leb_le in He.
  unfold canonical_mantissa, fexp, prec32, emax32, SpecFloat.emin in *.
  pose proof (digits2_bounds m2) as [_ Hu].
  assert (Zpos m2 < 2 ^ 24).
  { eapply Z.lt_le_trans; [exact Hu|]. apply Z.pow_le_mono_r; lia. }
  destruct (Prim2SF_SF2Prim_32 s m2 e2) as (k & E & _); [done|lia|].
  by exists k.
Qed.

(** [Math.fround] is idempotent: what a [Float32Array] holds is stored
    again as it is. *)
Lemma fround_idem v : fround (fround v) = fround v.
Proof.
  destruct (Prim2SF v) as [s|s| |s m e] eqn:E;
    try (unfold fround at 2; rewrite E; unfold fround; by rewrite E).
  destruct (fround_finite v s m e E) as [->|[->|(m2 & e2 & -> & Hb)]].
  - unfold fround. by rewrite Prim2SF_SF2Prim_zero.
  - unfold fround. by rewrite Prim2SF_SF2Prim_infinity.
  - destruct (bounded32_read s m2 e2 Hb) as [k Ek].
    unfold fround at 1. rewrite Ek, binary_round_shl_any.
    by rewrite binary_round_canonical_any.
Qed.

End Store32.

(** ** Exact facts on binary64 arithmetic *)

Section Exact64.
Local Open Scope Z_scope.

Lemma SFopp_involutive x : SFopp (SFopp x) = x.
Proof. destruct x as [s|s| |s m e]; simpl; by rewrite ?negb_involutive. Qed.

Lemma opp_involutive (v : number) : (- - v)%float = v.
Proof. apply Prim2SF_inj. by rewrite !FloatAxioms.opp_spec, SFopp_involutive. Qed.

(** The sign of the number goes through rounding as it is. *)
Lemma binary_round_aux_opp p em s mx ex lx :
  binary_round_aux p em (negb s) mx ex lx
  = SFopp (binary_round_aux p em s mx ex lx).
Proof.
  unfold binary_round_aux.
  destruct (shr_fexp p em mx ex lx) as [mrs e'].
  destruct (shr_fexp p em _ e' loc_Exact) as [mrs' e''].
  destruct (shr_m mrs'); try done. by destruct (_ <=? _).
Qed.

Lemma binary_round_opp p em s m e :
  binary_round p em (negb s) m e = SFopp (binary_round p em s m e).
Proof.
  unfold binary_round. destruct (shl_align m e _) as [mz ez].
  apply binary_round_aux_opp.
Qed.

Lemma SF2Prim_opp x : SF2Prim (SFopp x) = (- SF2Prim x)%float.
Proof.
  destruct x as [[]|[]| |[] m e]; try done; cbn [SFopp negb SF2Prim];
    by rewrite opp_involutive.
Qed.

(** Storing the opposite stores the opposite. *)
Lemma fround_opp v : fround (- v) = (- fround v)%float.
Proof.
  unfold fround. rewrite FloatAxioms.opp_spec.
  destruct (Prim2SF v) as [s|s| |s m e]; try done.
  cbn [SFopp]. by rewrite binary_round_opp, SF2Prim_opp.
Qed.

Lemma add_comm (v w : number) : (v + w)%float = (w + v)%float.
Proof.
  apply Prim2SF_inj. rewrite !add_spec.
  destruct (Prim2SF v) as [[]|[]| |s m e], (Prim2SF w) as [[]|[]| |s' m' e'];
    try done.
  unfold SF64add, SFadd. by rewrite Z.min_comm, Z.add_comm.
Qed.

(** Swapping the operands of a subtraction gives the opposite number, or
    [+0] both ways. *)
Lemma sub_swap (v w : number) :
  (v - w)%float = (- (w - v))%float ∨
  ((v - w)%float = 0%float ∧ (w - v)%float = 0%float).
Proof.
  assert (∀ a b : number, Prim2SF a = Prim2SF b → a = b) as inj
    by (intros; by apply Prim2SF_inj).
  assert (Prim2SF (v - w) = SFopp (Prim2SF (w - v)) ∨
          (Prim2SF (v - w) = S754_zero false ∧ Prim2SF (w - v) = S754_zero false))
    as [E|[E1 E2]].
  { rewrite !sub_spec.
    destruct (Prim2SF v) as [[]|[]| |s m e], (Prim2SF w) as [[]|[]| |s' m' e'];
      try (by left); try (by right).
    - left. by rewrite <- (negb_involutive s) at 1.
    - left. by rewrite <- (negb_involutive s) at 1.
    - unfold SF64sub, SFsub. rewrite (Z.min_comm e' e).
      set (a := cond_Zopp s (Zpos (fst (shl_align m e (Z.min e e'))))).
      set (b := cond_Zopp s' (Zpos (fst (shl_align m' e' (Z.min e e'))))).
      replace (b - a) with (- (a - b)) by lia.
      unfold binary_normalize.
      destruct (a - b) as [|q|q]; [by right|left..].
      + change (- Zpos q) with (Zneg q). cbv iota.
        by rewrite <- (binary_round_opp _ _ true).
      + change (- Zneg q) with (Zpos q). cbv iota.
        by rewrite <- (binary_round_opp _ _ false). }
  - left. apply inj. by rewrite FloatAxioms.opp_spec.
  - right. split; by apply inj.
Qed.

Lemma abs_opp (v : number) : abs (- v) = abs v.
Proof.
  apply Prim2SF_inj. rewrite !abs_spec, FloatAxioms.opp_spec.
  by destruct (Prim2SF v).
Qed.

Lemma abs_sub_swap (v w : number) : abs (v - w) = abs (w - v).
Proof.
  destruct (sub_swap v w) as [->|[-> ->]]; [apply abs_opp|done].
Qed.

Lemma mul_opp_opp (v w : number) : (- v * - w)%float = (v * w)%float.
Proof.
  apply Prim2SF_inj. rewrite !mul_spec, !FloatAxioms.opp_spec.
  destruct (Prim2SF v) as [s|s| |s m e], (Prim2SF w) as [s'|s'| |s' m' e'];
    try done; cbn [SFopp SF64mul SFmul]; by destruct s, s'.
Qed.

Lemma square_sub_swap (v w : number) :
  ((v - w) * (v - w))%float = ((w - v) * (w - v))%float.
Proof.
  destruct (sub_swap v w) as [->|[-> ->]]; [apply mul_opp_opp|done].
Qed.

Lemma mul_opp_l (v w : number) : (- v * w)%float = (- (v * w))%float.
Proof.
  apply Prim2SF_inj. rewrite !FloatAxioms.opp_spec, !mul_spec, FloatAxioms.opp_spec.
  destruct (Prim2SF v) as [s|s| |s m e], (Prim2SF w) as [s'|s'| |s' m' e'];
    try done; cbn [SFopp SF64mul SFmul]; try (by destruct s, s').
  replace (xorb (negb s) s') with (negb (xorb s s')) by (by destruct s, s').
  apply binary_round_aux_opp.
Qed.

Lemma mul_m1_r (v : number) : (v * -1)%float = (- v)%float.
Proof.
  change (-1)%float with (- (1))%float.
  by rewrite (mul_comm v), mul_opp_l, mul_1_l.
Qed.

End Exact64.

(** ** The shape of the store *)

Lemma keeps_refl h : keeps h h.
Proof. split; [|done]. intros o buf E. by exists buf. Qed.

Lemma keeps_trans h1 h2 h3 : keeps h1 h2 → keeps h2 h3 → keeps h1 h3.
Proof.
  intros [L1 W1] [L2 W2]. split; [|by auto].
  intros o buf E. destruct (L1 o buf E) as (buf' & E' & Hl).
  destruct (L2 o buf' E') as (buf'' & E'' & Hl'). exists buf''.
  split; [done|congruence].
Qed.

Lemma preserves_ret {A} (a : A) : preserves (mret a).
Proof. intros h r h' [= _ <-]. apply keeps_refl. Qed.

Lemma preserves_bind {A B} (c : M A) (k : A → M B) :
  preserves c → (∀ a, preserves (k a)) → preserves (c ≫= k).
Proof.
  intros Hc Hk h r h' E. unfold mbind, M_bind in E.
  destruct (c h) as [[a h1]|] eqn:E1; [|done].
  eapply keeps_trans; [by eapply Hc|by eapply Hk].
Qed.

Lemma preserves_getv o i : preserves (getv o i).
Proof.
  intros h r h' E. unfold getv in E. destruct (h !! o); [|done].
  injection E as _ <-. apply keeps_refl.
Qed.

Lemma preserves_setv o i v : preserves (setv o i v).
Proof.
  intros h r h' E. unfold setv in E. destruct (h !! o) as [buf|] eqn:Eo; [|done].
  injection E as _ <-. split.
  - intros o' buf' E'. destruct (decide (o' = o)) as [->|Hne].
    + rewrite lookup_insert_eq. eexists. split; [done|].
      rewrite length_insert. congruence.
    + rewrite lookup_insert_ne by done. by exists buf'.
  - intros W o' buf' E'. destruct (decide (o' = o)) as [->|Hne].
    + rewrite lookup_insert_eq in E'. injection E' as <-.
      apply Forall_insert; [by eapply W|]. apply fround_idem.
    + rewrite lookup_insert_ne in E' by done. by eapply W.
Qed.

Lemma preserves_alloc n : preserves (alloc n).
Proof.
  intros h r h' [= <- <-]. pose proof (fresh_None h) as Hf. split.
  - intros o buf E. exists buf. split; [|done].
    rewrite lookup_insert_ne; [done|]. intros <-. congruence.
  - intros W o buf E. destruct (decide (o = fresh (dom h))) as [->|Hne].
    + rewrite lookup_insert_eq in E. injection E as <-.
      by apply Forall_replicate.
    + rewrite lookup_insert_ne in E by done. by eapply W.
Qed.

Ltac preserves_step :=
  first
    [ apply preserves_ret | apply preserves_getv | apply preserves_setv
    | apply preserves_alloc
    | apply preserves_bind; [|intros ?]
    | match goal with
      | |- preserves (if ?b then _ else _) => destruct b
      | |- preserves (match ?x with _ => _ end) => destruct x
      | |- preserves (let _ := _ in _) => cbv zeta
      end ].

Ltac preserves_all :=
  unfold3; unfold2; unfold Vector3_get_xy, Vector3_set_xy, or_else;
  repeat preserves_step.

(** ** What an operation may change *)

Lemma only_ret {A} w (a : A) : only w (mret a).
Proof. by intros h r h' o [= _ <-] _. Qed.

Lemma only_getv w o i : only w (getv o i).
Proof.
  intros h r h' o' E _. unfold getv in E. destruct (h !! o); [|done].
  by injection E as _ <-.
Qed.

Lemma only_setv o i v : only (Some o) (setv o i v).
Proof.
  intros h r h' o' E Hne. unfold setv in E. destruct (h !! o); [|done].
  injection E as _ <-. apply lookup_insert_ne. congruence.
Qed.

Lemma only_bind {A B} w (c : M A) (k : A → M B) :
  only w c → (∀ a, only w (k a)) → only w (c ≫= k).
Proof.
  intros Hc Hk h r h' o E Hne. unfold mbind, M_bind in E.
  destruct (c h) as [[a h1]|] eqn:E1; [|done].
  rewrite (Hk a h1 r h' o E Hne). by apply (Hc h a h1 o).
Qed.

Lemma only_Reads {A} (c : M A) h r h' :
  only None c → c h = Some (r, h') → h' = h.
Proof. intros Hc E. apply map_eq. intros o. by apply (Hc h r h' o). Qed.

Lemma only_Writes {A} (c : M A) o h r h' :
  only (Some o) c → c h = Some (r, h') → respects (Writes o) h h'.
Proof. intros Hc E o' Hne. apply (Hc h r h' o' E). congruence. Qed.

Lemma allocating_alloc n : allocating (alloc n).
Proof.
  intros h r h' [= <- <-]. split; [apply fresh_None|].
  intros o Hne. by apply lookup_insert_ne.
Qed.

Lemma allocating_bind (c : M loc) (k : loc → M unit) :
  allocating c → (∀ d, only (Some d) (k d)) →
  allocating (d ← c; k d;; mret d).
Proof.
  intros Hc Hk h r h' E. unfold mbind, M_bind in E.
  destruct (c h) as [[d h1]|] eqn:E1; [|done].
  destruct (k d h1) as [[[] h2]|] eqn:E2; [|done].
  injection E as <- <-. destruct (Hc h d h1 E1) as [Hd Hf].
  split; [done|]. intros o Hne.
  rewrite (Hk d h1 tt h2 o E2) by congruence. by apply Hf.
Qed.

Lemma allocating_Allocates {A} (c : M loc) (k : loc → M A) h r h' :
  allocating c → (∀ d, only (Some d) (k d)) →
  (c ≫= k) h = Some (r, h') → respects Allocates h h'.
Proof.
  intros Hc Hk E o [buf Ho]. unfold mbind, M_bind in E.
  destruct (c h) as [[d h1]|] eqn:E1; [|done].
  destruct (Hc h d h1 E1) as [Hd Hf].
  assert (o ≠ d) as Hne by (intros ->; congruence).
  rewrite (Hk d h1 r h' o E) by congruence. by apply Hf.
Qed.

Ltac only_step :=
  first
    [ apply only_ret | apply only_getv | apply only_setv
    | apply only_bind; [|intros ?]
    | match goal with
      | |- only _ (if ?b then _ else _) => destruct b
      | |- only _ (match ?x with _ => _ end) => destruct x
      end ].

Ltac only_all :=
  unfold3; unfold2; unfold Vector3_get_xy, Vector3_set_xy;
  cbv zeta; repeat only_step.

Lemma Vector3_new_allocating p1 p2 p3 : allocating (Vector3.new p1 p2 p3).
Proof.
  unfold Vector3.new. apply allocating_bind; [apply allocating_alloc|].
  intros d. by only_all.
Qed.

Lemma Vector2_new_allocating vs : allocating (Vector2.new vs).
Proof.
  unfold Vector2.new. apply allocating_bind; [apply allocating_alloc|].
  intros d. by only_all.
Qed.

(** An operation with a destination parameter: the body [k] writes into
    the destination only. *)
Lemma effect_of_free {A} dest (new : M loc) (k : loc → M A) h r h' :
  allocating new → (∀ d, only (Some d) (k d)) →
  (or_else dest new ≫= k) h = Some (r, h') →
  respects (effect_of dest Allocates) h h'.
Proof.
  intros Hn Hk E. destruct dest as [d|]; simpl in *.
  - by apply (only_Writes (k d) d h r h').
  - by apply (allocating_Allocates new k h r h').
Qed.

Lemma effect_of_method {A} dest this (k : loc → M A) h r h' :
  (∀ d, only (Some d) (k d)) →
  (or_else dest (mret this) ≫= k) h = Some (r, h') →
  respects (effect_of dest (Writes this)) h h'.
Proof.
  intros Hk E. destruct dest as [d|]; simpl in *.
  - by apply (only_Writes (k d) d h r h').
  - by apply (only_Writes (k this) this h r h').
Qed.

(** X1. Whatever operation of the two classes runs, the store keeps its
    shape: no object disappears, no buffer changes its length, and when
    every component of the store was a binary32 number before, every
    component is one afterwards. *)
Theorem operations_keep_the_store_shape
    {A} (e : effect) (c : M A) (h : store) (r : A) (h' : store) :
  operation e c → c h = Some (r, h') → keeps h h'.
Proof.
  intros Hop. revert h r h'. change (preserves c).
  destruct Hop;
    unfold Vector3.new, Vector3.zero, Vector3.one, Vector3.up, Vector3.down,
      Vector3.right, Vector3.left, Vector3.forward, Vector3.backward,
      Vector3.cross, Vector3.dot, Vector3.squaredDistance, Vector3.distance,
      Vector3.direction, Vector3.lerp, Vector3.sum, Vector3.difference,
      Vector3.product, Vector3.quotient, Vector3.at_, Vector3.reset,
      Vector3.copy, Vector3.negate, Vector3.equals, Vector3.squaredLength,
      Vector3.length, Vector3.add, Vector3.subtract, Vector3.multiply,
      Vector3.divide, Vector3.scale, Vector3.normalize,
      Vector2.new, Vector2.zero,
      Vector2.cross, Vector2.dot, Vector2.squaredDistance, Vector2.distance,
      Vector2.direction, Vector2.lerp, Vector2.sum, Vector2.difference,
      Vector2.product, Vector2.quotient, Vector2.at_, Vector2.reset,
      Vector2.copy, Vector2.negate, Vector2.equals, Vector2.squaredLength,
      Vector2.length, Vector2.add, Vector2.subtract, Vector2.multiply,
      Vector2.divide, Vector2.scale, Vector2.normalize;
    unfold Vector3.new, Vector2.new, Vector3.squaredDistance,
      Vector2.squaredDistance, Vector3.squaredLength, Vector2.squaredLength,
      Vector3.length, Vector3.squaredLength, Vector3.reset, Vector2.reset;
    by preserves_all.
Qed.

Lemma operations_keep_the_store_shape_witness :
  ∃ h', Vector3.add 1 2 None store0 = Some (1%positive, h') ∧
        keeps store0 h'.
Proof.
  destruct (Vector3_add_self store0 1 2 1 2 3 4 5 6 eq_refl eq_refl)
    as (h' & E & _).
  exists h'. split; [exact E|].
  exact (operations_keep_the_store_shape _ _ store0 1%positive h'
           (op3_add 1 2 None) E).
Defined.

Ltac unfold_operations :=
  unfold Vector3.zero, Vector3.one, Vector3.up, Vector3.down,
    Vector3.right, Vector3.left, Vector3.forward, Vector3.backward,
    Vector3.cross, Vector3.dot, Vector3.distance,
    Vector3.direction, Vector3.lerp, Vector3.sum, Vector3.difference,
    Vector3.product, Vector3.quotient, Vector3.at_,
    Vector3.copy, Vector3.negate, Vector3.equals,
    Vector3.length, Vector3.add, Vector3.subtract, Vector3.multiply,
    Vector3.divide, Vector3.scale, Vector3.normalize, Vector2.zero,
    Vector2.cross, Vector2.dot, Vector2.distance,
    Vector2.direction, Vector2.lerp, Vector2.sum, Vector2.difference,
    Vector2.product, Vector2.quotient, Vector2.at_,
    Vector2.copy, Vector2.negate, Vector2.equals,
    Vector2.length, Vector2.add, Vector2.subtract, Vector2.multiply,
    Vector2.divide, Vector2.scale, Vector2.normalize;
  unfold Vector3.squaredDistance, Vector2.squaredDistance,
    Vector3.length, Vector2.length, Vector3.squaredLength,
    Vector2.squaredLength, Vector3.reset, Vector2.reset.

(** X2. No operation changes an object it was not asked to change.  The
    getters, [at], [dot], [distance], [squaredDistance], [length],
    [squaredLength] and [equals] return the store as it was.  A setter and
    [reset] change their receiver only.  An operation with a destination
    changes the destination only; without one, a free function and a
    constructor leave every object of the store as it was, and an instance
    method changes its receiver only. *)
Theorem operations_respect_their_effect
    {A} (e : effect) (c : M A) (h : store) (r : A) (h' : store) :
  operation e c → c h = Some (r, h') → respects e h h'.
Proof.
  intros Hop E. destruct Hop; unfold respects.
  all: try (refine (only_Reads _ h r h' _ E); unfold_operations;
            by only_all).
  all: try (refine (only_Writes _ _ h r h' _ E); unfold_operations;
            by only_all).
  all: try (unfold Vector3.zero, Vector3.one, Vector3.up, Vector3.down,
              Vector3.right, Vector3.left, Vector3.forward, Vector3.backward,
              Vector2.zero in E;
            intros o [buf Ho];
            first [ destruct (Vector3_new_allocating _ _ _ h r h' E) as [Hr Hf]
                  | destruct (Vector2_new_allocating _ h r h' E) as [Hr Hf] ];
            apply Hf; intros ->; congruence).
  all: try (revert E; unfold_operations; fold (respects Allocates h h');
            apply effect_of_free;
            [apply Vector3_new_allocating || apply Vector2_new_allocating|];
            intros ?; by only_all).
  all: try (revert E; unfold_operations; apply effect_of_method;
            intros ?; by only_all).
Qed.

Lemma operations_respect_their_effect_witness :
  ∃ h', Vector3.add 1 2 None store0 = Some (1%positive, h') ∧
        ∀ o, o ≠ 1%positive → h' !! o = store0 !! o.
Proof.
  destruct (Vector3_add_self store0 1 2 1 2 3 4 5 6 eq_refl eq_refl)
    as (h' & E & _).
  exists h'. split; [exact E|].
  exact (operations_respect_their_effect _ _ store0 1%positive h'
           (op3_add 1 2 None) E).
Defined.

(** ** Setters and getters *)

Section Accessors.
Context (h : store) (v w : loc) (x y z p q : number).
Hypothesis Hv : h !! v = Some [x; y; z].
Hypothesis Hw : h !! w = Some [p; q].

Lemma Vector3_set_get_x c :
  (Vector3.set_x v c;; Vector3.get_x v) h
  = Some (fround c, <[v := [fround c; y; z]]> h).
Proof. unfold3. by run. Qed.

Lemma Vector3_set_get_y c :
  (Vector3.set_y v c;; Vector3.get_y v) h
  = Some (fround c, <[v := [x; fround c; z]]> h).
Proof. unfold3. by run. Qed.

Lemma Vector3_set_get_z c :
  (Vector3.set_z v c;; Vector3.get_z v) h
  = Some (fround c, <[v := [x; y; fround c]]> h).
Proof. unfold3. by run. Qed.

Lemma Vector3_set_get_xy cs :
  (Vector3_set_xy v cs;; Vector3_get_xy v) h
  = Some (fround <$> [index cs 0; index cs 1],
          <[v := [fround (index cs 0); fround (index cs 1); z]]> h).
Proof. unfold Vector3_set_xy, Vector3_get_xy. by run. Qed.

Lemma Vector3_set_get_xyz cs :
  (Vector3.set_xyz v cs;; Vector3.get_xyz v) h
  = Some (fround <$> [index cs 0; index cs 1; index cs 2],
          <[v := fround <$> [index cs 0; index cs 1; index cs 2]]> h).
Proof. unfold3. by run. Qed.

Lemma Vector2_set_get_x c :
  (Vector2.set_x w c;; Vector2.get_x w) h
  = Some (fround c, <[w := [fround c; q]]> h).
Proof. unfold2. by run. Qed.

Lemma Vector2_set_get_y c :
  (Vector2.set_y w c;; Vector2.get_y w) h
  = Some (fround c, <[w := [p; fround c]]> h).
Proof. unfold2. by run. Qed.

Lemma Vector2_set_get_xy cs :
  (Vector2.set_xy w cs;; Vector2.get_xy w) h
  = Some (fround <$> [index cs 0; index cs 1],
          <[w := fround <$> [index cs 0; index cs 1]]> h).
Proof. unfold2. by run. Qed.

Lemma Vector3_write_back c :
  (Vector3.set_x v c;; c' ← Vector3.get_x v; Vector3.set_x v c') h
  = Vector3.set_x v c h ∧
  (Vector3.set_y v c;; c' ← Vector3.get_y v; Vector3.set_y v c') h
  = Vector3.set_y v c h ∧
  (Vector3.set_z v c;; c' ← Vector3.get_z v; Vector3.set_z v c') h
  = Vector3.set_z v c h.
Proof. unfold3. split_and!; run; by rewrite fround_idem. Qed.

Lemma Vector2_write_back c :
  (Vector2.set_x w c;; c' ← Vector2.get_x w; Vector2.set_x w c') h
  = Vector2.set_x w c h ∧
  (Vector2.set_y w c;; c' ← Vector2.get_y w; Vector2.set_y w c') h
  = Vector2.set_y w c h.
Proof. unfold2. split_and!; run; by rewrite fround_idem. Qed.

End Accessors.

(** X3. A component read after it was set is the binary32 rounding of the
    value that was set, not the value itself; the other components stay.  A
    component that an array given to [xyz] or [xy] does not have is set to
    NaN.  Setting a component to what was just read from it changes
    nothing. *)
Theorem setters_round_to_binary32
    (h : store) (v w : loc) (x y z p q c : number) (cs : list number) :
  h !! v = Some [x; y; z] → h !! w = Some [p; q] →
  (Vector3.set_x v c;; Vector3.get_x v) h
  = Some (fround c, <[v := [fround c; y; z]]> h) ∧
  (Vector3.set_y v c;; Vector3.get_y v) h
  = Some (fround c, <[v := [x; fround c; z]]> h) ∧
  (Vector3.set_z v c;; Vector3.get_z v) h
  = Some (fround c, <[v := [x; y; fround c]]> h) ∧
  (Vector3_set_xy v cs;; Vector3_get_xy v) h
  = Some (fround <$> [index cs 0; index cs 1],
          <[v := [fround (index cs 0); fround (index cs 1); z]]> h) ∧
  (Vector3.set_xyz v cs;; Vector3.get_xyz v) h
  = Some (fround <$> [index cs 0; index cs 1; index cs 2],
          <[v := fround <$> [index cs 0; index cs 1; index cs 2]]> h) ∧
  (Vector2.set_x w c;; Vector2.get_x w) h
  = Some (fround c, <[w := [fround c; q]]> h) ∧
  (Vector2.set_y w c;; Vector2.get_y w) h
  = Some (fround c, <[w := [p; fround c]]> h) ∧
  (Vector2.set_xy w cs;; Vector2.get_xy w) h
  = Some (fround <$> [index cs 0; index cs 1],
          <[w := fround <$> [index cs 0; index cs 1]]> h) ∧
  (length cs < 3 → index (fround <$> [index cs 0; index cs 1; index cs 2]) 2
                   = nan)%nat ∧
  (Vector3.set_x v c;; c' ← Vector3.get_x v; Vector3.set_x v c') h
  = Vector3.set_x v c h ∧
  (Vector2.set_y w c;; c' ← Vector2.get_y w; Vector2.set_y w c') h
  = Vector2.set_y w c h.
Proof.
  intros Hv Hw. split_and!.
  - by apply (Vector3_set_get_x h v x y z).
  - by apply (Vector3_set_get_y h v x y z).
  - by apply (Vector3_set_get_z h v x y z).
  - by apply (Vector3_set_get_xy h v x y z).
  - by apply (Vector3_set_get_xyz h v x y z).
  - by apply (Vector2_set_get_x h w p q).
  - by apply (Vector2_set_get_y h w p q).
  - by apply (Vector2_set_get_xy h w p q).
  - intros Hl. unfold index at 1 4. simpl.
    by destruct cs as [|? [|? [|? ?]]]; [..|simpl in Hl; lia].
  - by apply (Vector3_write_back h v x y z Hv c).
  - by apply (Vector2_write_back h w p q Hw c).
Qed.

Lemma setters_round_to_binary32_witness :
  (Vector3.set_x 1 0.1;; Vector3.get_x 1) store0
  = Some (fround 0.1, <[1%positive := [fround 0.1; 2; 3]%float]> store0).
Proof.
  exact (proj1 (setters_round_to_binary32 store0 1 3 1 2 3 1 2 0.1 []
                  eq_refl eq_refl)).
Defined.

(** ** Copies, negation and scaling *)

Lemma Forall_f32_3 x y z :
  Forall is_f32 [x; y; z] → fround x = x ∧ fround y = y ∧ fround z = z.
Proof.
  intros F. apply Forall_cons in F as [Fx F].
  apply Forall_cons in F as [Fy F]. by apply Forall_cons in F as [Fz _].
Qed.

Lemma Forall_f32_2 x y : Forall is_f32 [x; y] → fround x = x ∧ fround y = y.
Proof.
  intros F. apply Forall_cons in F as [Fx F].
  by apply Forall_cons in F as [Fy _].
Qed.

Lemma fround_opp_f32 x : fround x = x → fround (- x) = (- x)%float.
Proof. intros E. by rewrite fround_opp, E. Qed.

Section Copy3.
Context (h : store) (v : loc) (x y z : number).
Hypothesis Hv : h !! v = Some [x; y; z].

Lemma Vector3_copy_new :
  allocates (Vector3.copy v None) h (fround <$> [x; y; z]).
Proof.
  eapply allocates_intro; [apply fresh_None|].
  unfold Vector3.copy. unfold3. unfold mbind, M_bind, or_else.
  rewrite Vector3_new_run. pose proof (fresh_ne _ _ _ Hv). by run.
Qed.

Lemma Vector3_copy_into d dx dy dz :
  h !! d = Some [dx; dy; dz] →
  writes_into d (Vector3.copy v (Some d)) h (fround <$> [x; y; z]).
Proof.
  intros Hd. apply writes_into_intro. unfold Vector3.copy. unfold3.
  destruct (decide (d = v)); simplify_eq; unalias; by run.
Qed.

Lemma Vector3_negate_into d dx dy dz :
  h !! d = Some [dx; dy; dz] →
  writes_into d (Vector3.negate v (Some d)) h
    (fround <$> [- x; - y; - z]%float).
Proof.
  intros Hd. apply writes_into_intro. unfold Vector3.negate. unfold3.
  destruct (decide (d = v)); simplify_eq; unalias; by run.
Qed.

Lemma Vector3_negate_run :
  Vector3.negate v None h
  = Some (v, <[v := fround <$> [- x; - y; - z]%float]> h).
Proof. unfold Vector3.negate. unfold3. by run. Qed.

Lemma Vector3_scale_run c :
  Vector3.scale v c None h
  = Some (v, <[v := fround <$> [x * c; y * c; z * c]%float]> h).
Proof. unfold Vector3.scale. unfold3. by run. Qed.

End Copy3.

Section Copy2.
Context (h : store) (v : loc) (x y : number).
Hypothesis Hv : h !! v = Some [x; y].

Lemma Vector2_copy_new :
  allocates (Vector2.copy v None) h (fround <$> [x; y]).
Proof.
  eapply allocates_intro; [apply fresh_None|].
  unfold Vector2.copy. unfold2. unfold mbind, M_bind, or_else.
  rewrite Vector2_new_run. pose proof (fresh_ne _ _ _ Hv). by run.
Qed.

Lemma Vector2_copy_into d dx dy :
  h !! d = Some [dx; dy] →
  writes_into d (Vector2.copy v (Some d)) h (fround <$> [x; y]).
Proof.
  intros Hd. apply writes_into_intro. unfold Vector2.copy. unfold2.
  destruct (decide (d = v)); simplify_eq; unalias; by run.
Qed.

Lemma Vector2_negate_into d dx dy :
  h !! d = Some [dx; dy] →
  writes_into d (Vector2.negate v (Some d)) h (fround <$> [- x; - y]%float).
Proof.
  intros Hd. apply writes_into_intro. unfold Vector2.negate. unfold2.
  destruct (decide (d = v)); simplify_eq; unalias; by run.
Qed.

Lemma Vector2_negate_run :
  Vector2.negate v None h = Some (v, <[v := fround <$> [- x; - y]%float]> h).
Proof. unfold Vector2.negate. unfold2. by run. Qed.

Lemma Vector2_scale_run c :
  Vector2.scale v c None h
  = Some (v, <[v := fround <$> [x * c; y * c]%float]> h).
Proof. unfold Vector2.scale. unfold2. by run. Qed.

End Copy2.

(** X4. [copy] without destination makes a new object with the components
    of its receiver, and the receiver keeps them; the copy compares equal to
    the receiver, whatever the components are.  With a destination, the
    destination gets the components; copying a vector into itself changes
    nothing. *)
Theorem copy_makes_an_equal_vector
    (h : store) (v d w e : loc) (x y z dx dy dz p q ex ey : number) :
  h !! v = Some [x; y; z] → h !! d = Some [dx; dy; dz] →
  h !! w = Some [p; q] → h !! e = Some [ex; ey] →
  Forall is_f32 [x; y; z] → Forall is_f32 [p; q] →
  (allocates (Vector3.copy v None) h [x; y; z] ∧
   writes_into d (Vector3.copy v (Some d)) h [x; y; z] ∧
   Vector3.copy v (Some v) h = Some (v, h) ∧
   fst <$> (r ← Vector3.copy v None; Vector3.equals r v None) h
   = Some true) ∧
  (allocates (Vector2.copy w None) h [p; q] ∧
   writes_into e (Vector2.copy w (Some e)) h [p; q] ∧
   Vector2.copy w (Some w) h = Some (w, h) ∧
   fst <$> (r ← Vector2.copy w None; Vector2.equals r w None) h
   = Some true).
Proof.
  intros Hv Hd Hw He F3 F2.
  destruct (Forall_f32_3 _ _ _ F3) as (Fx & Fy & Fz).
  destruct (Forall_f32_2 _ _ F2) as (Fp & Fq).
  pose proof (Vector3_copy_new h v x y z Hv) as N3.
  pose proof (Vector3_copy_into h v x y z Hv d dx dy dz Hd) as I3.
  pose proof (Vector2_copy_new h w p q Hw) as N2.
  pose proof (Vector2_copy_into h w p q Hw e ex ey He) as I2.
  simpl in N3, I3, N2, I2. rewrite Fx, Fy, Fz in N3, I3.
  rewrite Fp, Fq in N2, I2.
  split; split_and!; try done.
  - unfold Vector3.copy. unfold3. run. rewrite Fx, Fy, Fz.
    by rewrite insert_id.
  - destruct N3 as (r & h' & E & Hr & Hr' & Hf).
    unfold mbind, M_bind at 1. rewrite E.
    assert (v ≠ r) as Hne by (intros ->; congruence).
    rewrite (Vector3_equals_run h' None r v x y z x y z Hr');
      [|by rewrite Hf].
    simpl. by rewrite !close_refl.
  - unfold Vector2.copy. unfold2. run. rewrite Fp, Fq.
    by rewrite insert_id.
  - destruct N2 as (r & h' & E & Hr & Hr' & Hf).
    unfold mbind, M_bind at 1. rewrite E.
    assert (w ≠ r) as Hne by (intros ->; congruence).
    rewrite (Vector2_equals_run h' None r w p q p q Hr');
      [|by rewrite Hf].
    simpl. by rewrite !close_refl.
Qed.

Lemma copy_makes_an_equal_vector_witness :
  allocates (Vector3.copy 1 None) store0 [1; 2; 3]%float ∧
  Vector2.copy 3 (Some 3%positive) store0 = Some (3%positive, store0).
Proof.
  assert (Forall is_f32 [1; 2; 3]%float) as F3
    by (repeat constructor; reflexivity).
  assert (Forall is_f32 [1; 2]%float) as F2
    by (repeat constructor; reflexivity).
  destruct (copy_makes_an_equal_vector store0 1 2 3 4 1 2 3 4 5 6 1 2 3 4
              eq_refl eq_refl eq_refl eq_refl F3 F2)
    as [(N3 & _) (_ & _ & S2 & _)].
  split; [exact N3 | exact S2].
Defined.

(** X5. [negate] works in place when no destination is given: the receiver
    holds the opposite of each component afterwards.  Negating twice gives
    the vector back, whatever its components.  With a destination, the
    opposites go to the destination. *)
Theorem negate_is_an_involution
    (h : store) (v d w e : loc) (x y z dx dy dz p q ex ey : number) :
  h !! v = Some [x; y; z] → h !! d = Some [dx; dy; dz] →
  h !! w = Some [p; q] → h !! e = Some [ex; ey] →
  Forall is_f32 [x; y; z] → Forall is_f32 [p; q] →
  (writes_into v (Vector3.negate v None) h [- x; - y; - z]%float ∧
   writes_into d (Vector3.negate v (Some d)) h [- x; - y; - z]%float ∧
   (Vector3.negate v None;; Vector3.negate v None) h = Some (v, h)) ∧
  (writes_into w (Vector2.negate w None) h [- p; - q]%float ∧
   writes_into e (Vector2.negate w (Some e)) h [- p; - q]%float ∧
   (Vector2.negate w None;; Vector2.negate w None) h = Some (w, h)).
Proof.
  intros Hv Hd Hw He F3 F2.
  destruct (Forall_f32_3 _ _ _ F3) as (Fx & Fy & Fz).
  destruct (Forall_f32_2 _ _ F2) as (Fp & Fq).
  pose proof (Vector3_negate_run h v x y z Hv) as R3.
  pose proof (Vector3_negate_into h v x y z Hv d dx dy dz Hd) as I3.
  pose proof (Vector2_negate_run h w p q Hw) as R2.
  pose proof (Vector2_negate_into h w p q Hw e ex ey He) as I2.
  simpl in R3, I3, R2, I2.
  rewrite (fround_opp_f32 x Fx), (fround_opp_f32 y Fy),
    (fround_opp_f32 z Fz) in R3, I3.
  rewrite (fround_opp_f32 p Fp), (fround_opp_f32 q Fq) in R2, I2.
  split; split_and!; try done.
  - by apply writes_into_intro.
  - unfold mbind, M_bind at 1. rewrite R3.
    erewrite Vector3_negate_run by apply lookup_insert_eq. simpl.
    rewrite !fround_opp, !opp_involutive, Fx, Fy, Fz.
    by rewrite insert_insert_eq, insert_id.
  - by apply writes_into_intro.
  - unfold mbind, M_bind at 1. rewrite R2.
    erewrite Vector2_negate_run by apply lookup_insert_eq. simpl.
    rewrite !fround_opp, !opp_involutive, Fp, Fq.
    by rewrite insert_insert_eq, insert_id.
Qed.

Lemma negate_is_an_involution_witness :
  writes_into 1%positive (Vector3.negate 1 None) store0 [-1; -2; -3]%float ∧
  (Vector2.negate 3 None;; Vector2.negate 3 None) store0
  = Some (3%positive, store0).
Proof.
  assert (Forall is_f32 [1; 2; 3]%float) as F3
    by (repeat constructor; reflexivity).
  assert (Forall is_f32 [1; 2]%float) as F2
    by (repeat constructor; reflexivity).
  destruct (negate_is_an_involution store0 1 2 3 4 1 2 3 4 5 6 1 2 3 4
              eq_refl eq_refl eq_refl eq_refl F3 F2)
    as [(N3 & _) (_ & _ & S2)].
  split; [exact N3 | exact S2].
Defined.

(** ** Computations that agree on every store *)

Lemma bind_ext {A B} (c : M A) (k k' : A → M B) h :
  (∀ a h', k a h' = k' a h') → (c ≫= k) h = (c ≫= k') h.
Proof.
  intros E. unfold mbind, M_bind. by destruct (c h) as [[a h']|].
Qed.

(** Two reads can be done in either order. *)
Lemma getv_comm {A} a i b j (k : number → number → M A) h :
  (x ← getv a i; y ← getv b j; k x y) h
  = (y ← getv b j; x ← getv a i; k x y) h.
Proof.
  unfold mbind, M_bind, getv.
  destruct (h !! a) eqn:Ea, (h !! b) eqn:Eb; cbn beta iota;
    by rewrite ?Ea, ?Eb.
Qed.

(** Reading from two objects, each of which is in the store or not. *)
Ltac read_both h a b :=
  unfold mbind, M_bind, mret, M_ret, getv;
  let la := fresh "la" in let lb := fresh "lb" in
  let Ea := fresh "Ea" in let Eb := fresh "Eb" in
  destruct (h !! a) as [la|] eqn:Ea; destruct (h !! b) as [lb|] eqn:Eb;
  repeat (cbn beta iota; rewrite ?Ea, ?Eb); try done.

Ltac same_steps :=
  repeat (apply bind_ext; intros ? ?).

(** X6. Scaling by [-1] is negation, and scaling by [1] changes nothing:
    [v.scale(-1, dest)] and [v.negate(dest)] return the same object in the
    same store, whatever the store and the destination are. *)
Theorem scale_by_minus_one_is_negate
    (h : store) (v : loc) (dest : option loc) (x y z p q : number) :
  Vector3.scale v (-1) dest h = Vector3.negate v dest h ∧
  Vector2.scale v (-1) dest h = Vector2.negate v dest h ∧
  (h !! v = Some [x; y; z] → Forall is_f32 [x; y; z] →
   Vector3.scale v 1 None h = Some (v, h)) ∧
  (h !! v = Some [p; q] → Forall is_f32 [p; q] →
   Vector2.scale v 1 None h = Some (v, h)).
Proof.
  split_and!.
  - unfold Vector3.scale, Vector3.negate. unfold3.
    same_steps. rewrite mul_m1_r. same_steps. rewrite mul_m1_r.
    same_steps. by rewrite mul_m1_r.
  - unfold Vector2.scale, Vector2.negate. unfold2.
    same_steps. rewrite mul_m1_r. same_steps. by rewrite mul_m1_r.
  - intros Hv F. destruct (Forall_f32_3 _ _ _ F) as (Fx & Fy & Fz).
    rewrite (Vector3_scale_run h v x y z Hv). simpl.
    by rewrite !mul_1_r, Fx, Fy, Fz, insert_id.
  - intros Hv F. destruct (Forall_f32_2 _ _ F) as (Fp & Fq).
    rewrite (Vector2_scale_run h v p q Hv). simpl.
    by rewrite !mul_1_r, Fp, Fq, insert_id.
Qed.

Lemma scale_by_minus_one_is_negate_witness :
  Vector3.scale 1 1 None store0 = Some (1%positive, store0) ∧
  Vector2.scale 3 1 None store0 = Some (3%positive, store0).
Proof.
  assert (Forall is_f32 [1; 2; 3]%float) as F3
    by (repeat constructor; reflexivity).
  assert (Forall is_f32 [1; 2]%float) as F2
    by (repeat constructor; reflexivity).
  destruct (scale_by_minus_one_is_negate store0 1 None 1 2 3 1 2)
    as (_ & _ & S3 & _).
  destruct (scale_by_minus_one_is_negate store0 3 None 1 2 3 1 2)
    as (_ & _ & _ & S2).
  split; [exact (S3 eq_refl F3) | exact (S2 eq_refl F2)].
Defined.

(** X7. The dot product does not depend on the order of its operands, and
    the dot product of a vector with itself is its squared length; both
    hold as computations, on every store. *)
Theorem dot_is_symmetric (h : store) (a b : loc) :
  Vector3.dot a b h = Vector3.dot b a h ∧
  Vector2.dot a b h = Vector2.dot b a h ∧
  Vector3.dot a a h = Vector3.squaredLength a h ∧
  Vector2.dot a a h = Vector2.squaredLength a h.
Proof.
  unfold Vector3.dot, Vector2.dot, Vector3.squaredLength,
    Vector2.squaredLength.
  unfold3. unfold2.
  split_and!; read_both h a b.
  - by rewrite (mul_comm (index la 0)), (mul_comm (index la 1)),
      (mul_comm (index la 2)).
  - by rewrite (mul_comm (index la 0)), (mul_comm (index la 1)).
Qed.

(** X8. The distance between two vectors does not depend on their order,
    squared or not, on every store; and the sum and the product of two
    vectors do not either, whatever the destination is and whatever it
    aliases. *)
Theorem distance_and_sum_are_symmetric
    (h : store) (a b : loc) (dest : option loc) :
  (Vector3.squaredDistance a b h = Vector3.squaredDistance b a h ∧
   Vector3.distance a b h = Vector3.distance b a h ∧
   Vector3.sum a b dest h = Vector3.sum b a dest h ∧
   Vector3.product a b dest h = Vector3.product b a dest h) ∧
  (Vector2.squaredDistance a b h = Vector2.squaredDistance b a h ∧
   Vector2.distance a b h = Vector2.distance b a h ∧
   Vector2.sum a b dest h = Vector2.sum b a dest h ∧
   Vector2.product a b dest h = Vector2.product b a dest h).
Proof.
  assert (Vector3.squaredDistance a b h = Vector3.squaredDistance b a h)
    as S3.
  { unfold Vector3.squaredDistance. unfold3. read_both h a b.
    by rewrite (square_sub_swap (index lb 0)), (square_sub_swap (index lb 1)),
      (square_sub_swap (index lb 2)). }
  assert (Vector2.squaredDistance a b h = Vector2.squaredDistance b a h)
    as S2.
  { unfold Vector2.squaredDistance. unfold2. read_both h a b.
    by rewrite (square_sub_swap (index lb 0)),
      (square_sub_swap (index lb 1)). }
  split; split_and!; try done.
  - unfold Vector3.distance, mbind, M_bind. by rewrite S3.
  - unfold Vector3.sum. unfold3. apply bind_ext. intros d h1.
    rewrite getv_comm. same_steps. rewrite add_comm. apply bind_ext.
    intros ? h2. rewrite getv_comm. same_steps. rewrite add_comm.
    apply bind_ext. intros ? h3. rewrite getv_comm. same_steps.
    by rewrite add_comm.
  - unfold Vector3.product. unfold3. apply bind_ext. intros d h1.
    rewrite getv_comm. same_steps. rewrite mul_comm. apply bind_ext.
    intros ? h2. rewrite getv_comm. same_steps. rewrite mul_comm.
    apply bind_ext. intros ? h3. rewrite getv_comm. same_steps.
    by rewrite mul_comm.
  - unfold Vector2.distance, mbind, M_bind. by rewrite S2.
  - unfold Vector2.sum. unfold2. apply bind_ext. intros d h1.
    rewrite getv_comm. same_steps. rewrite add_comm. apply bind_ext.
    intros ? h2. rewrite getv_comm. same_steps. by rewrite add_comm.
  - unfold Vector2.product. unfold2. apply bind_ext. intros d h1.
    rewrite getv_comm. same_steps. rewrite mul_comm. apply bind_ext.
    intros ? h2. rewrite getv_comm. same_steps. by rewrite mul_comm.
Qed.

(** ** [MathHelper] *)

(** *** The order of numbers *)

Lemma SFcompare_trans x y z :
  (SFcompare x y = Some Lt ∨ SFcompare x y = Some Eq) →
  SFcompare y z = Some Lt → SFcompare x z = Some Lt.
Proof.
  destruct x as [s|s| |s m e], y as [s'|s'| |s' m' e'],
    z as [s''|s''| |s'' m'' e'']; simpl;
    try (by intros [?|?]); try (by destruct s); try (by destruct s');
    try (by destruct s''); try (by destruct s, s'; intros [?|?]);
    try (by destruct s', s''; intros [?|?]);
    try (by destruct s, s''; intros [?|?]);
    try (by destruct s, s', s''; intros [?|?]).
  change (Pos.compare_cont Eq m m') with (Pos.compare m m').
  change (Pos.compare_cont Eq m' m'') with (Pos.compare m' m'').
  change (Pos.compare_cont Eq m m'') with (Pos.compare m m'').
  destruct s, s', s''; try (by intros [?|?]);
    destruct (Z.compare_spec e e'), (Z.compare_spec e' e''),
      (Z.compare_spec e e''); try lia; try (by intros [?|?]);
    destruct (Pos.compare_spec m m'), (Pos.compare_spec m' m''),
      (Pos.compare_spec m m''); try lia; by intros [?|?].
Qed.

Lemma SFcompare_not_nan x y :
  x ≠ S754_nan → y ≠ S754_nan → is_Some (SFcompare x y).
Proof. destruct x, y; simpl; by eauto. Qed.

Lemma Prim2SF_not_nan v : is_nan v = false → Prim2SF v ≠ S754_nan.
Proof. rewrite is_nan_spec. by destruct (Prim2SF v). Qed.

Lemma ltb_irrefl v : (v <? v)%float = false.
Proof.
  rewrite FloatAxioms.ltb_spec. unfold SFltb.
  pose proof (SFcompare_antisym (Prim2SF v) (Prim2SF v)) as E.
  by destruct (SFcompare (Prim2SF v) (Prim2SF v)) as [[]|].
Qed.

(** Of two numbers that are not NaN, one is at most the other. *)
Lemma leb_total v w :
  is_nan v = false → is_nan w = false → (v <? w)%float = false →
  (w <=? v)%float = true.
Proof.
  intros Hv%Prim2SF_not_nan Hw%Prim2SF_not_nan.
  rewrite FloatAxioms.leb_spec, FloatAxioms.ltb_spec. unfold SFleb, SFltb.
  rewrite (SFcompare_antisym (Prim2SF v) (Prim2SF w)).
  destruct (SFcompare_not_nan _ _ Hv Hw) as [c ->]. by destruct c.
Qed.

Lemma leb_refl v : is_nan v = false → (v <=? v)%float = true.
Proof. intros Hv. apply leb_total; [done..|apply ltb_irrefl]. Qed.

Lemma ltb_not_nan v w :
  (v <? w)%float = true → is_nan v = false ∧ is_nan w = false.
Proof. intros E%ltb_leb. by apply leb_not_nan. Qed.

Lemma leb_ltb_trans u v w :
  (u <=? v)%float = true → (v <? w)%float = true → (u <? w)%float = true.
Proof.
  rewrite FloatAxioms.leb_spec, !FloatAxioms.ltb_spec. unfold SFleb, SFltb.
  intros H1 H2.
  rewrite (SFcompare_trans (Prim2SF u) (Prim2SF v) (Prim2SF w)); [done| |].
  - destruct (SFcompare (Prim2SF u) (Prim2SF v)) as [[]|]; auto; done.
  - by destruct (SFcompare (Prim2SF v) (Prim2SF w)) as [[]|].
Qed.

(** *** [clamp] *)

(** X9. [MathHelper.clamp(min, max, value)]: with [min <= max] and a value
    that is not NaN the result lies between the bounds, and a value that
    lies between them is returned as it is; NaN is returned as it is; when
    the bounds are swapped, [max < min], the result is [min] whatever the
    value; and clamping a clamped value changes nothing. *)
Theorem clamp_stays_within_bounds (min max value : number) :
  let r := MathHelper.clamp min max value in
  ((min <=? max)%float = true → is_nan value = false →
   (min <=? r)%float = true ∧ (r <=? max)%float = true) ∧
  ((min <=? value)%float = true → (value <=? max)%float = true →
   r = value) ∧
  (is_nan value = true → r = value) ∧
  ((max <? min)%float = true → is_nan value = false → r = min) ∧
  MathHelper.clamp min max r = r.
Proof.
  unfold MathHelper.clamp. cbv zeta. split_and!.
  - intros Hle Hv. destruct (leb_not_nan _ _ Hle) as [Hmin Hmax].
    destruct (max <? value)%float eqn:E1.
    + rewrite (leb_not_ltb _ _ Hle). split; [done|by apply leb_refl].
    + destruct (value <? min)%float eqn:E2.
      * split; [by apply leb_refl|done].
      * split; by apply leb_total.
  - intros H1 H2. by rewrite (leb_not_ltb _ _ H2), (leb_not_ltb _ _ H1).
  - intros Hv.
    assert ((max <? value)%float = false) as ->.
    { destruct (max <? value)%float eqn:E; [|done].
      destruct (ltb_not_nan _ _ E). congruence. }
    destruct (value <? min)%float eqn:E; [|done].
    destruct (ltb_not_nan _ _ E). congruence.
  - intros Hlt Hv. destruct (ltb_not_nan _ _ Hlt) as [Hmax Hmin].
    destruct (max <? value)%float eqn:E1; [by rewrite Hlt|].
    by rewrite (leb_ltb_trans value max min (leb_total _ _ Hmax Hv E1) Hlt).
  - destruct (max <? value)%float eqn:E1.
    + destruct (max <? min)%float eqn:E2.
      * by rewrite E2, E2.
      * by rewrite ltb_irrefl, E2.
    + destruct (value <? min)%float eqn:E2.
      * destruct (max <? min)%float eqn:E3; [by rewrite E3|].
        by rewrite ltb_irrefl.
      * by rewrite E1, E2.
Qed.

Lemma clamp_stays_within_bounds_witness :
  (0 <=? MathHelper.clamp 0 1 5)%float = true ∧
  (MathHelper.clamp 0 1 5 <=? 1)%float = true ∧
  MathHelper.clamp 1 0 0.5 = 1%float.
Proof.
  destruct (clamp_stays_within_bounds 0 1 5) as (B & _).
  destruct (clamp_stays_within_bounds 1 0 0.5) as (_ & _ & _ & S & _).
  destruct (B eq_refl eq_refl) as [B1 B2].
  split_and!; [exact B1 | exact B2 | exact (S eq_refl eq_refl)].
Defined.

(** *** The sign of a rounded number *)

Section Sign.
Local Open Scope Z_scope.

Lemma shr_nonneg mrs e n :
  0 ≤ shr_m mrs → 0 ≤ shr_m (fst (shr mrs e n)).
Proof.
  intros H. rewrite shr_nat. cbn [fst]. rewrite shr_iter_m by done.
  apply Z.div_pos; lia.
Qed.

(** Rounding a positive mantissa gives a zero, a finite number or an
    infinity, of the sign it was given. *)
Lemma binary_round_aux_sign prec emax s mx ex lx :
  0 < mx →
  match binary_round_aux prec emax s mx ex lx with
  | S754_zero s' | S754_infinity s' | S754_finite s' _ _ => s' = s
  | S754_nan => False
  end.
Proof.
  intros Hmx. unfold binary_round_aux, shr_fexp.
  pose proof (shr_nonneg (shr_record_of_loc mx lx) ex
                (fexp prec emax (Zdigits2 mx + ex) - ex)) as H1.
  destruct (shr _ ex _) as [mrs' e']. cbn [fst] in H1.
  assert (0 ≤ shr_m mrs') as H1' by (apply H1; destruct lx as [|[]]; simpl; lia).
  set (m1 := round_nearest_even (shr_m mrs') (loc_of_shr_record mrs')).
  pose proof (round_nearest_even_bounds (shr_m mrs') (loc_of_shr_record mrs'))
    as Hb. fold m1 in Hb.
  pose proof (shr_nonneg (shr_record_of_loc m1 loc_Exact) e'
                (fexp prec emax (Zdigits2 m1 + e') - e')) as H2.
  destruct (shr _ e' _) as [mrs'' e'']. cbn [fst] in H2.
  assert (0 ≤ shr_m mrs'') as H2' by (apply H2; simpl; lia).
  destruct (shr_m mrs'') as [|p|p]; [done| |lia].
  by destruct (e'' <=? emax - prec).
Qed.

End Sign.

(** The product of a number that is at least zero and a positive finite
    number is at least zero. *)
Lemma mul_nonneg (t M : number) m e :
  (0 <=? t)%float = true → Prim2SF M = S754_finite false m e →
  (0 <=? t * M)%float = true.
Proof.
  rewrite !FloatAxioms.leb_spec, mul_spec. intros Ht ->.
  change (Prim2SF 0) with (S754_zero false) in *.
  destruct (Prim2SF t) as [s|[]| |[] m' e']; try done.
  cbn [SF64mul SFmul xorb].
  pose proof (binary_round_aux_sign prec emax false (Zpos (m' * m))
                (e' + e) loc_Exact eq_refl) as Hs.
  by destruct (binary_round_aux _ _ _ _ _ _) as [[]|[]| |[] ? ?].
Qed.

(** *** [distance] and [equals] *)

Lemma abs_not_below_0 (v : number) : (abs v <? 0)%float = false.
Proof.
  rewrite FloatAxioms.ltb_spec, abs_spec.
  change (Prim2SF 0) with (S754_zero false).
  by destruct (Prim2SF v) as [s|s| |s m e].
Qed.

Lemma sub_not_finite (v : number) :
  isFinite v = false → (v - v)%float = nan.
Proof.
  rewrite isFinite_spec. intros Hv. apply Prim2SF_inj. rewrite sub_spec.
  change (Prim2SF nan) with S754_nan.
  by destruct (Prim2SF v) as [s|[]| |s m e].
Qed.

Lemma sub_diag_cases (v : number) :
  (v - v)%float = if isFinite v then 0%float else nan.
Proof.
  destruct (isFinite v) eqn:E; [by apply sub_diag|by apply sub_not_finite].
Qed.

(** The larger of the three numbers [1], [A] and [B] does not depend on
    the order of [A] and [B]. *)
Lemma larger_swap (A B : number) :
  is_nan A = false → is_nan B = false →
  larger (larger 1 A) B = larger (larger 1 B) A.
Proof.
  intros HA HB. unfold larger.
  destruct (1 <? A)%float eqn:E1, (1 <? B)%float eqn:E2;
    cbn beta iota; rewrite ?E1, ?E2.
  - destruct (A <? B)%float eqn:E3.
    + by rewrite (leb_not_ltb _ _ (ltb_leb _ _ E3)).
    + destruct (B <? A)%float eqn:E4; [done|].
      symmetry. apply eq_of_leb; [by apply leb_total|done|].
      rewrite is_zero_spec. revert E1. rewrite FloatAxioms.ltb_spec.
      change (Prim2SF 1) with (S754_finite false (shl 1 52) (-52)).
      by destruct (Prim2SF A).
  - assert ((A <? B)%float = false) as ->; [|done].
    destruct (A <? B)%float eqn:E3; [|done].
    assert ((1 <? B)%float = true); [|congruence].
    apply (leb_ltb_trans 1 A B); [by apply ltb_leb|done].
  - assert ((B <? A)%float = false) as ->; [|done].
    destruct (B <? A)%float eqn:E3; [|done].
    assert ((1 <? A)%float = true); [|congruence].
    apply (leb_ltb_trans 1 B A); [by apply ltb_leb|done].
  - done.
Qed.

Lemma equals_nan_l a b t : is_nan a = true → MathHelper.equals a b t = false.
Proof.
  intros Ha. unfold MathHelper.equals, Math_abs. cbv zeta.
  apply nan_leb. by apply abs_nan, sub_nan_l.
Qed.

Lemma equals_nan_r a b t : is_nan b = true → MathHelper.equals a b t = false.
Proof.
  intros Hb. unfold MathHelper.equals, Math_abs. cbv zeta.
  apply nan_leb. by apply abs_nan, sub_nan_r.
Qed.

(** X10. [MathHelper.distance] does not depend on the order of its
    arguments and is never below zero; the distance of a number to itself is
    0 for a finite number, and NaN for an infinity. *)
Theorem scalar_distance_is_symmetric (a b : number) :
  MathHelper.distance a b = MathHelper.distance b a ∧
  (MathHelper.distance a b <? 0)%float = false ∧
  MathHelper.distance a a = (if isFinite a then 0 else nan)%float.
Proof.
  unfold MathHelper.distance, Math_abs. split_and!.
  - apply abs_sub_swap.
  - apply abs_not_below_0.
  - rewrite sub_diag_cases. by destruct (isFinite a).
Qed.

(** A number equals itself, at a tolerance that is not negative, exactly
    when it is finite. *)
Lemma scalar_equals_refl (a : number) (t : option number) :
  (0 <=? default MathHelper.EPSILON t)%float = true →
  MathHelper.equals a a t = isFinite a.
Proof.
  intros Ht. unfold MathHelper.equals. cbv zeta.
  destruct (isFinite a) eqn:Hf.
  - assert (is_nan a = false) as Hn.
    { revert Hf. unfold isFinite. by destruct (is_nan a). }
    rewrite (Math_max_larger a a Hn Hn). unfold Math_abs.
    rewrite (sub_diag a Hf). change (abs 0) with 0%float.
    assert (∃ m e, Prim2SF (larger (larger 1 (abs a)) (abs a))
                   = S754_finite false m e) as (m & e & EM).
    { unfold larger. rewrite isFinite_spec in Hf.
      pose proof (abs_spec a) as Ea.
      destruct (1 <? abs a)%float eqn:E1.
      - rewrite ltb_irrefl.
        revert E1. rewrite FloatAxioms.ltb_spec, Ea.
        change (Prim2SF 1) with (S754_finite false (shl 1 52) (-52)).
        destruct (Prim2SF a) as [s|s| |s m e]; try done.
        intros _. simpl in Ea. by eauto.
      - rewrite E1. change (Prim2SF 1)
          with (S754_finite false (shl 1 52) (-52)). by eauto. }
    by apply (mul_nonneg _ _ m e).
  - apply nan_leb. unfold Math_abs. rewrite (sub_not_finite a Hf).
    reflexivity.
Qed.

(** X11. [MathHelper.equals] does not depend on the order of the two
    numbers; it is false when one of them is NaN; and at a tolerance that is
    not negative, the default one for instance, a number equals itself
    exactly when it is finite: an infinity does not equal itself. *)
Theorem scalar_equals_is_symmetric (a b : number) (t : option number) :
  MathHelper.equals a b t = MathHelper.equals b a t ∧
  (is_nan a = true ∨ is_nan b = true → MathHelper.equals a b t = false) ∧
  ((0 <=? default MathHelper.EPSILON t)%float = true →
   MathHelper.equals a a t = isFinite a) ∧
  MathHelper.equals a a None = isFinite a.
Proof.
  split_and!.
  - destruct (is_nan a) eqn:Ha.
    { by rewrite (equals_nan_l a b t Ha), (equals_nan_r b a t Ha). }
    destruct (is_nan b) eqn:Hb.
    { by rewrite (equals_nan_r a b t Hb), (equals_nan_l b a t Hb). }
    unfold MathHelper.equals. cbv zeta.
    rewrite (Math_max_larger a b Ha Hb), (Math_max_larger b a Hb Ha).
    unfold Math_abs. rewrite (abs_sub_swap a b).
    by rewrite (larger_swap (abs a) (abs b))
      by (by apply abs_not_nan).
  - intros [Ha|Hb]; [by apply equals_nan_l|by apply equals_nan_r].
  - apply scalar_equals_refl.
  - by apply (scalar_equals_refl a None).
Qed.

Lemma scalar_equals_is_symmetric_witness :
  MathHelper.equals nan 1 None = false ∧
  MathHelper.equals 3 3 (Some 0.5%float) = isFinite 3.
Proof.
  destruct (scalar_equals_is_symmetric nan 1 None) as (_ & N & _).
  destruct (scalar_equals_is_symmetric 3 3 (Some 0.5%float))
    as (_ & _ & R & _).
  split; [exact (N (or_introl eq_refl)) | exact (R eq_refl)].
Defined.

(** *** [lerp] *)

Lemma sub_finite_r (a b : number) :
  isFinite (b - a) = true → isFinite a = true.
Proof.
  rewrite !isFinite_spec, sub_spec.
  by destruct (Prim2SF b) as [|[]| |], (Prim2SF a) as [|[]| |].
Qed.

Lemma sub_finite_l (a b : number) :
  isFinite (b - a) = true → isFinite b = true.
Proof.
  rewrite !isFinite_spec, sub_spec.
  by destruct (Prim2SF b) as [|[]| |], (Prim2SF a) as [|[]| |].
Qed.

Lemma mul_0_r_finite (d : number) :
  isFinite d = true → ∃ s, Prim2SF (d * 0) = S754_zero s.
Proof.
  rewrite isFinite_spec, mul_spec. change (Prim2SF 0) with (S754_zero false).
  destruct (Prim2SF d) as [s|s| |s m e]; try done; simpl; by eauto.
Qed.

Lemma mul_0_r_not_finite (d : number) :
  isFinite d = false → is_nan (d * 0) = true.
Proof.
  rewrite isFinite_spec, is_nan_spec, mul_spec.
  change (Prim2SF 0) with (S754_zero false).
  by destruct (Prim2SF d) as [s|s| |s m e].
Qed.

Lemma mul_0_l_finite (t : number) :
  isFinite t = true → ∃ s, Prim2SF (0 * t) = S754_zero s.
Proof.
  rewrite isFinite_spec, mul_spec. change (Prim2SF 0) with (S754_zero false).
  destruct (Prim2SF t) as [s|s| |s m e]; try done; simpl; by eauto.
Qed.

Lemma add_nan_r (a z : number) : is_nan z = true → is_nan (a + z) = true.
Proof.
  rewrite !is_nan_spec, add_spec.
  by destruct (Prim2SF a) as [|[]| |], (Prim2SF z) as [|[]| |].
Qed.

(** Adding a zero to a finite number gives the number back. *)
Lemma add_zero_same (a z : number) s :
  isFinite a = true → Prim2SF z = S754_zero s → same_number (a + z) a.
Proof.
  intros Ha Ez. destruct (isFinite_cases a Ha) as [[sa Ea]|(sa & m & e & Ea)].
  - right. exists (if Bool.eqb sa s then sa else false), sa. split; [|done].
    rewrite add_spec, Ea, Ez. by destruct sa, s.
  - left. apply Prim2SF_inj. by rewrite add_spec, Ea, Ez.
Qed.

(** X12. [MathHelper.lerp(min, max, amount)] at its ends.  At amount 0 it
    is [min] when [max - min] is finite, and NaN when it is not, as for an
    infinite [max].  At amount 1 it is [max] when the difference of the two
    finite numbers is computed without rounding.  Between two equal finite
    numbers it is that number, whatever the finite amount. *)
Theorem scalar_lerp_at_its_ends (min max amount : number) :
  (isFinite (max - min) = true →
   same_number (MathHelper.lerp min max 0) min) ∧
  (isFinite (max - min) = false → is_nan (MathHelper.lerp min max 0) = true) ∧
  (isFinite min = true → isFinite max = true → exact_sub min max →
   same_number (MathHelper.lerp min max 1) max) ∧
  (isFinite min = true → isFinite amount = true →
   same_number (MathHelper.lerp min min amount) min).
Proof.
  unfold MathHelper.lerp. split_and!.
  - intros Hd. destruct (mul_0_r_finite _ Hd) as [s Es].
    apply (add_zero_same _ _ s); [|done]. by apply (sub_finite_r min max).
  - intros Hd. by apply add_nan_r, mul_0_r_not_finite.
  - intros Hmin Hmax Hs. rewrite mul_1_r. by apply lerp_1_exact.
  - intros Hmin Ht. rewrite (sub_diag min Hmin).
    destruct (mul_0_l_finite _ Ht) as [s Es].
    by apply (add_zero_same _ _ s).
Qed.

Lemma scalar_lerp_at_its_ends_witness :
  same_number (MathHelper.lerp 2 5 0) 2 ∧
  is_nan (MathHelper.lerp 2 infinity 0) = true ∧
  same_number (MathHelper.lerp 2 5 1) 5 ∧
  same_number (MathHelper.lerp 2 2 0.3) 2.
Proof.
  destruct (scalar_lerp_at_its_ends 2 5 0.3) as (L0 & _ & L1 & _).
  destruct (scalar_lerp_at_its_ends 2 infinity 0.3) as (_ & LN & _).
  destruct (scalar_lerp_at_its_ends 2 2 0.3) as (_ & _ & _ & LE).
  split_and!.
  - exact (L0 eq_refl).
  - exact (LN eq_refl).
  - apply L1; [reflexivity|reflexivity|]. split; [reflexivity|].
    unfold B2R. 
    change (Prim2SF (5 - 2)) with (S754_finite false 6755399441055744 (-51)).
    change (Prim2SF 5) with (S754_finite false 5629499534213120 (-50)).
    change (Prim2SF 2) with (S754_finite false 4503599627370496 (-51)).
    unfold SF2R, pow2. simpl. lra.
  - exact (LE eq_refl eq_refl).
Defined.

(** *** [equals] of vectors *)

Lemma nan_ltb (t v : number) : is_nan t = true → (t <? v)%float = false.
Proof.
  rewrite is_nan_spec, FloatAxioms.ltb_spec. by destruct (Prim2SF t).
Qed.

(** X13. [equals] of two vectors does not depend on their order, whatever
    the threshold and the store are.  At a threshold that is NaN every two
    vectors are equal; at a threshold below zero a vector with a finite
    first component does not even equal itself. *)
Theorem vector_equals_is_symmetric
    (h : store) (a b : loc) (thr : option number) (t : number)
    (ax ay az bx by' bz : number) (c d : loc) (cx cy dx dy : number) :
  Vector3.equals a b thr h = Vector3.equals b a thr h ∧
  Vector2.equals a b thr h = Vector2.equals b a thr h ∧
  (h !! a = Some [ax; ay; az] → h !! b = Some [bx; by'; bz] →
   h !! c = Some [cx; cy] → h !! d = Some [dx; dy] →
   (is_nan t = true →
    Vector3.equals a b (Some t) h = Some (true, h) ∧
    Vector2.equals c d (Some t) h = Some (true, h)) ∧
   ((t <? 0)%float = true → isFinite ax = true → isFinite cx = true →
    Vector3.equals a a (Some t) h = Some (false, h) ∧
    Vector2.equals c c (Some t) h = Some (false, h))).
Proof.
  split_and!.
  - unfold Vector3.equals, Math_abs. unfold3. cbv zeta. read_both h a b.
    rewrite (abs_sub_swap (index la 0)).
    destruct (_ <? abs (index lb 0 - index la 0))%float; [done|].
    repeat (cbn beta iota; rewrite ?Ea, ?Eb).
    rewrite (abs_sub_swap (index la 1)).
    destruct (_ <? abs (index lb 1 - index la 1))%float; [done|].
    repeat (cbn beta iota; rewrite ?Ea, ?Eb).
    by rewrite (abs_sub_swap (index la 2)).
  - unfold Vector2.equals, Math_abs. unfold2. cbv zeta. read_both h a b.
    rewrite (abs_sub_swap (index la 0)).
    destruct (_ <? abs (index lb 0 - index la 0))%float; [done|].
    repeat (cbn beta iota; rewrite ?Ea, ?Eb).
    by rewrite (abs_sub_swap (index la 1)).
  - intros Ha Hb Hc Hd. split.
    + intros Ht.
      rewrite (Vector3_equals_run h (Some t) a b _ _ _ _ _ _ Ha Hb).
      rewrite (Vector2_equals_run h (Some t) c d _ _ _ _ Hc Hd).
      unfold close. cbn [default]. by rewrite !(nan_ltb t _ Ht).
    + intros Ht Fa Fc.
      rewrite (Vector3_equals_run h (Some t) a a _ _ _ _ _ _ Ha Ha).
      rewrite (Vector2_equals_run h (Some t) c c _ _ _ _ Hc Hc).
      unfold close. change (default MathHelper.EPSILON (Some t)) with t.
      rewrite (sub_diag ax Fa), (sub_diag cx Fc).
      change (abs 0) with 0%float. by rewrite Ht.
Qed.

Lemma vector_equals_is_symmetric_witness :
  Vector3.equals 1 2 (Some nan) store0 = Some (true, store0) ∧
  Vector2.equals 3 3 (Some (-1)%float) store0 = Some (false, store0).
Proof.
  destruct (vector_equals_is_symmetric store0 1 2 None nan 1 2 3 4 5 6
              3 4 1 2 3 4) as (_ & _ & H).
  destruct (H eq_refl eq_refl eq_refl eq_refl) as [N _].
  destruct (vector_equals_is_symmetric store0 1 2 None (-1) 1 2 3 4 5 6
              3 4 1 2 3 4) as (_ & _ & H').
  destruct (H' eq_refl eq_refl eq_refl eq_refl) as [_ L].
  split; [exact (proj1 (N eq_refl)) | exact (proj2 (L eq_refl eq_refl eq_refl))].
Defined.

(** ** The length of a vector *)

Section Lengths.
Local Open Scope Z_scope.
Local Open Scope R_scope.

Lemma eqb_0_zero (x : number) :
  (x =? 0)%float = true → ∃ s, Prim2SF x = S754_zero s.
Proof.
  rewrite FloatAxioms.eqb_spec. change (Prim2SF 0) with (S754_zero false).
  destruct (Prim2SF x) as [s|[]| |[] m e]; try done. by eauto.
Qed.

Lemma norm3_zero (x y z : number) :
  (x =? 0)%float = true → (y =? 0)%float = true → (z =? 0)%float = true →
  norm3 x y z = 0%float.
Proof.
  intros [sx Ex]%eqb_0_zero [sy Ey]%eqb_0_zero [sz Ez]%eqb_0_zero.
  apply Prim2SF_inj. unfold norm3, Math_sqrt.
  rewrite sqrt_spec, !add_spec, (mul_zero_zero x sx Ex),
    (mul_zero_zero y sy Ey), (mul_zero_zero z sz Ez).
  reflexivity.
Qed.

(** The length of three finite binary32 numbers: zero for zeros only,
    finite, and within a relative [10^-14] of the exact length. *)
Lemma norm3_accurate (x y z : number) :
  small_or_zero x → small_or_zero y → small_or_zero z →
  let r := B2R x * B2R x + B2R y * B2R y + B2R z * B2R z in
  (norm3 x y z =? 0)%float = zero_vector [x; y; z] ∧
  isFinite (norm3 x y z) = true ∧
  Rabs (B2R (norm3 x y z) - R_sqrt.sqrt r)
  <= / 100000000000000 * R_sqrt.sqrt r.
Proof.
  intros Sx Sy Sz r. unfold zero_vector, forallb.
  destruct ((x =? 0)%float && (y =? 0)%float && (z =? 0)%float) eqn:Z.
  - apply andb_true_iff in Z as [[Zx Zy]%andb_true_iff Zz].
    rewrite (norm3_zero x y z Zx Zy Zz), Zx, Zy, Zz.
    split; [done|]. split; [done|].
    assert (r = 0) as ->.
    { unfold r.
      destruct (small_or_zero_cases x Sx) as [[_ ->]|[? _]]; [|congruence].
      destruct (small_or_zero_cases y Sy) as [[_ ->]|[? _]]; [|congruence].
      destruct (small_or_zero_cases z Sz) as [[_ ->]|[? _]]; [|congruence].
      lra. }
    rewrite sqrt_0. unfold B2R. change (Prim2SF 0) with (S754_zero false).
    simpl. rewrite Rminus_0_r, Rabs_R0. lra.
  - pose proof (sumsq3_bounds x y z Sx Sy Sz Z) as [Hlo _]. fold r in Hlo.
    assert (0 < r) as Hr by (pose proof (pow2_pos (-298)); lra).
    destruct (norm3_approx x y z Sx Sy Sz Hr) as [Hp Hb].
    split; [|split; [|exact Hb]].
    + rewrite (posnormal_eqb_0 _ Hp).
      by destruct (x =? 0)%float, (y =? 0)%float, (z =? 0)%float.
    + destruct Hp as (m & e & E & _). by rewrite isFinite_spec, E.
Qed.

Lemma norm2_accurate (p q : number) :
  small_or_zero p → small_or_zero q →
  let r := B2R p * B2R p + B2R q * B2R q in
  (norm2 p q =? 0)%float = zero_vector [p; q] ∧
  isFinite (norm2 p q) = true ∧
  Rabs (B2R (norm2 p q) - R_sqrt.sqrt r)
  <= / 100000000000000 * R_sqrt.sqrt r.
Proof.
  intros Sp Sq r.
  destruct (norm3_accurate p q 0 Sp Sq small_or_zero_0) as (Hz & Hf & Hb).
  rewrite (norm3_pad p q Sp Sq) in Hz, Hf, Hb.
  assert (B2R p * B2R p + B2R q * B2R q + B2R 0 * B2R 0 = r) as Er.
  { unfold r, B2R at 5 6. change (Prim2SF 0) with (S754_zero false).
    simpl. lra. }
  rewrite Er in Hb. split; [|done].
  rewrite Hz. unfold zero_vector, forallb.
  change (0 =? 0)%float with true. by rewrite !andb_true_r.
Qed.

End Lengths.

(** X14. The length of a vector with finite components is finite and
    within a relative [10^-14] of the exact length: the sum of the squares
    of binary32 numbers neither overflows nor vanishes.  So the length
    compares equal to 0 for the zero vector only, which is what [normalize]
    and [direction] test. *)
Theorem length_is_accurate
    (h : store) (v w : loc) (x y z p q : number) :
  h !! v = Some [x; y; z] → h !! w = Some [p; q] →
  Forall finite_f32 [x; y; z] → Forall finite_f32 [p; q] →
  (∃ len, Vector3.length v h = Some (len, h) ∧
          (len =? 0)%float = zero_vector [x; y; z] ∧
          isFinite len = true ∧
          (Rabs (B2R len - R_sqrt.sqrt (B2R x * B2R x + B2R y * B2R y
                                        + B2R z * B2R z))
           <= / 100000000000000
              * R_sqrt.sqrt (B2R x * B2R x + B2R y * B2R y
                             + B2R z * B2R z))%R) ∧
  (∃ len, Vector2.length w h = Some (len, h) ∧
          (len =? 0)%float = zero_vector [p; q] ∧
          isFinite len = true ∧
          (Rabs (B2R len - R_sqrt.sqrt (B2R p * B2R p + B2R q * B2R q))
           <= / 100000000000000
              * R_sqrt.sqrt (B2R p * B2R p + B2R q * B2R q))%R).
Proof.
  intros Hv Hw F3 F2.
  apply Forall_cons in F3 as [Fx%finite_f32_small F3].
  apply Forall_cons in F3 as [Fy%finite_f32_small F3].
  apply Forall_cons in F3 as [Fz%finite_f32_small _].
  apply Forall_cons in F2 as [Fp%finite_f32_small F2].
  apply Forall_cons in F2 as [Fq%finite_f32_small _].
  split.
  - exists (norm3 x y z). split; [by apply Vector3_length_run|].
    by apply norm3_accurate.
  - exists (norm2 p q). split; [by apply Vector2_length_run|].
    by apply norm2_accurate.
Qed.

Lemma length_is_accurate_witness :
  ∃ len, Vector3.length 1 store0 = Some (len, store0) ∧
         (len =? 0)%float = false ∧ isFinite len = true.
Proof.
  assert (Forall finite_f32 [1; 2; 3]%float) as F3
    by (repeat constructor; reflexivity).
  assert (Forall finite_f32 [1; 2]%float) as F2
    by (repeat constructor; reflexivity).
  destruct (length_is_accurate store0 1 3 1 2 3 1 2 eq_refl eq_refl F3 F2)
    as [(len & E & Hz & Hf & _) _].
  exists len. split_and!; [exact E | exact Hz | exact Hf].
Defined.

(** ** Opposite vectors *)

Lemma eqb_refl (v : number) : is_nan v = false → (v =? v)%float = true.
Proof. unfold is_nan. by destruct (v =? v)%float. Qed.

Lemma opp_nan (v : number) : is_nan (- v) = is_nan v.
Proof. rewrite !is_nan_spec, FloatAxioms.opp_spec. by destruct (Prim2SF v). Qed.

Lemma opposite_opp (w : number) : opposite (- w) w.
Proof.
  destruct (is_nan w) eqn:E.
  - right. by rewrite opp_nan.
  - left. apply eqb_refl. by rewrite opp_nan.
Qed.

Lemma opposite_same_zero (c : number) :
  is_nan c = true ∨ is_zero c = true → opposite c c.
Proof.
  intros [E|E]; [by right|]. left. revert E.
  rewrite is_zero_spec, FloatAxioms.eqb_spec, FloatAxioms.opp_spec.
  by destruct (Prim2SF c) as [[]| | |].
Qed.

Lemma fround_nan_or_zero (c : number) :
  is_nan c = true ∨ is_zero c = true → fround c = c.
Proof.
  rewrite is_nan_spec, is_zero_spec. unfold fround.
  destruct (Prim2SF c); by intros [?|?].
Qed.

Ltac componentwise :=
  repeat match goal with |- Forall2 _ _ _ => constructor end.

(** Rounding to binary32 keeps two opposite differences opposite. *)
Lemma fround_opposite (u w : number) :
  u = (- w)%float ∨ (u = 0%float ∧ w = 0%float) →
  opposite (fround u) (fround w).
Proof.
  intros [->|[-> ->]].
  - rewrite fround_opp. apply opposite_opp.
  - by left.
Qed.

Lemma mul_0_l_cases (l : number) :
  is_nan (0 * l) = true ∨ is_zero (0 * l) = true.
Proof.
  rewrite is_nan_spec, is_zero_spec, mul_spec.
  change (Prim2SF 0) with (S754_zero false).
  destruct (Prim2SF l) as [s|s| |s m e]; simpl; auto.
Qed.

(** The components of the two differences, scaled by the same number. *)
Lemma scaled_opposite (v w l : number) :
  opposite (fround ((v - w) * l)) (fround ((w - v) * l)).
Proof.
  destruct (sub_swap v w) as [->|[-> ->]].
  - rewrite mul_opp_l, fround_opp. apply opposite_opp.
  - rewrite (fround_nan_or_zero _ (mul_0_l_cases l)).
    apply opposite_same_zero, mul_0_l_cases.
Qed.

Lemma norm3_swap ax ay az bx by' bz :
  norm3 (ax - bx) (ay - by') (az - bz) = norm3 (bx - ax) (by' - ay) (bz - az).
Proof.
  unfold norm3.
  by rewrite (square_sub_swap ax), (square_sub_swap ay), (square_sub_swap az).
Qed.

Lemma norm2_swap ax ay bx by' :
  norm2 (ax - bx) (ay - by') = norm2 (bx - ax) (by' - ay).
Proof.
  unfold norm2. by rewrite (square_sub_swap ax), (square_sub_swap ay).
Qed.

Lemma normalized3_opposite ax ay az bx by' bz :
  Forall2 opposite
    (fround <$> normalized3 (ax - bx) (ay - by') (az - bz))
    (fround <$> normalized3 (bx - ax) (by' - ay) (bz - az)).
Proof.
  unfold normalized3. rewrite (norm3_swap ax ay az).
  destruct (_ =? 0)%float; simpl.
  - componentwise; by left.
  - componentwise; apply scaled_opposite.
Qed.

Lemma normalized2_opposite ax ay bx by' :
  Forall2 opposite
    (fround <$> normalized2 (ax - bx) (ay - by'))
    (fround <$> normalized2 (bx - ax) (by' - ay)).
Proof.
  unfold normalized2. rewrite (norm2_swap ax ay).
  destruct (_ =? 0)%float; simpl.
  - componentwise; by left.
  - componentwise; apply scaled_opposite.
Qed.

(** X15. Swapping the operands of [direction] gives the opposite vector:
    each component of [direction(b, a)] is the opposite of the component of
    [direction(a, b)], or both are NaN. *)
Theorem direction_is_antisymmetric
    (h : store) (a b : loc) (ax ay az bx by' bz : number)
    (c d : loc) (cx cy dx dy : number) :
  h !! a = Some [ax; ay; az] → h !! b = Some [bx; by'; bz] →
  h !! c = Some [cx; cy] → h !! d = Some [dx; dy] →
  (∃ u w, allocates (Vector3.direction a b None) h u ∧
          allocates (Vector3.direction b a None) h w ∧
          Forall2 opposite u w) ∧
  (∃ u w, allocates (Vector2.direction c d None) h u ∧
          allocates (Vector2.direction d c None) h w ∧
          Forall2 opposite u w).
Proof.
  intros Ha Hb Hc Hd. split.
  - eexists _, _. split_and!.
    + by apply (Vector3_direction_new h a b ax ay az bx by' bz).
    + by apply (Vector3_direction_new h b a bx by' bz ax ay az).
    + apply normalized3_opposite.
  - eexists _, _. split_and!.
    + by apply (Vector2_direction_new h c d cx cy dx dy).
    + by apply (Vector2_direction_new h d c dx dy cx cy).
    + apply normalized2_opposite.
Qed.

Lemma direction_is_antisymmetric_witness :
  ∃ u w, allocates (Vector3.direction 1 2 None) store0 u ∧
         allocates (Vector3.direction 2 1 None) store0 w ∧
         Forall2 opposite u w.
Proof.
  exact (proj1 (direction_is_antisymmetric store0 1 2 1 2 3 4 5 6
                  3 4 1 2 3 4 eq_refl eq_refl eq_refl eq_refl)).
Defined.

(** ** Cross products of swapped and of equal operands *)

Lemma cross_component_opposite (p q r s : number) :
  opposite (fround (p * q - r * s)) (fround (s * r - q * p)).
Proof.
  rewrite (mul_comm s r), (mul_comm q p). apply fround_opposite.
  apply sub_swap.
Qed.

Section Products.
Local Open Scope R_scope.

(** The product of two finite binary32 numbers is finite. *)
Lemma mul_small_finite (x y : number) :
  small_or_zero x → small_or_zero y → isFinite (x * y) = true.
Proof.
  intros [[s Ex]|[Nx [Lx Ux]]] Sy.
  - rewrite isFinite_spec, mul_spec, Ex.
    destruct Sy as [[s' ->]|[(s' & m & e & -> & _) _]]; done.
  - destruct Sy as [[s' Ey]|[Ny [Ly Uy]]].
    + rewrite isFinite_spec, mul_spec, Ey.
      destruct Nx as (s & m & e & -> & _). done.
    + assert (pow2 (-1022) <= Rabs (B2R x * B2R y) < pow2 1023) as Hr.
      { rewrite Rabs_mult.
        pose proof (pow2_pos (-149)) as P.
        pose proof (Rabs_pos (B2R x)). pose proof (Rabs_pos (B2R y)).
        split.
        - apply Rle_trans with (pow2 (-149) * pow2 (-149)).
          + rewrite <- pow2_add. apply pow2_le. lia.
          + apply Rmult_le_compat; lra.
        - apply Rlt_le_trans with (pow2 128 * pow2 128).
          + apply Rmult_le_0_lt_compat; lra.
          + rewrite <- pow2_add. apply pow2_le. lia. }
      destruct (mul_rel x y Nx Ny Hr) as [(s & m & e & E & _) _].
      by rewrite isFinite_spec, E.
Qed.

End Products.

Lemma cross_component_self (p q : number) :
  finite_f32 p → finite_f32 q → fround (p * q - q * p) = 0%float.
Proof.
  intros Fp%finite_f32_small Fq%finite_f32_small.
  rewrite (mul_comm q p), sub_diag; [done|]. by apply mul_small_finite.
Qed.

(** X16. The cross product changes sign when its operands are swapped:
    each component of [cross(b, a)] is the opposite of the component of
    [cross(a, b)], or both are NaN.  The cross product of a vector with
    finite components with itself is the zero vector. *)
Theorem cross_is_antisymmetric
    (h : store) (a b : loc) (ax ay az bx by' bz : number)
    (c d : loc) (cx cy dx dy : number) :
  h !! a = Some [ax; ay; az] → h !! b = Some [bx; by'; bz] →
  h !! c = Some [cx; cy] → h !! d = Some [dx; dy] →
  (∃ u w, allocates (Vector3.cross a b None) h u ∧
          allocates (Vector3.cross b a None) h w ∧
          Forall2 opposite u w) ∧
  (∃ u w, allocates (Vector2.cross c d None) h u ∧
          allocates (Vector2.cross d c None) h w ∧
          Forall2 opposite u w) ∧
  (Forall finite_f32 [ax; ay; az] →
   allocates (Vector3.cross a a None) h [0; 0; 0]%float) ∧
  (Forall finite_f32 [cx; cy] →
   allocates (Vector2.cross c c None) h [0; 0; 0]%float).
Proof.
  intros Ha Hb Hc Hd. split_and!.
  - eexists _, _. split_and!.
    + by apply (Vector3_cross_new h a b ax ay az bx by' bz).
    + by apply (Vector3_cross_new h b a bx by' bz ax ay az).
    + componentwise; apply cross_component_opposite.
  - eexists _, _. split_and!.
    + by apply (Vector2_cross_new h c d cx cy dx dy).
    + by apply (Vector2_cross_new h d c dx dy cx cy).
    + componentwise; [by left|by left|apply cross_component_opposite].
  - intros F. apply Forall_cons in F as [Fx F].
    apply Forall_cons in F as [Fy F]. apply Forall_cons in F as [Fz _].
    pose proof (Vector3_cross_new h a a ax ay az ax ay az Ha Ha) as C.
    by rewrite !cross_component_self in C.
  - intros F. apply Forall_cons in F as [Fx F].
    apply Forall_cons in F as [Fy _].
    pose proof (Vector2_cross_new h c c cx cy cx cy Hc Hc) as C.
    by rewrite cross_component_self in C.
Qed.

Lemma cross_is_antisymmetric_witness :
  allocates (Vector3.cross 1 1 None) store0 [0; 0; 0]%float ∧
  allocates (Vector2.cross 3 3 None) store0 [0; 0; 0]%float.
Proof.
  assert (Forall finite_f32 [1; 2; 3]%float) as F3
    by (repeat constructor; reflexivity).
  assert (Forall finite_f32 [1; 2]%float) as F2
    by (repeat constructor; reflexivity).
  destruct (cross_is_antisymmetric store0 1 2 1 2 3 4 5 6 3 4 1 2 3 4
              eq_refl eq_refl eq_refl eq_refl) as (_ & _ & S3 & S2).
  split; [exact (S3 F3) | exact (S2 F2)].
Defined.

(** ** A destination that is one of the operands *)

Section Aliased3.
Context (h : store) (a b d : loc) (ax ay az bx by' bz dx dy dz : number).
Hypothesis Ha : h !! a = Some [ax; ay; az].
Hypothesis Hb : h !! b = Some [bx; by'; bz].
Hypothesis Hd : h !! d = Some [dx; dy; dz].

Lemma Vector3_cross_into :
  writes_into d (Vector3.cross a b (Some d)) h
    [fround (ay * bz - az * by'); fround (az * bx - ax * bz);
     fround (ax * by' - ay * bx)]%float.
Proof.
  apply writes_into_intro. unfold Vector3.cross. unfold3.
  aliasing d a b; by run.
Qed.

Lemma Vector3_lerp_into t :
  writes_into d (Vector3.lerp a b t (Some d)) h
    [fround (ax + t * (bx - ax)); fround (ay + t * (by' - ay));
     fround (az + t * (bz - az))]%float.
Proof.
  apply writes_into_intro. unfold Vector3.lerp. unfold3.
  aliasing d a b; by run.
Qed.

End Aliased3.

Section Aliased2.
Context (h : store) (a b d : loc) (ax ay bx by' dx dy : number).
Hypothesis Ha : h !! a = Some [ax; ay].
Hypothesis Hb : h !! b = Some [bx; by'].
Hypothesis Hd : h !! d = Some [dx; dy].

Lemma Vector2_lerp_into t :
  writes_into d (Vector2.lerp a b t (Some d)) h
    [fround (ax + t * (bx - ax)); fround (ay + t * (by' - ay))]%float.
Proof.
  apply writes_into_intro. unfold Vector2.lerp. unfold2.
  aliasing d a b; by run.
Qed.

End Aliased2.

(** X17. [cross], [lerp] and [direction] may write into one of their
    operands: the destination gets the components computed from what the
    operands held before the call, whether it is another object, the first
    operand or the second. *)
Theorem destination_may_be_an_operand
    (h : store) (t : number) (a b d : loc)
    (ax ay az bx by' bz dx dy dz : number)
    (c e f : loc) (cx cy ex ey fx fy : number) :
  h !! a = Some [ax; ay; az] → h !! b = Some [bx; by'; bz] →
  h !! d = Some [dx; dy; dz] →
  h !! c = Some [cx; cy] → h !! e = Some [ex; ey] → h !! f = Some [fx; fy] →
  let crossed := [fround (ay * bz - az * by'); fround (az * bx - ax * bz);
                  fround (ax * by' - ay * bx)]%float in
  let lerped3 := [fround (ax + t * (bx - ax)); fround (ay + t * (by' - ay));
                  fround (az + t * (bz - az))]%float in
  let lerped2 := [fround (cx + t * (ex - cx));
                  fround (cy + t * (ey - cy))]%float in
  let directed3 := fround <$> normalized3 (ax - bx) (ay - by') (az - bz) in
  let directed2 := fround <$> normalized2 (cx - ex) (cy - ey) in
  (writes_into d (Vector3.cross a b (Some d)) h crossed ∧
   writes_into a (Vector3.cross a b (Some a)) h crossed ∧
   writes_into b (Vector3.cross a b (Some b)) h crossed) ∧
  (writes_into d (Vector3.lerp a b t (Some d)) h lerped3 ∧
   writes_into a (Vector3.lerp a b t (Some a)) h lerped3 ∧
   writes_into b (Vector3.lerp a b t (Some b)) h lerped3) ∧
  (writes_into d (Vector3.direction a b (Some d)) h directed3 ∧
   writes_into a (Vector3.direction a b (Some a)) h directed3 ∧
   writes_into b (Vector3.direction a b (Some b)) h directed3) ∧
  (writes_into f (Vector2.lerp c e t (Some f)) h lerped2 ∧
   writes_into c (Vector2.lerp c e t (Some c)) h lerped2 ∧
   writes_into e (Vector2.lerp c e t (Some e)) h lerped2) ∧
  (writes_into f (Vector2.direction c e (Some f)) h directed2 ∧
   writes_into c (Vector2.direction c e (Some c)) h directed2 ∧
   writes_into e (Vector2.direction c e (Some e)) h directed2).
Proof.
  intros Ha Hb Hd Hc He Hf. cbv zeta. split_and!.
  - by apply (Vector3_cross_into h a b d ax ay az bx by' bz dx dy dz).
  - by apply (Vector3_cross_into h a b a ax ay az bx by' bz ax ay az).
  - by apply (Vector3_cross_into h a b b ax ay az bx by' bz bx by' bz).
  - by apply (Vector3_lerp_into h a b d ax ay az bx by' bz dx dy dz).
  - by apply (Vector3_lerp_into h a b a ax ay az bx by' bz ax ay az).
  - by apply (Vector3_lerp_into h a b b ax ay az bx by' bz bx by' bz).
  - by apply (Vector3_direction_into h a b ax ay az bx by' bz Ha Hb d dx dy dz).
  - by apply (Vector3_direction_into h a b ax ay az bx by' bz Ha Hb a ax ay az).
  - by apply (Vector3_direction_into h a b ax ay az bx by' bz Ha Hb b bx by' bz).
  - by apply (Vector2_lerp_into h c e f cx cy ex ey fx fy).
  - by apply (Vector2_lerp_into h c e c cx cy ex ey cx cy).
  - by apply (Vector2_lerp_into h c e e cx cy ex ey ex ey).
  - by apply (Vector2_direction_into h c e cx cy ex ey Hc He f fx fy).
  - by apply (Vector2_direction_into h c e cx cy ex ey Hc He c cx cy).
  - by apply (Vector2_direction_into h c e cx cy ex ey Hc He e ex ey).
Qed.

Lemma destination_may_be_an_operand_witness :
  writes_into 1%positive (Vector3.cross 1 2 (Some 1%positive)) store0
    [-3; 6; -3]%float ∧
  writes_into 4%positive (Vector2.lerp 3 4 0.5 (Some 4%positive)) store0
    [2; 3]%float.
Proof.
  destruct (destination_may_be_an_operand store0 0.5 1 2 2 1 2 3 4 5 6 4 5 6
              3 4 4 1 2 3 4 3 4 eq_refl eq_refl eq_refl eq_refl eq_refl
              eq_refl) as ((_ & C & _) & _ & _ & (_ & _ & L) & _).
  split; [exact C | exact L].
Defined.

(** ** A vector and itself *)

Lemma minus_itself_stored (c : number) :
  fround (c - c) = minus_itself c.
Proof. rewrite sub_diag_cases. unfold minus_itself. by destruct (isFinite c). Qed.

Lemma Vector3_distance_run (h : store) a b ax ay az bx by' bz :
  h !! a = Some [ax; ay; az] → h !! b = Some [bx; by'; bz] →
  Vector3.distance a b h = Some (norm3 (bx - ax) (by' - ay) (bz - az), h).
Proof.
  intros Ha Hb. unfold Vector3.distance, Vector3.squaredDistance, norm3.
  unfold3. by run.
Qed.

Lemma Vector2_distance_run (h : store) a b ax ay bx by' :
  h !! a = Some [ax; ay] → h !! b = Some [bx; by'] →
  Vector2.distance a b h = Some (norm2 (bx - ax) (by' - ay), h).
Proof.
  intros Ha Hb. unfold Vector2.distance, Vector2.squaredDistance, norm2.
  unfold2. by run.
Qed.

(** X18. A vector minus itself: [v.subtract(v)] leaves in [v], and
    [difference(v, v)] returns, 0 for each finite component and NaN for each
    component that is an infinity or NaN.  The distance of a vector with
    finite components to itself is 0. *)
Theorem vector_minus_itself
    (h : store) (v w : loc) (x y z p q : number) :
  h !! v = Some [x; y; z] → h !! w = Some [p; q] →
  (writes_into v (Vector3.subtract v v None) h (minus_itself <$> [x; y; z]) ∧
   allocates (Vector3.difference v v None) h (minus_itself <$> [x; y; z]) ∧
   (isFinite x = true → isFinite y = true → isFinite z = true →
    Vector3.distance v v h = Some (0%float, h))) ∧
  (writes_into w (Vector2.subtract w w None) h (minus_itself <$> [p; q]) ∧
   allocates (Vector2.difference w w None) h (minus_itself <$> [p; q]) ∧
   (isFinite p = true → isFinite q = true →
    Vector2.distance w w h = Some (0%float, h))).
Proof.
  intros Hv Hw.
  pose proof (Vector3_subtract_self h v v x y z x y z Hv Hv) as S3.
  pose proof (Vector3_difference_new h v v x y z x y z Hv Hv) as D3.
  pose proof (Vector2_subtract_self h w w p q p q Hw Hw) as S2.
  pose proof (Vector2_difference_new h w w p q p q Hw Hw) as D2.
  unfold pointwise in *. simpl in S3, D3, S2, D2.
  rewrite (minus_itself_stored x), (minus_itself_stored y),
    (minus_itself_stored z) in S3, D3.
  rewrite (minus_itself_stored p), (minus_itself_stored q) in S2, D2.
  split; split_and!; try done.
  - intros Fx Fy Fz. rewrite (Vector3_distance_run h v v x y z x y z Hv Hv).
    by rewrite (sub_diag x Fx), (sub_diag y Fy), (sub_diag z Fz).
  - intros Fp Fq. rewrite (Vector2_distance_run h w w p q p q Hw Hw).
    by rewrite (sub_diag p Fp), (sub_diag q Fq).
Qed.

Lemma vector_minus_itself_witness :
  writes_into 1%positive (Vector3.subtract 1 1 None) store0 [0; 0; 0]%float ∧
  Vector2.distance 3 3 store0 = Some (0%float, store0).
Proof.
  destruct (vector_minus_itself store0 1 3 1 2 3 1 2 eq_refl eq_refl)
    as [(S & _) (_ & _ & D)].
  split; [exact S | exact (D eq_refl eq_refl)].
Defined.

(** ** The [Vector2] constructor *)

Lemma Vector2_new_array (h : store) vs :
  allocates (Vector2.new (Some vs)) h (fround <$> [index vs 0; index vs 1]).
Proof.
  eapply allocates_intro; [apply fresh_None|].
  unfold Vector2.new, Vector2.set_xy. by run.
Qed.

(** X19. [new Vector2(values)] holds the first two elements of the array,
    rounded to binary32; an element the array does not have becomes NaN,
    not 0, so that [new Vector2([])] is (NaN, NaN).  Without argument the
    vector is (0, 0), as is [Vector2.zero]. *)
Theorem vector2_constructor_reads_two_elements
    (h : store) (vs : list number) (x : number) :
  allocates (Vector2.new (Some vs)) h (fround <$> [index vs 0; index vs 1]) ∧
  allocates (Vector2.new (Some [])) h [nan; nan] ∧
  allocates (Vector2.new (Some [x])) h [fround x; nan] ∧
  allocates (Vector2.new None) h [0; 0]%float ∧
  allocates Vector2.zero h [0; 0]%float.
Proof.
  split_and!.
  - apply Vector2_new_array.
  - apply (Vector2_new_array h []).
  - apply (Vector2_new_array h [x]).
  - eapply allocates_intro; [apply fresh_None|]. apply Vector2_new_run.
  - apply (Vector2_new_array h [0; 0]%float).
Qed.

(** ** Division by zero *)

Lemma div_0 (c : number) : (c / 0)%float = over_zero c.
Proof.
  unfold over_zero. rewrite is_nan_spec, is_zero_spec, FloatAxioms.ltb_spec.
  change (Prim2SF 0) with (S754_zero false).
  destruct (Prim2SF c) as [s|s| |s m e] eqn:E; simpl;
    apply Prim2SF_inj; rewrite div_spec, E;
    change (Prim2SF 0) with (S754_zero false); try done;
    by destruct s.
Qed.

Lemma over_zero_stored (c : number) : fround (c / 0) = over_zero c.
Proof.
  rewrite div_0. unfold over_zero.
  destruct (is_nan c || is_zero c); [done|]. by destruct (c <? 0)%float.
Qed.

(** X20. Division by the zero vector does not fail: each component of the
    result is NaN where the dividend is a zero or NaN, and otherwise the
    infinity of the sign of the dividend. *)
Theorem division_by_zero_gives_infinities
    (h : store) (v o w n : loc) (x y z p q : number) :
  h !! v = Some [x; y; z] → h !! o = Some [0; 0; 0]%float →
  h !! w = Some [p; q] → h !! n = Some [0; 0]%float →
  (writes_into v (Vector3.divide v o None) h (over_zero <$> [x; y; z]) ∧
   allocates (Vector3.quotient v o None) h (over_zero <$> [x; y; z])) ∧
  (writes_into w (Vector2.divide w n None) h (over_zero <$> [p; q]) ∧
   allocates (Vector2.quotient w n None) h (over_zero <$> [p; q])).
Proof.
  intros Hv Ho Hw Hn.
  pose proof (Vector3_divide_self h v o x y z 0 0 0 Hv Ho) as S3.
  pose proof (Vector3_quotient_new h v o x y z 0 0 0 Hv Ho) as D3.
  pose proof (Vector2_divide_self h w n p q 0 0 Hw Hn) as S2.
  pose proof (Vector2_quotient_new h w n p q 0 0 Hw Hn) as D2.
  unfold pointwise in *. simpl in S3, D3, S2, D2.
  rewrite (over_zero_stored x), (over_zero_stored y),
    (over_zero_stored z) in S3, D3.
  rewrite (over_zero_stored p), (over_zero_stored q) in S2, D2. done.
Qed.

Lemma division_by_zero_gives_infinities_witness :
  writes_into 1%positive (Vector3.divide 1 5 None)
    (<[5%positive := [0; 0; 0]%float]>
       (<[6%positive := [0; 0]%float]> store0))
    [infinity; infinity; infinity].
Proof.
  exact (proj1 (proj1 (division_by_zero_gives_infinities
           (<[5%positive := [0; 0; 0]%float]>
              (<[6%positive := [0; 0]%float]> store0))
           1 5 3 6 1 2 3 1 2 eq_refl eq_refl eq_refl eq_refl))).
Defined.

(** ** Degrees and radians *)

Section Angles.
Local Open Scope Z_scope.
Local Open Scope R_scope.

(** Two roundings of relative error [u], by factors whose product is 1
    within [u / 8]. *)
Lemma back_real (a d x1 x2 C1 C2 u : R) :
  0 <= u <= / 1000000000000000 → 0 < C1 → 0 < C2 →
  Rabs (C1 * C2 - 1) <= u / 8 → a = Rabs d →
  Rabs (x1 - d * C1) <= u * (a * C1) →
  Rabs (x2 - x1 * C2) <= u * (Rabs x1 * C2) →
  Rabs (x2 - d) <= 4 * u * a.
Proof.
  intros Hu H1 H2 HK Ha E1 E2.
  assert (0 <= a) as Ha0 by (rewrite Ha; apply Rabs_pos).
  set (K := C1 * C2) in *.
  apply Rabs_le_inv in HK.
  assert (0 <= a * C1) as HaC by (apply Rmult_le_pos; lra).
  assert (Rabs x1 <= (1 + u) * (a * C1)) as Hx1.
  { replace x1 with ((x1 - d * C1) + d * C1) by lra.
    eapply Rle_trans; [apply Rabs_triang|].
    rewrite (Rabs_mult d C1), (Rabs_pos_eq C1), <- Ha by lra. lra. }
  assert (a * C1 * C2 = a * K) as EK by (unfold K; lra).
  assert (0 <= a * K) as HaK by (rewrite <- EK; apply Rmult_le_pos; lra).
  assert (a * K <= a + a * (u / 8)) as HaK1.
  { replace (a + a * (u / 8)) with (a * (1 + u / 8)) by lra.
    apply Rmult_le_compat_l; lra. }
  (* the three parts of the error *)
  assert (Rabs (x2 - x1 * C2) <= u * ((1 + u) * (a * K))) as P1.
  { eapply Rle_trans; [exact E2|].
    apply Rmult_le_compat_l; [lra|]. rewrite <- EK.
    replace ((1 + u) * (a * C1 * C2)) with ((1 + u) * (a * C1) * C2) by lra.
    apply Rmult_le_compat_r; lra. }
  assert (Rabs (x1 * C2 - d * K) <= u * (a * K)) as P2.
  { replace (x1 * C2 - d * K) with ((x1 - d * C1) * C2) by (unfold K; lra).
    rewrite Rabs_mult, (Rabs_pos_eq C2) by lra. rewrite <- EK.
    replace (u * (a * C1 * C2)) with (u * (a * C1) * C2) by lra.
    apply Rmult_le_compat_r; lra. }
  assert (Rabs (d * K - d) <= a * (u / 8)) as P3.
  { replace (d * K - d) with (d * (K - 1)) by lra.
    rewrite Rabs_mult, <- Ha. apply Rmult_le_compat_l; [done|].
    apply Rabs_le. lra. }
  replace (x2 - d) with ((x2 - x1 * C2) + (x1 * C2 - d * K) + (d * K - d))
    by lra.
  eapply Rle_trans; [apply Rabs_triang|].
  eapply Rle_trans; [apply Rplus_le_compat_r, Rabs_triang|].
  assert (0 <= u * a) as Hua by (apply Rmult_le_pos; lra).
  assert (u * (a * K) <= u * a + u * a * (u / 8)) as Q1.
  { replace (u * a + u * a * (u / 8)) with (u * (a + a * (u / 8))) by lra.
    apply Rmult_le_compat_l; lra. }
  assert (u * a * (u / 8) <= u * a * / 8) as Q2.
  { apply Rmult_le_compat_l; lra. }
  assert (u * (u * (a * K)) <= u * a) as Q3.
  { assert (u * (a * K) <= 2 * (u * a)) as W1 by lra.
    assert (u * (u * (a * K)) <= u * (2 * (u * a))) as W2
      by (apply Rmult_le_compat_l; lra).
    assert (2 * u * (u * a) <= 1 * (u * a)) as W3
      by (apply Rmult_le_compat_r; lra).
    lra. }
  replace (u * ((1 + u) * (a * K)))
    with (u * (a * K) + u * (u * (a * K))) in P1 by lra.
  lra.
Qed.

(** Scaling a number by a constant and then by its inverse. *)
Lemma scale_and_back (d c1 c2 : number) :
  normal d → normal c1 → normal c2 →
  pow2 (-7) <= B2R c1 <= pow2 7 → pow2 (-7) <= B2R c2 <= pow2 7 →
  Rabs (B2R c1 * B2R c2 - 1) <= pow2 (-55) →
  pow2 (-1000) <= Rabs (B2R d) <= pow2 1000 →
  Rabs (B2R (d * c1 * c2) - B2R d) <= pow2 (-50) * Rabs (B2R d).
Proof.
  intros Nd N1 N2 [L1 U1] [L2 U2] HK [Ld Ud].
  set (a := Rabs (B2R d)) in *.
  pose proof (pow2_pos (-7)) as P7.
  pose proof (pow2_pos (-1000)) as P1000.
  pose proof (pow2_pos (-1007)) as P1007.
  pose proof (pow2_pos (-52)) as Pu. pose proof pow2_m52 as Pu'.
  assert (Rabs (B2R d * B2R c1) = a * B2R c1) as E1
    by (rewrite Rabs_mult, (Rabs_pos_eq (B2R c1)) by lra; done).
  assert (pow2 (-1007) <= a * B2R c1 <= pow2 1007) as R1.
  { change (-1007)%Z with (-1000 + -7)%Z. change 1007%Z with (1000 + 7)%Z.
    rewrite !pow2_add. split; apply Rmult_le_compat; lra. }
  destruct (mul_rel d c1 Nd N1) as [Nr1 Hr1].
  { rewrite E1. split; [|apply Rle_lt_trans with (pow2 1007); [lra|]].
    - apply Rle_trans with (pow2 (-1007)); [apply pow2_le; lia|lra].
    - apply pow2_lt. lia. }
  rewrite E1 in Hr1.
  set (x1 := B2R (d * c1)) in *.
  assert (a * B2R c1 / 2 <= Rabs x1 <= 2 * (a * B2R c1)) as Rx1.
  { assert (Rabs (x1 - B2R d * B2R c1) <= / 2 * (a * B2R c1)) as H.
    { eapply Rle_trans; [exact Hr1|]. apply Rmult_le_compat_r; lra. }
    pose proof (Rabs_triang_inv x1 (B2R d * B2R c1)) as T1.
    pose proof (Rabs_triang_inv (B2R d * B2R c1) x1) as T2.
    rewrite (Rabs_minus_sym (B2R d * B2R c1) x1) in T2.
    rewrite E1 in T1, T2. lra. }
  assert (Rabs (x1 * B2R c2) = Rabs x1 * B2R c2) as E2
    by (rewrite Rabs_mult, (Rabs_pos_eq (B2R c2)) by lra; done).
  assert (pow2 (-1015) <= Rabs x1 * B2R c2 <= pow2 1015) as R2.
  { split.
    - apply Rle_trans with (pow2 (-1007) / 2 * pow2 (-7)).
      + change (-1015)%Z with (-1007 + -1 + -7)%Z. rewrite !pow2_add.
        rewrite (pow2_Zneg 1). change (pow2 1) with (powerRZ 2 1).
        simpl. pose proof (pow2_pos (-1007)). nra.
      + apply Rmult_le_compat; lra.
    - apply Rle_trans with (2 * pow2 1007 * pow2 7).
      + apply Rmult_le_compat; first [lra | apply Rabs_pos].
      + change 1015%Z with (1 + 1007 + 7)%Z. rewrite !pow2_add, pow2_1. lra. }
  destruct (mul_rel (d * c1) c2 Nr1 N2) as [_ Hr2].
  { fold x1. rewrite E2. split; [|apply Rle_lt_trans with (pow2 1015); [lra|]].
    - apply Rle_trans with (pow2 (-1015)); [apply pow2_le; lia|lra].
    - apply pow2_lt. lia. }
  fold x1 in Hr2. rewrite E2 in Hr2.
  replace (pow2 (-50)) with (4 * pow2 (-52)).
  2:{ change (-50)%Z with (1 + 1 + -52)%Z. rewrite !pow2_add, pow2_1. lra. }
  apply (back_real a (B2R d) x1 _ (B2R c1) (B2R c2) (pow2 (-52)));
    try done; try lra.
  replace (pow2 (-52) / 8) with (pow2 (-55)); [done|].
  change (-55)%Z with (-52 + -3)%Z. rewrite pow2_add, (pow2_Zneg 3).
  change (pow2 3) with (powerRZ 2 3). simpl. lra.
Qed.

Lemma normal_degree : normal MathHelper_angles.degree.
Proof. by exists false, 5030569068109113%positive, (-58)%Z. Qed.

Lemma normal_radians : normal MathHelper_angles.radians.
Proof. by exists false, 8063664102031864%positive, (-47)%Z. Qed.

Lemma B2R_degree :
  B2R MathHelper_angles.degree = IZR 5030569068109113 * pow2 (-58).
Proof.
  rewrite (normal_B2R _ false 5030569068109113 (-58)) by done.
  unfold sgn. lra.
Qed.

Lemma B2R_radians :
  B2R MathHelper_angles.radians = IZR 8063664102031864 * pow2 (-47).
Proof.
  rewrite (normal_B2R _ false 8063664102031864 (-47)) by done.
  unfold sgn. lra.
Qed.

Lemma degree_bounds : pow2 (-7) <= B2R MathHelper_angles.degree <= pow2 7.
Proof.
  pose proof (normal_bounds MathHelper_angles.degree false
                5030569068109113 (-58) eq_refl eq_refl)
    as [L U].
  assert (0 <= B2R MathHelper_angles.degree) as Hp.
  { rewrite B2R_degree. pose proof (pow2_pos (-58)).
    apply Rmult_le_pos; [apply IZR_le; lia|lra]. }
  rewrite (Rabs_pos_eq _ Hp) in L, U.
  pose proof (pow2_le (-7) (52 + -58) ltac:(lia)).
  pose proof (pow2_le (53 + -58) 7 ltac:(lia)). lra.
Qed.

Lemma radians_bounds : pow2 (-7) <= B2R MathHelper_angles.radians <= pow2 7.
Proof.
  pose proof (normal_bounds MathHelper_angles.radians false
                8063664102031864 (-47) eq_refl eq_refl)
    as [L U].
  assert (0 <= B2R MathHelper_angles.radians) as Hp.
  { rewrite B2R_radians. pose proof (pow2_pos (-47)).
    apply Rmult_le_pos; [apply IZR_le; lia|lra]. }
  rewrite (Rabs_pos_eq _ Hp) in L, U.
  pose proof (pow2_le (-7) (52 + -47) ltac:(lia)).
  pose proof (pow2_le (53 + -47) 7 ltac:(lia)). lra.
Qed.

(** [degree * radians] is 1 within [2^-55]. *)
Lemma degree_radians :
  Rabs (B2R MathHelper_angles.degree * B2R MathHelper_angles.radians - 1)
  <= pow2 (-55).
Proof.
  rewrite B2R_degree, B2R_radians.
  assert (1 = IZR (2 ^ 105) * pow2 (-105)) as E1.
  { rewrite pow2_IZR by lia. rewrite <- pow2_add.
    change (105 + -105)%Z with 0%Z. by rewrite pow2_0. }
  assert (pow2 (-55) = IZR (2 ^ 50) * pow2 (-105)) as E2.
  { rewrite pow2_IZR by lia. by rewrite <- pow2_add. }
  rewrite E2.
  replace (IZR 5030569068109113 * pow2 (-58)
           * (IZR 8063664102031864 * pow2 (-47)) - 1)
    with (IZR (5030569068109113 * 8063664102031864 - 2 ^ 105) * pow2 (-105)).
  - pose proof (pow2_pos (-105)).
    rewrite Rabs_mult, (Rabs_pos_eq (pow2 (-105))) by lra.
    apply Rmult_le_compat_r; [lra|].
    rewrite <- abs_IZR. apply IZR_le. by vm_compute.
  - rewrite minus_IZR, mult_IZR, Rmult_minus_distr_r, <- E1.
    change (-105)%Z with (-58 + -47)%Z. rewrite pow2_add. lra.
Qed.

End Angles.

(** X21. Converting degrees to radians and back gives the number of
    degrees within a relative [2^-50], and so does converting radians to
    degrees and back, for every normal number of magnitude between
    [2^-1000] and [2^1000]. *)
Theorem angle_conversions_are_inverse (v : number) :
  normal v → (pow2 (-1000) <= Rabs (B2R v) <= pow2 1000)%R →
  (Rabs (B2R (MathHelper_angles.toDegree (MathHelper_angles.toRadian v))
         - B2R v) <= pow2 (-50) * Rabs (B2R v))%R ∧
  (Rabs (B2R (MathHelper_angles.toRadian (MathHelper_angles.toDegree v))
         - B2R v) <= pow2 (-50) * Rabs (B2R v))%R.
Proof.
  intros Nv Hv. unfold MathHelper_angles.toDegree, MathHelper_angles.toRadian.
  split.
  - apply scale_and_back;
      [done|apply normal_degree|apply normal_radians|apply degree_bounds
      |apply radians_bounds|apply degree_radians|done].
  - apply scale_and_back;
      [done|apply normal_radians|apply normal_degree|apply radians_bounds
      |apply degree_bounds| |done].
    rewrite Rmult_comm. apply degree_radians.
Qed.

Lemma angle_conversions_are_inverse_witness :
  (Rabs (B2R (MathHelper_angles.toDegree (MathHelper_angles.toRadian 90))
         - B2R 90) <= pow2 (-50) * Rabs (B2R 90))%R.
Proof.
  assert (normal 90) as N
    by (exists false, 6333186975989760%positive, (-46)%Z; by split).
  apply (angle_conversions_are_inverse 90 N).
  pose proof (normal_bounds 90 false 6333186975989760 (-46) eq_refl eq_refl)
    as [L U].
  pose proof (pow2_le (-1000) (52 + -46) ltac:(lia)).
  pose proof (pow2_le (53 + -46) 1000 ltac:(lia)).
  split; lra.
Defined.

(** ** Differences of swapped operands *)

(** X22. Swapping the operands of [difference] gives the opposite vector:
    each component of [difference(b, a)] is the opposite of the component
    of [difference(a, b)], or both are NaN. *)
Theorem difference_is_antisymmetric
    (h : store) (a b : loc) (ax ay az bx by' bz : number)
    (c d : loc) (cx cy dx dy : number) :
  h !! a = Some [ax; ay; az] → h !! b = Some [bx; by'; bz] →
  h !! c = Some [cx; cy] → h !! d = Some [dx; dy] →
  (∃ u w, allocates (Vector3.difference a b None) h u ∧
          allocates (Vector3.difference b a None) h w ∧
          Forall2 opposite u w) ∧
  (∃ u w, allocates (Vector2.difference c d None) h u ∧
          allocates (Vector2.difference d c None) h w ∧
          Forall2 opposite u w).
Proof.
  intros Ha Hb Hc Hd. split.
  - eexists _, _. split_and!.
    + by apply (Vector3_difference_new h a b ax ay az bx by' bz).
    + by apply (Vector3_difference_new h b a bx by' bz ax ay az).
    + unfold pointwise. simpl.
      componentwise; apply fround_opposite, sub_swap.
  - eexists _, _. split_and!.
    + by apply (Vector2_difference_new h c d cx cy dx dy).
    + by apply (Vector2_difference_new h d c dx dy cx cy).
    + unfold pointwise. simpl.
      componentwise; apply fround_opposite, sub_swap.
Qed.

Lemma difference_is_antisymmetric_witness :
  ∃ u w, allocates (Vector2.difference 3 4 None) store0 u ∧
         allocates (Vector2.difference 4 3 None) store0 w ∧
         Forall2 opposite u w.
Proof.
  exact (proj2 (difference_is_antisymmetric store0 1 2 1 2 3 4 5 6
                  3 4 1 2 3 4 eq_refl eq_refl eq_refl eq_refl)).
Defined.

(** * Destinations, and components that are not finite *)

Section FiniteDifference.
Local Open Scope Z_scope.
Local Open Scope R_scope.



End FiniteDifference.

(** *** Interpolation at [t = 0] *)






(** ** NaN in a difference *)

Lemma nan_of_is_nan (v : number) : is_nan v = true → v = nan.
Proof.
  rewrite is_nan_spec. intros E. apply Prim2SF_inj.
  change (Prim2SF nan) with S754_nan. by destruct (Prim2SF v).
Qed.

Lemma mul_nan_l (w : number) : (nan * w)%float = nan.
Proof. apply Prim2SF_inj. by rewrite mul_spec. Qed.

Lemma mul_nan_r (w : number) : (w * nan)%float = nan.
Proof.
  apply Prim2SF_inj. rewrite mul_spec. change (Prim2SF nan) with S754_nan.
  by destruct (Prim2SF w).
Qed.

Lemma add_nan_eq_l (w : number) : (nan + w)%float = nan.
Proof. apply Prim2SF_inj. by rewrite add_spec. Qed.

Lemma add_nan_eq_r (w : number) : (w + nan)%float = nan.
Proof.
  apply Prim2SF_inj. rewrite add_spec. change (Prim2SF nan) with S754_nan.
  by destruct (Prim2SF w) as [[]|[]| |].
Qed.

(** The normalisation of a tuple with a NaN component is NaN throughout. *)
Lemma normalized3_nan (x y z : number) :
  x = nan ∨ y = nan ∨ z = nan →
  fround <$> normalized3 x y z = [nan; nan; nan].
Proof.
  intros H.
  assert (norm3 x y z = nan) as E.
  { unfold norm3, Math_sqrt.
    destruct H as [->|[->| ->]];
      by rewrite ?mul_nan_l, ?add_nan_eq_r, ?add_nan_eq_l, ?add_nan_eq_r. }
  unfold normalized3. rewrite E. cbn beta iota zeta.
  change (nan =? 0)%float with false. cbn iota.
  change (1 / nan)%float with nan. by rewrite !mul_nan_r.
Qed.

Lemma normalized2_nan (x y : number) :
  x = nan ∨ y = nan → fround <$> normalized2 x y = [nan; nan].
Proof.
  intros H.
  assert (norm2 x y = nan) as E.
  { unfold norm2, Math_sqrt.
    destruct H as [->| ->]; by rewrite ?mul_nan_l, ?add_nan_eq_r, ?add_nan_eq_l, ?add_nan_eq_r. }
  unfold normalized2. rewrite E. cbn beta iota zeta.
  change (nan =? 0)%float with false. cbn iota.
  change (1 / nan)%float with nan. by rewrite !mul_nan_r.
Qed.

Lemma normalized3_self_nan (x y z : number) :
  isFinite x && isFinite y && isFinite z = false →
  fround <$> normalized3 (x - x) (y - y) (z - z) = [nan; nan; nan].
Proof.
  intros H. apply normalized3_nan.
  destruct (isFinite x) eqn:Ex; [|left; by apply sub_not_finite].
  destruct (isFinite y) eqn:Ey; [|right; left; by apply sub_not_finite].
  right; right. by apply sub_not_finite.
Qed.

Lemma normalized2_self_nan (x y : number) :
  isFinite x && isFinite y = false →
  fround <$> normalized2 (x - x) (y - y) = [nan; nan].
Proof.
  intros H. apply normalized2_nan.
  destruct (isFinite x) eqn:Ex; [|left; by apply sub_not_finite].
  right. by apply sub_not_finite.
Qed.

(** ** Direction, with and without destination *)

(** C3, as the code has it.  [direction(a, b, dest)] writes into the
    destination, a new vector when none is given, the normalisation of the
    component-wise difference [a - b], formed in double precision and
    rounded to binary32 when stored: every component of [a - b] scaled by
    [1 / length].  It points from [b] toward [a]:
    [direction((3,0,0), (1,0,0))] is [(1,0,0)].  When the difference has
    length zero the destination is set to the zero vector, whatever it
    held; that is so whenever [a] and [b] hold the same finite components,
    and for [direction(a, a)] with finite components.  With a component
    that is an infinity or NaN, [direction(a, a)] is NaN in every
    component. *)
Theorem direction_normalizes_difference
    (h : store) (a b e : loc) (ax ay az bx by' bz ex ey ez : number)
    (c d f : loc) (cx cy dx dy fx fy : number) :
  h !! a = Some [ax; ay; az] → h !! b = Some [bx; by'; bz] →
  h !! e = Some [ex; ey; ez] →
  h !! c = Some [cx; cy] → h !! d = Some [dx; dy] → h !! f = Some [fx; fy] →
  (allocates (Vector3.direction a b None) h
     (fround <$> normalized3 (ax - bx) (ay - by') (az - bz)) ∧
   writes_into e (Vector3.direction a b (Some e)) h
     (fround <$> normalized3 (ax - bx) (ay - by') (az - bz)) ∧
   ((norm3 (ax - bx) (ay - by') (az - bz) =? 0)%float = true →
    allocates (Vector3.direction a b None) h [0; 0; 0]%float ∧
    writes_into e (Vector3.direction a b (Some e)) h [0; 0; 0]%float) ∧
   (isFinite ax = true → isFinite ay = true → isFinite az = true →
    ([bx; by'; bz] = [ax; ay; az] →
     allocates (Vector3.direction a b None) h [0; 0; 0]%float ∧
     writes_into e (Vector3.direction a b (Some e)) h [0; 0; 0]%float) ∧
    allocates (Vector3.direction a a None) h [0; 0; 0]%float ∧
    writes_into e (Vector3.direction a a (Some e)) h [0; 0; 0]%float ∧
    writes_into a (Vector3.direction a a (Some a)) h [0; 0; 0]%float) ∧
   (isFinite ax && isFinite ay && isFinite az = false →
    allocates (Vector3.direction a a None) h [nan; nan; nan] ∧
    writes_into e (Vector3.direction a a (Some e)) h [nan; nan; nan])) ∧
  (allocates (Vector2.direction c d None) h
     (fround <$> normalized2 (cx - dx) (cy - dy)) ∧
   writes_into f (Vector2.direction c d (Some f)) h
     (fround <$> normalized2 (cx - dx) (cy - dy)) ∧
   ((norm2 (cx - dx) (cy - dy) =? 0)%float = true →
    allocates (Vector2.direction c d None) h [0; 0]%float ∧
    writes_into f (Vector2.direction c d (Some f)) h [0; 0]%float) ∧
   (isFinite cx = true → isFinite cy = true →
    ([dx; dy] = [cx; cy] →
     allocates (Vector2.direction c d None) h [0; 0]%float ∧
     writes_into f (Vector2.direction c d (Some f)) h [0; 0]%float) ∧
    allocates (Vector2.direction c c None) h [0; 0]%float ∧
    writes_into f (Vector2.direction c c (Some f)) h [0; 0]%float ∧
    writes_into c (Vector2.direction c c (Some c)) h [0; 0]%float) ∧
   (isFinite cx && isFinite cy = false →
    allocates (Vector2.direction c c None) h [nan; nan] ∧
    writes_into f (Vector2.direction c c (Some f)) h [nan; nan])) ∧
  fst <$> direction3_example ∅ = Some [1; 0; 0]%float ∧
  fst <$> direction2_example ∅ = Some [1; 0]%float ∧
  fst <$> direction3_self infinity 0 0 ∅ = Some [nan; nan; nan] ∧
  fst <$> direction2_self infinity 0 ∅ = Some [nan; nan].
Proof.
  intros Ha Hb He Hc Hd Hf.
  pose proof (Vector3_direction_new h a b _ _ _ _ _ _ Ha Hb) as N3.
  pose proof (Vector3_direction_into h a b _ _ _ _ _ _ Ha Hb e _ _ _ He) as I3.
  pose proof (Vector3_direction_new h a a _ _ _ _ _ _ Ha Ha) as NS3.
  pose proof (Vector3_direction_into h a a _ _ _ _ _ _ Ha Ha e _ _ _ He) as IS3.
  pose proof (Vector3_direction_into h a a _ _ _ _ _ _ Ha Ha a _ _ _ Ha) as IA3.
  pose proof (Vector2_direction_new h c d _ _ _ _ Hc Hd) as N2.
  pose proof (Vector2_direction_into h c d _ _ _ _ Hc Hd f _ _ Hf) as I2.
  pose proof (Vector2_direction_new h c c _ _ _ _ Hc Hc) as NS2.
  pose proof (Vector2_direction_into h c c _ _ _ _ Hc Hc f _ _ Hf) as IS2.
  pose proof (Vector2_direction_into h c c _ _ _ _ Hc Hc c _ _ Hc) as IC2.
  split_and!; try done.
  - intros E. unfold normalized3 in N3, I3. by rewrite E in N3, I3.
  - intros Hx Hy Hz. rewrite normalized3_diag in NS3, IS3, IA3 by done.
    split_and!; try done.
    intros [= -> -> ->]. by rewrite normalized3_diag in N3, I3.
  - intros Hn. by rewrite (normalized3_self_nan _ _ _ Hn) in NS3, IS3.
  - intros E. unfold normalized2 in N2, I2. by rewrite E in N2, I2.
  - intros Hx Hy. rewrite normalized2_diag in NS2, IS2, IC2 by done.
    split_and!; try done.
    intros [= -> ->]. by rewrite normalized2_diag in N2, I2.
  - intros Hn. by rewrite (normalized2_self_nan _ _ Hn) in NS2, IS2.
Qed.

Lemma direction_normalizes_difference_witness :
  writes_into 2%positive (Vector3.direction 1 1 (Some 2%positive)) store0
    [0; 0; 0]%float ∧
  writes_into 3%positive (Vector2.direction 3 4 (Some 3%positive)) store0
    (fround <$> normalized2 (1 - 3) (2 - 4)) ∧
  allocates (Vector2.direction 3 4 None) store0
    (fround <$> normalized2 (1 - 3) (2 - 4)).
Proof.
  destruct (direction_normalizes_difference store0 1 1 2 1 2 3 1 2 3 4 5 6
              3 4 3 1 2 3 4 1 2
              eq_refl eq_refl eq_refl eq_refl eq_refl eq_refl)
    as ((_ & _ & _ & D3 & _) & (N2 & I2 & _) & _).
  destruct (D3 eq_refl eq_refl eq_refl) as (_ & _ & W3 & _).
  split_and!; [exact W3 | exact I2 | exact N2].
Defined.

(** The coincident points (Infinity, 0, 0), which [new Vector3(1e39, 0, 0)]
    makes, have no zero vector for direction, and neither have
    (Infinity, 0) in [Vector2]. *)
Lemma coincident_infinite_direction_not_zero :
  zero_vector <$> (fst <$> direction3_self 1e39 0 0 ∅) ≠ Some true ∧
  zero_vector <$> (fst <$> direction2_self 1e39 0 ∅) ≠ Some true.
Proof. split; vm_compute; discriminate. Qed.

(** ** Cross products, with and without destination *)

Lemma Vector2_cross_into (h : store) (a b d : loc)
    (x y x2 y2 dx dy dz : number) :
  h !! a = Some [x; y] → h !! b = Some [x2; y2] →
  h !! d = Some [dx; dy; dz] →
  writes_into d (Vector2.cross a b (Some d)) h
    [0; 0; fround (x * y2 - y * x2)]%float.
Proof.
  intros Ha Hb Hd. apply writes_into_intro.
  unfold Vector2.cross. unfold2. unfold3.
  assert (d ≠ a) by (intros E; rewrite E, Ha in Hd; discriminate).
  assert (d ≠ b) by (intros E; rewrite E, Hb in Hd; discriminate).
  destruct (decide (a = b)); simplify_eq; unalias; by run.
Qed.

(** C7.  The cross product has three components in both classes.  On
    [Vector2] operands it writes [(0, 0, x*y2 - y*x2)] into its
    destination, a [Vector3]: all three components are written, whatever
    the destination held, and a new [Vector3] is made when none is given.
    On [Vector3] operands it writes the full cross product (each component
    rounded to binary32 by the store).  Built by the constructors,
    [cross((1,0), (0,1))] and [cross((1,0,0), (0,1,0))] are both
    [(0, 0, 1)], and so is [cross((1,0), (0,1), dest)] for the destination
    (7, 8, 9). *)
Theorem cross_has_three_components
    (h : store) (a b : loc) (x y x2 y2 : number)
    (p q : loc) (px py pz qx qy qz : number)
    (d : loc) (dx dy dz : number) :
  h !! a = Some [x; y] → h !! b = Some [x2; y2] →
  h !! p = Some [px; py; pz] → h !! q = Some [qx; qy; qz] →
  h !! d = Some [dx; dy; dz] →
  (allocates (Vector2.cross a b None) h
     [0; 0; fround (x * y2 - y * x2)]%float ∧
   writes_into d (Vector2.cross a b (Some d)) h
     [0; 0; fround (x * y2 - y * x2)]%float) ∧
  (allocates (Vector3.cross p q None) h
     [fround (py * qz - pz * qy); fround (pz * qx - px * qz);
      fround (px * qy - py * qx)]%float ∧
   writes_into d (Vector3.cross p q (Some d)) h
     [fround (py * qz - pz * qy); fround (pz * qx - px * qz);
      fround (px * qy - py * qx)]%float) ∧
  fst <$> cross2_example ∅ = Some [0; 0; 1]%float ∧
  fst <$> cross3_example ∅ = Some [0; 0; 1]%float ∧
  fst <$> cross2_into_example ∅ = Some [0; 0; 1]%float.
Proof.
  intros Ha Hb Hp Hq Hd. split_and!.
  - by apply Vector2_cross_new.
  - by apply (Vector2_cross_into h a b d x y x2 y2 dx dy dz).
  - by apply Vector3_cross_new.
  - by apply (Vector3_cross_into h p q d px py pz qx qy qz dx dy dz).
  - vm_compute. reflexivity.
  - vm_compute. reflexivity.
  - vm_compute. reflexivity.
Qed.

Lemma cross_has_three_components_witness :
  allocates (Vector2.cross 3 4 None) store0 [0; 0; -2]%float ∧
  writes_into 1%positive (Vector2.cross 3 4 (Some 1%positive)) store0
    [0; 0; -2]%float ∧
  allocates (Vector3.cross 1 2 None) store0 [-3; 6; -3]%float ∧
  writes_into 1%positive (Vector3.cross 1 2 (Some 1%positive)) store0
    [-3; 6; -3]%float.
Proof.
  destruct (cross_has_three_components store0 3 4 1 2 3 4 1 2 1 2 3 4 5 6
              1 1 2 3 eq_refl eq_refl eq_refl eq_refl eq_refl)
    as ((C2 & D2) & (C3 & D3) & _).
  split_and!; [exact C2 | exact D2 | exact C3 | exact D3].
Defined.

(** ** Tolerant equality of vectors *)

Lemma close_leb (t v w : number) :
  is_nan t = false → is_nan (v - w) = false →
  close t v w = (abs (v - w) <=? t)%float.
Proof.
  intros Ht Hd. unfold close.
  pose proof (abs_not_nan _ Hd) as Ha.
  destruct (t <? abs (v - w))%float eqn:E; simpl.
  - destruct (abs (v - w) <=? t)%float eqn:E'; [|done].
    by rewrite (leb_not_ltb _ _ E') in E.
  - symmetry. by apply leb_total.
Qed.

Lemma close_nan (t v w : number) :
  is_nan t = true ∨ is_nan (v - w) = true → close t v w = true.
Proof.
  unfold close. rewrite FloatAxioms.ltb_spec, !is_nan_spec, abs_spec.
  intros [H|H].
  - by destruct (Prim2SF t).
  - by destruct (Prim2SF t) as [| | |], (Prim2SF (v - w)).
Qed.

(** C4, as the code has it.  [v.equals(v)] is true for every vector.  At a
    threshold [t] (by default [EPSILON]) two vectors are equal exactly when
    no pair of components has [|v - w|] above [t]; no relative scaling is
    applied.  When neither the threshold nor the difference is NaN that is
    [|v - w| <= t]; a difference that is NaN, as for a NaN component or for
    two infinities of one sign, passes the test, so that
    [new Vector2([]).equals(new Vector2([5, 7]))] is true.  At the default
    threshold the components 1000000.0 and 1000000.00001 compare equal, and
    so do 0.0000001 and 0.0000021, whose difference 0.000002 is below
    [EPSILON]; 1000000 and 1000001 compare unequal, although
    [MathHelper.equals] takes them for equal. *)
Theorem vector_equals_absolute_tolerance
    (h : store) (thr : option number)
    (a b : loc) (ax ay az bx by' bz : number)
    (c d : loc) (cx cy dx dy : number) :
  h !! a = Some [ax; ay; az] → h !! b = Some [bx; by'; bz] →
  h !! c = Some [cx; cy] → h !! d = Some [dx; dy] →
  let t := default MathHelper.EPSILON thr in
  Vector3.equals a a None h = Some (true, h) ∧
  Vector2.equals c c None h = Some (true, h) ∧
  Vector3.equals a b thr h
    = Some (close t ax bx && close t ay by' && close t az bz, h) ∧
  Vector2.equals c d thr h = Some (close t cx dx && close t cy dy, h) ∧
  fst <$> equals2_example 1000000.0 1000000.00001 ∅ = Some true ∧
  fst <$> equals3_example 1000000.0 1000000.00001 ∅ = Some true ∧
  fst <$> equals2_example 0.0000001 0.0000021 ∅ = Some true ∧
  fst <$> equals3_example 0.0000001 0.0000021 ∅ = Some true ∧
  fst <$> equals2_example 1000000 1000001 ∅ = Some false ∧
  fst <$> equals3_example 1000000 1000001 ∅ = Some false ∧
  MathHelper.equals 1000000 1000001 None = true ∧
  (∀ v w, is_nan t = false → is_nan (v - w) = false →
          close t v w = (abs (v - w) <=? t)%float) ∧
  (∀ v w, is_nan t = true ∨ is_nan (v - w) = true → close t v w = true) ∧
  (∀ v w, is_nan v = true ∨ is_nan w = true → close t v w = true) ∧
  (∀ v, isFinite v = false → close t v v = true) ∧
  fst <$> equals2_arrays [] [5; 7]%float ∅ = Some true.
Proof.
  intros Ha Hb Hc Hd t. split_and!.
  - rewrite (Vector3_equals_run h None a a ax ay az ax ay az Ha Ha).
    cbn [default]. by rewrite !close_refl.
  - rewrite (Vector2_equals_run h None c c cx cy cx cy Hc Hc).
    cbn [default]. by rewrite !close_refl.
  - by apply Vector3_equals_run.
  - by apply Vector2_equals_run.
  - vm_compute. reflexivity.
  - vm_compute. reflexivity.
  - vm_compute. reflexivity.
  - vm_compute. reflexivity.
  - vm_compute. reflexivity.
  - vm_compute. reflexivity.
  - vm_compute. reflexivity.
  - intros v w. apply close_leb.
  - intros v w. apply close_nan.
  - intros v w [H|H]; apply close_nan; right;
      [by apply sub_nan_l|by apply sub_nan_r].
  - intros v Hv. apply close_nan. right.
    by rewrite (sub_not_finite v Hv).
  - vm_compute. reflexivity.
Qed.

Lemma vector_equals_absolute_tolerance_witness :
  Vector3.equals 1 2 (Some 3%float) store0 = Some (true, store0) ∧
  Vector2.equals 3 4 None store0 = Some (false, store0) ∧
  close 3 1 4 = (abs (1 - 4) <=? 3)%float ∧
  close 3 infinity infinity = true.
Proof.
  destruct (vector_equals_absolute_tolerance store0 (Some 3%float)
              1 2 1 2 3 4 5 6 3 4 1 2 3 4 eq_refl eq_refl eq_refl eq_refl)
    as (_ & _ & E3 & _ & _ & _ & _ & _ & _ & _ & _ & L & _ & _ & I & _).
  destruct (vector_equals_absolute_tolerance store0 None
              1 2 1 2 3 4 5 6 3 4 1 2 3 4 eq_refl eq_refl eq_refl eq_refl)
    as (_ & _ & _ & E2 & _).
  split_and!; [exact E3 | exact E2 | exact (L 1 4 eq_refl eq_refl)%float
              | exact (I infinity eq_refl)].
Defined.

(** The components 0.0000001 and 0.0000021 do not compare unequal at the
    default threshold, in either class. *)
Lemma small_components_compare_equal :
  fst <$> equals2_example 0.0000001 0.0000021 ∅ ≠ Some false ∧
  fst <$> equals3_example 0.0000001 0.0000021 ∅ ≠ Some false.
Proof. split; vm_compute; discriminate. Qed.

(** ** Linear interpolation, at its ends *)



